(** * DataGABA: ingestion, deduplication and windowed correlation

    A shallow embedding of the parts of the repository that the
    specification's testable properties talk about:

    - [Dedup]     the bounded seen-set of [storeUserTradesRealtime.ts];
    - [Sanitize]  [sanitizeFileComponent] of [storeUserTradesRealtime.ts];
    - [Backoff]   the reconnect delay of the market web-socket monitors;
    - [JsArray]   the stable [Array.prototype.sort] with a numeric key;
    - [Merge]     [mergeTrades] of the trade matcher;
    - [Promotion] [uploadSlugFileToR2] / [checkAndUploadInactiveSlugs] of the
                  hourly-market collector.

    The definitions come first, one module per component; the properties
    follow in modules named after them ([DedupSpec], [MergeSpec], ...).

    Times are JavaScript numbers holding integral milliseconds and are
    modelled as [Z]; JavaScript strings are modelled as [string], except in
    [Sanitize] where lengths count UTF-16 code units and a string is a list
    of code units. *)

From Stdlib Require Import ZArith QArith Qround Lia.
From stdpp Require Import base list gmap strings sets pretty sorting.

Close Scope Q_scope.
Local Open Scope Z_scope.

(** ** The bounded seen-set *)

Module Dedup.

(** [const MAX_SEEN_TX = 10000;] *)
Definition MAX_SEEN_TX : Z := 10000.

(** The two fields of [PersistedState] that make up the dedup store:
    [seenTxOrder: string[]] and [seenTxSet: Record<string, true>].  The
    remaining fields ([user], [updatedAt], [lastTimestampByGroup]) are not
    read or written by the dedup code. *)
Record PersistedState := mkState {
  seenTxOrder : list string;
  seenTxSet : gset string
}.

(** The state [loadState] returns when no state file exists. *)
Definition emptyState : PersistedState := mkState [] ∅.

(** [for (const k of removed) delete state.seenTxSet[k];] *)
Definition deleteAll (removed : list string) (s : gset string) : gset string :=
  foldl (fun acc k => acc ∖ {[k]}) s removed.

(** The pruning block that follows every insertion site:
<<
    if (state.seenTxOrder.length > MAX_SEEN_TX) {
        const removeCount = state.seenTxOrder.length - MAX_SEEN_TX;
        const removed = state.seenTxOrder.splice(0, removeCount);
        for (const k of removed) delete state.seenTxSet[k];
    }
>> *)
Definition pruneSeen (st : PersistedState) : PersistedState :=
  if decide (MAX_SEEN_TX < Z.of_nat (length (seenTxOrder st))) then
    let removeCount := Z.to_nat (Z.of_nat (length (seenTxOrder st)) - MAX_SEEN_TX) in
    let removed := take removeCount (seenTxOrder st) in
    mkState (drop removeCount (seenTxOrder st)) (deleteAll removed (seenTxSet st))
  else st.

(** [state.seenTxSet[key] = true; state.seenTxOrder.push(key);] *)
Definition remember (st : PersistedState) (key : string) : PersistedState :=
  mkState (seenTxOrder st ++ [key]) ({[key]} ∪ seenTxSet st).

(** The in-memory dedupe of the web-socket message handlers
    ([connectUserWs], [connectMarketWs]): test, insert, prune.  The boolean
    tells whether the event goes on to be written ([true]) or the handler
    returns early ([false]). *)
Definition checkAndInsert (st : PersistedState) (dedupKey : string)
  : bool * PersistedState :=
  if decide (dedupKey ∈ seenTxSet st) then (false, st)
  else (true, pruneSeen (remember st dedupKey)).

(** The store effect of one REST batch ([upsertTrades],
    [appendRestTradesUnified]): every candidate key that is not yet in the
    set is remembered, and the cache is pruned once, after the loop. *)
Definition insertBatch (st : PersistedState) (keys : list string) : PersistedState :=
  pruneSeen
    (foldl (fun s k => if decide (k ∈ seenTxSet s) then s else remember s k) st keys).

(** Delivering the keys one after another through the message handler. *)
Definition deliver (st : PersistedState) (keys : list string) : PersistedState :=
  foldl (fun s k => snd (checkAndInsert s k)) st keys.

(** How many of the deliveries were accepted. *)
Fixpoint accepted (st : PersistedState) (keys : list string) : nat :=
  match keys with
  | [] => O
  | k :: rest =>
      let '(ok, st') := checkAndInsert st k in
      ((if ok then 1 else 0) + accepted st' rest)%nat
  end.

(** The store is consistent when the set and the order list hold the same
    keys, each once, and the bound is respected.  Every state the code
    reaches from [emptyState] is consistent ([checkAndInsert_wf]). *)
Definition wf (st : PersistedState) : Prop :=
  NoDup (seenTxOrder st)
  /\ (forall k, k ∈ seenTxSet st <-> k ∈ seenTxOrder st)
  /\ Z.of_nat (length (seenTxOrder st)) <= MAX_SEEN_TX.

(** The specification's reading of the eviction policy ("evict the oldest
    half of the insertion order"), stated for one insertion that overflows
    the store: afterwards only the newer half of the order is left. *)
Definition evictsOldestHalf (st : PersistedState) (key : string) : Prop :=
  let full := seenTxOrder st ++ [key] in
  seenTxOrder (snd (checkAndInsert st key)) = drop (length full / 2)%nat full.

(** The keys used in the concrete runs below: [id:0], [id:1], ... *)
Definition keyOf (n : nat) : string := "id:" +:+ pretty n.

Definition keysFrom (start count : nat) : list string := keyOf <$> seq start count.

(** A store filled to capacity by [MAX_SEEN_TX] deliveries. *)
Definition fullStore : PersistedState :=
  deliver emptyState (keysFrom 0 (Z.to_nat MAX_SEEN_TX)).

End Dedup.

(** ** File-name components *)

Module Sanitize.

(** A JavaScript string is a sequence of UTF-16 code units; [.length] and
    [.slice] count code units. *)
Abbreviation jsstring := (list N).

Definition ofString (s : string) : jsstring :=
  Ascii.N_of_ascii <$> String.list_ascii_of_string s.

Definition underscore : N := 95.

(** The character class [[a-zA-Z0-9._-]]. *)
Definition isSafeChar (c : N) : bool :=
  ((97 <=? c) && (c <=? 122) || (65 <=? c) && (c <=? 90) || (48 <=? c) && (c <=? 57)
   || (c =? 46) || (c =? 95) || (c =? 45))%N.

(** What [String.prototype.trim] removes: ECMAScript WhiteSpace and
    LineTerminator code points. *)
Definition isWhiteSpace (c : N) : bool :=
  ((9 <=? c) && (c <=? 13) || (c =? 32) || (c =? 160) || (c =? 5760)
   || (8192 <=? c) && (c <=? 8202) || (c =? 8232) || (c =? 8233) || (c =? 8239)
   || (c =? 8287) || (c =? 12288) || (c =? 65279))%N.

Definition isUnderscore (c : N) : bool := (c =? underscore)%N.

(** Removing the longest prefix, respectively suffix, of characters that
    satisfy [p]: what [/^_+/] and [/_+$/] match, and what [trim] strips. *)
Fixpoint dropWhileStart (p : N -> bool) (s : jsstring) : jsstring :=
  match s with
  | [] => []
  | c :: r => if p c then dropWhileStart p r else s
  end.

Fixpoint dropWhileEnd (p : N -> bool) (s : jsstring) : jsstring :=
  match s with
  | [] => []
  | c :: r =>
      match dropWhileEnd p r with
      | [] => if p c then [] else [c]
      | r' => c :: r'
      end
  end.

(** [.trim()] *)
Definition trim (s : jsstring) : jsstring :=
  dropWhileEnd isWhiteSpace (dropWhileStart isWhiteSpace s).

(** [.replace(/[^a-zA-Z0-9._-]+/g, '_')]: every maximal run of characters
    outside the class becomes one underscore.  [inRun] tells that the
    previous character already belonged to the run being replaced. *)
Fixpoint replaceUnsafeRuns (inRun : bool) (s : jsstring) : jsstring :=
  match s with
  | [] => []
  | c :: r =>
      if isSafeChar c then c :: replaceUnsafeRuns false r
      else if inRun then replaceUnsafeRuns true r
      else underscore :: replaceUnsafeRuns true r
  end.

(** The value of [cleaned] in [sanitizeFileComponent]. *)
Definition cleaned (input : jsstring) : jsstring :=
  dropWhileEnd isUnderscore
    (dropWhileStart isUnderscore (replaceUnsafeRuns false (trim input))).

Definition unknown : jsstring := Eval cbv in ofString "unknown".

(** [sanitizeFileComponent] of [storeUserTradesRealtime.ts]:
<<
    const cleaned = input.trim().replace(/[^a-zA-Z0-9._-]+/g, '_')
        .replace(/^_+/, '').replace(/_+$/, '');
    const safe = cleaned.length > 0 ? cleaned : 'unknown';
    return safe.slice(0, 140);
>> *)
Definition sanitizeFileComponent (input : jsstring) : jsstring :=
  let safe := match cleaned input with [] => unknown | _ => cleaned input end in
  take 140 safe.

(** An input whose cleaned form is 141 characters long with an underscore in
    position 140: 139 letters, a space, one more letter. *)
Definition longInput : jsstring := replicate 139 97%N ++ [32%N; 98%N].

End Sanitize.

(** ** Reconnect delay of the market web-socket monitors *)

Module Backoff.

(** [private reconnectDelay = 1000;] *)
Definition initialReconnectDelay : Z := 1000.

(** [private maxReconnectDelay = 30000;] *)
Definition maxReconnectDelay : Z := 30000.

(** What can happen to the connection between two calls of [connect]:
    the socket opens, the socket closes, or [new WebSocket] throws. *)
Inductive Event := Open | Close | ConnectThrows.

(** One handler run on the connector's [reconnectDelay].  The second
    component is the delay handed to [setTimeout(connect, _)], if any:
<<
    on('open'):  this.reconnectDelay = 1000;
    on('close'): setTimeout(connect, this.reconnectDelay);
                 this.reconnectDelay = Math.min(this.reconnectDelay * 2, this.maxReconnectDelay);
    catch:       setTimeout(connect, this.reconnectDelay);
>> *)
Definition step (reconnectDelay : Z) (e : Event) : Z * option Z :=
  match e with
  | Open => (1000, None)
  | Close => (Z.min (reconnectDelay * 2) maxReconnectDelay, Some reconnectDelay)
  | ConnectThrows => (reconnectDelay, Some reconnectDelay)
  end.

(** The value of [reconnectDelay] after a sequence of events. *)
Definition finalDelay (reconnectDelay : Z) (events : list Event) : Z :=
  foldl (fun d e => fst (step d e)) reconnectDelay events.

(** The delays scheduled along a sequence of events, in order. *)
Fixpoint delays (reconnectDelay : Z) (events : list Event) : list Z :=
  match events with
  | [] => []
  | e :: rest =>
      let '(d', scheduled) := step reconnectDelay e in
      match scheduled with
      | Some d => d :: delays d' rest
      | None => delays d' rest
      end
  end.

End Backoff.

(** ** Arrays *)

Module JsArray.

(** [Array.prototype.sort((a, b) => key(a) - key(b))]: a stable sort. *)
Fixpoint insertBy {A} (key : A -> Z) (x : A) (l : list A) : list A :=
  match l with
  | [] => [x]
  | y :: r => if key y <? key x then y :: insertBy key x r else x :: y :: r
  end.

Definition sortBy {A} (key : A -> Z) (l : list A) : list A :=
  foldr (insertBy key) [] l.

(** Ascending order of the keys. *)
Definition keyLe {A} (key : A -> Z) (a b : A) : Prop := key a <= key b.

End JsArray.

(** ** The trade matcher: [mergeTrades] *)

Module Merge.
Import JsArray.

(** Prices and sizes are JavaScript numbers.  They are modelled as
    rationals with exact arithmetic; the source computes the average in
    IEEE-754 doubles.  No statement below depends on the value of a
    statistic, only on which events enter it. *)
Abbreviation num := Q.

(** [src: 'market_ws' | 'rest_poll' | 'onchain' | 'user_ws'] *)
Inductive Source := market_ws | rest_poll | onchain | user_ws.

#[global] Instance Source_eq_dec : EqDecision Source.
Proof. solve_decision. Defined.

(** The [data] object some events carry: its [endpoint] property, which
    [mergeTrades] reads, and the other properties, which it only copies. *)
Record EventData := mkEventData {
  data_endpoint : option string;
  data_other : list (string * string)
}.

(** [interface EventRecord], with the properties of its index signature
    that [mergeTrades] reads.  Field [ev_x] is the property [x]; the other
    records below prefix their properties in the same way ([mt_x] for
    [MergedTrade], [rest_x], [snap_x], [raw_x]). *)
Record EventRecord := mkEvent {
  ev_t : Z;
  ev_recv : Z;
  ev_src : Source;
  ev_slug : option string;
  ev_cid : option string;
  ev_aid : option string;
  ev_type : string;
  ev_tx : option string;
  ev_price : option num;
  ev_size : option num;
  ev_usdc : option num;
  ev_bestBid : option num;
  ev_bestAsk : option num;
  ev_mid : option num;
  ev_spread : option num;
  ev_side : option string;
  ev_outcome : option string;
  ev_asset : option string;
  ev_id : option string;
  ev_endpoint : option string;
  ev_data : option EventData
}.

(** [interface MarketSnapshot] *)
Record MarketSnapshot := mkSnapshot {
  snap_t : Z;
  snap_bestBid : option num;
  snap_bestAsk : option num;
  snap_mid : option num;
  snap_spread : option num;
  snap_price : option num
}.

(** The [stats] object of a market summary. *)
Record SummaryStats := mkStats {
  bidMin : option num; bidMax : option num; bidAvg : option num;
  askMin : option num; askMax : option num; askAvg : option num;
  spreadMin : option num; spreadMax : option num; spreadAvg : option num;
  midMin : option num; midMax : option num; midAvg : option num;
  priceChangeCount : nat;
  lastTradePriceCount : nat
}.

Record RawDataRef := mkRawDataRef {
  eventsFile : string;
  firstEventTime : Z;
  lastEventTime : Z
}.

(** [interface MarketSummary] *)
Record MarketSummary := mkSummary {
  windowMs : Z;
  eventCount : nat;
  beforeTrade : option (list MarketSnapshot);
  afterTrade : option (list MarketSnapshot);
  atTrade : option MarketSnapshot;
  stats : SummaryStats;
  rawDataRef : RawDataRef
}.

(** One element of [MergedTrade.marketEvents]. *)
Record RawMarketEvent := mkRaw {
  raw_t : Z;
  raw_type : string;
  raw_price : option num;
  raw_bestBid : option num;
  raw_bestAsk : option num;
  raw_mid : option num;
  raw_spread : option num;
  raw_side : option string
}.

(** The object literal assigned to [rest].  The trailing spread
    [...(event as any).data] is kept as the data object itself: the literal
    is a function of the named properties and of that object. *)
Record RestInfo := mkRest {
  rest_price : option num;
  rest_size : option num;
  rest_usdc : option num;
  rest_side : option string;
  rest_outcome : option string;
  rest_asset : option string;
  rest_assetId : option string;
  rest_conditionId : option string;
  rest_id : option string;
  rest_timestamp : Z;
  rest_endpoint : string;
  rest_spreadData : option EventData
}.

(** [interface MergedTrade] *)
Record MergedTrade := mkTrade {
  mt_tx : string;
  mt_slug : string;
  mt_timestamp : Z;
  mt_timestampMs : Z;
  mt_receivedAtMs : Z;
  mt_rest : option RestInfo;
  mt_marketSummary : option MarketSummary;
  mt_marketEvents : option (list RawMarketEvent)
}.

Definition MARKET_WINDOW_MS : Z := 3000.
Definition MAX_RAW_EVENTS_PER_TRADE : nat := 100.
Definition SNAPSHOTS_BEFORE_TRADE : nat := 10.
Definition SNAPSHOTS_AFTER_TRADE : nat := 10.

(** Truthiness of an optional string, and [a || b] on such values. *)
Definition truthy (o : option string) : bool :=
  match o with
  | Some s => negb (String.eqb s "")
  | None => false
  end.

Definition orElse (a b : option string) : option string :=
  if truthy a then a else b.

Definition orDefault (a : option string) (d : string) : string :=
  match a with
  | Some s => if String.eqb s "" then d else s
  | None => d
  end.

(** [String.prototype.toLowerCase], on the ASCII letters. *)
Definition lowerAscii (c : Ascii.ascii) : Ascii.ascii :=
  let n := Ascii.nat_of_ascii c in
  if (65 <=? n)%nat && (n <=? 90)%nat then Ascii.ascii_of_nat (n + 32) else c.

Fixpoint toLowerCase (s : string) : string :=
  match s with
  | EmptyString => EmptyString
  | String c r => String (lowerAscii c) (toLowerCase r)
  end.

(** *** The [Map<string, MergedTrade>], in insertion order *)

Definition TradeMap := list (string * MergedTrade).

Fixpoint mapGet (k : string) (m : TradeMap) : option MergedTrade :=
  match m with
  | [] => None
  | (k', v) :: r => if String.eqb k k' then Some v else mapGet k r
  end.

(** [Map.prototype.set]: a present key keeps its position. *)
Fixpoint mapSet (k : string) (v : MergedTrade) (m : TradeMap) : TradeMap :=
  match m with
  | [] => [(k, v)]
  | (k', v') :: r => if String.eqb k k' then (k, v) :: r else (k', v') :: mapSet k v r
  end.

Definition mapValues (m : TradeMap) : list MergedTrade := snd <$> m.

(** *** First loop: the existing merged trades *)

Definition loadExisting (merged : TradeMap) (trade : MergedTrade) : TradeMap :=
  if String.eqb (mt_tx trade) "" then merged
  else
    let txLower := toLowerCase (mt_tx trade) in
    match mapGet txLower merged with
    | None => mapSet txLower trade merged
    | Some existing =>
        if mt_timestampMs trade <? mt_timestampMs existing
        then mapSet txLower trade merged
        else merged
    end.

(** *** Second loop: the REST polling events *)

Definition endpointOf (event : EventRecord) : string :=
  orDefault
    (orElse (ev_endpoint event)
            (match ev_data event with Some d => data_endpoint d | None => None end))
    "/activity".

Definition restOf (event : EventRecord) : RestInfo :=
  {| rest_price := ev_price event;
     rest_size := ev_size event;
     rest_usdc := ev_usdc event;
     rest_side := ev_side event;
     rest_outcome := ev_outcome event;
     rest_asset := orElse (ev_aid event) (ev_asset event);
     rest_assetId := ev_aid event;
     rest_conditionId := ev_cid event;
     rest_id := ev_id event;
     rest_timestamp := ev_t event;
     rest_endpoint := endpointOf event;
     rest_spreadData := ev_data event |}.

(** [existing.timestampMs || event.t] *)
Definition orTime (timestampMs t : Z) : Z :=
  if timestampMs =? 0 then t else timestampMs.

(** The "update existing" branch. *)
Definition updateExisting (existing : MergedTrade) (event : EventRecord) : MergedTrade :=
  {| mt_tx := mt_tx existing;
     mt_slug := mt_slug existing;
     mt_timestamp := Z.min (mt_timestamp existing) (ev_t event);
     mt_timestampMs := Z.min (orTime (mt_timestampMs existing) (ev_t event)) (ev_t event);
     mt_receivedAtMs := Z.max (mt_receivedAtMs existing) (ev_recv event);
     mt_rest := Some (restOf event);
     mt_marketSummary := mt_marketSummary existing;
     mt_marketEvents := mt_marketEvents existing |}.

(** The "create new" branch. *)
Definition createNew (tx : string) (event : EventRecord) : MergedTrade :=
  {| mt_tx := tx;
     mt_slug := orDefault (ev_slug event) "unknown";
     mt_timestamp := ev_t event;
     mt_timestampMs := ev_t event;
     mt_receivedAtMs := ev_recv event;
     mt_rest := Some (restOf event);
     mt_marketSummary := None;
     mt_marketEvents := None |}.

(** The transaction hash of an event the second loop does not skip. *)
Definition restTx (event : EventRecord) : option string :=
  match ev_src event, ev_tx event with
  | rest_poll, Some tx => if String.eqb tx "" then None else Some tx
  | _, _ => None
  end.

Definition applyRest (merged : TradeMap) (event : EventRecord) : TradeMap :=
  match restTx event with
  | None => merged
  | Some tx =>
      let txLower := toLowerCase tx in
      match mapGet txLower merged with
      | Some existing => mapSet txLower (updateExisting existing event) merged
      | None => mapSet txLower (createNew tx event) merged
      end
  end.

(** *** Third loop: market context around each trade *)

(** The test of the collecting loops: a [market_ws] event whose time lies
    in the closed interval from [lo] to [hi]. *)
Definition inWindow (lo hi : Z) (e : EventRecord) : Prop :=
  ev_src e = market_ws /\ lo <= ev_t e /\ ev_t e <= hi.

#[global] Instance inWindow_dec lo hi e : Decision (inWindow lo hi e).
Proof. unfold inWindow. apply _. Defined.

Definition collect (lo hi : Z) (marketEvents : list EventRecord) : list EventRecord :=
  filter (inWindow lo hi) marketEvents.

(** One iteration of the search for the closest market event.  [None]
    stands for [closestEvent = null, minDiff = Infinity]. *)
Definition closestStep (tradeTime : Z) (acc : option (EventRecord * Z))
    (marketEvent : EventRecord) : option (EventRecord * Z) :=
  if decide (ev_src marketEvent = market_ws) then
    let diff := Z.abs (ev_t marketEvent - tradeTime) in
    match acc with
    | None => Some (marketEvent, diff)
    | Some (_, minDiff) => if diff <? minDiff then Some (marketEvent, diff) else acc
    end
  else acc.

Definition closest (tradeTime : Z) (marketEvents : list EventRecord)
  : option (EventRecord * Z) :=
  foldl (closestStep tradeTime) None marketEvents.

(** The bounds of the extended window around the closest event. *)
Definition extendedWindowStart (W tradeTime closestT : Z) : Z :=
  Z.max (closestT - W) (tradeTime - 10000).

Definition extendedWindowEnd (W tradeTime closestT : Z) : Z :=
  Z.min (closestT + W) (tradeTime + 10000).

(** The content of [windowEvents] when the loop body reaches
    [if (windowEvents.length === 0) continue;].  [W] is the window half
    width, [MARKET_WINDOW_MS] in the source. *)
Definition windowEventsFor (W : Z) (marketEvents : list EventRecord) (tradeTime : Z)
  : list EventRecord :=
  let windowEvents := collect (tradeTime - W) (tradeTime + W) marketEvents in
  match windowEvents, marketEvents with
  | [], _ :: _ =>
      match closest tradeTime marketEvents with
      | Some (closestEvent, minDiff) =>
          if minDiff <=? 30000 then
            sortBy ev_t
              (collect (extendedWindowStart W tradeTime (ev_t closestEvent))
                       (extendedWindowEnd W tradeTime (ev_t closestEvent))
                       marketEvents)
          else []
      | None => []
      end
  | _, _ => windowEvents
  end.

Definition snapshotOf (event : EventRecord) : MarketSnapshot :=
  {| snap_t := ev_t event;
     snap_bestBid := ev_bestBid event;
     snap_bestAsk := ev_bestAsk event;
     snap_mid := ev_mid event;
     snap_spread := ev_spread event;
     snap_price := ev_price event |}.

Definition rawOf (e : EventRecord) : RawMarketEvent :=
  {| raw_t := ev_t e;
     raw_type := ev_type e;
     raw_price := ev_price e;
     raw_bestBid := ev_bestBid e;
     raw_bestAsk := ev_bestAsk e;
     raw_mid := ev_mid e;
     raw_spread := ev_spread e;
     raw_side := ev_side e |}.

Definition qmin (a b : num) : num := if Qle_bool a b then a else b.
Definition qmax (a b : num) : num := if Qle_bool a b then b else a.

(** [Math.round(avg * 10000) / 10000] *)
Definition round4 (avg : num) : num :=
  Qdiv (inject_Z (Qfloor (Qplus (Qmult avg (inject_Z 10000)) (Qmake 1 2)))) (inject_Z 10000).

(** [calcStats]: minimum, maximum and rounded average of a non-empty
    array. *)
Definition calcStats (arr : list num) : option (num * num * num) :=
  match arr with
  | [] => None
  | x :: r =>
      let min := foldl qmin x r in
      let max := foldl qmax x r in
      let avg := Qdiv (foldl Qplus (inject_Z 0) arr) (inject_Z (Z.of_nat (length arr))) in
      Some (min, max, round4 avg)
  end.

Definition statMin (s : option (num * num * num)) : option num := (fun x => fst (fst x)) <$> s.
Definition statMax (s : option (num * num * num)) : option num := (fun x => snd (fst x)) <$> s.
Definition statAvg (s : option (num * num * num)) : option num := snd <$> s.

Definition countType (ty : string) (windowEvents : list EventRecord) : nat :=
  length (filter (fun e => ev_type e = ty) windowEvents).

(** The summary built from the sorted, non-empty [windowEvents]. *)
Definition summaryOf (W tradeTime : Z) (windowEvents : list EventRecord) : MarketSummary :=
  let eventsBefore := snapshotOf <$> filter (fun e => ev_t e < tradeTime) windowEvents in
  let eventsAfter := snapshotOf <$> filter (fun e => tradeTime < ev_t e) windowEvents in
  let atTrade := last (snapshotOf <$> filter (fun e => ev_t e = tradeTime) windowEvents) in
  let bidStats := calcStats (omap ev_bestBid windowEvents) in
  let askStats := calcStats (omap ev_bestAsk windowEvents) in
  let spreadStats := calcStats (omap ev_spread windowEvents) in
  let midStats := calcStats (omap ev_mid windowEvents) in
  {| windowMs := W;
     eventCount := length windowEvents;
     beforeTrade :=
       match eventsBefore with
       | [] => None
       | _ => Some (drop (length eventsBefore - SNAPSHOTS_BEFORE_TRADE) eventsBefore)
       end;
     afterTrade :=
       match eventsAfter with
       | [] => None
       | _ => Some (take SNAPSHOTS_AFTER_TRADE eventsAfter)
       end;
     atTrade := atTrade;
     stats :=
       {| bidMin := statMin bidStats; bidMax := statMax bidStats; bidAvg := statAvg bidStats;
          askMin := statMin askStats; askMax := statMax askStats; askAvg := statAvg askStats;
          spreadMin := statMin spreadStats; spreadMax := statMax spreadStats;
          spreadAvg := statAvg spreadStats;
          midMin := statMin midStats; midMax := statMax midStats; midAvg := statAvg midStats;
          priceChangeCount := countType "price_change" windowEvents;
          lastTradePriceCount := countType "last_trade_price" windowEvents |};
     rawDataRef :=
       {| eventsFile := "events.jsonl";
          firstEventTime := default 0 (ev_t <$> head windowEvents);
          lastEventTime := default 0 (ev_t <$> last windowEvents) |} |}.

(** The body of the third loop for one trade. *)
Definition addMarketContext (W : Z) (marketEvents : list EventRecord)
    (trade : MergedTrade) : MergedTrade :=
  let tradeTime := mt_timestampMs trade in
  match windowEventsFor W marketEvents tradeTime with
  | [] => trade
  | collected =>
      let windowEvents := sortBy ev_t collected in
      {| mt_tx := mt_tx trade;
         mt_slug := mt_slug trade;
         mt_timestamp := mt_timestamp trade;
         mt_timestampMs := mt_timestampMs trade;
         mt_receivedAtMs := mt_receivedAtMs trade;
         mt_rest := mt_rest trade;
         mt_marketSummary := Some (summaryOf W tradeTime windowEvents);
         mt_marketEvents :=
           if (length windowEvents <=? MAX_RAW_EVENTS_PER_TRADE)%nat
           then Some (rawOf <$> windowEvents)
           else None |}
  end.

(** [mergeTrades] with the window half width as a parameter. *)
Definition mergeTradesW (W : Z) (restEvents marketEvents : list EventRecord)
    (existingMerged : list MergedTrade) : list MergedTrade :=
  let merged := foldl loadExisting [] existingMerged in
  let merged := foldl applyRest merged restEvents in
  sortBy mt_timestampMs (addMarketContext W marketEvents <$> mapValues merged).

(** [mergeTrades], as the source has it. *)
Definition mergeTrades (restEvents marketEvents : list EventRecord)
    (existingMerged : list MergedTrade) : list MergedTrade :=
  mergeTradesW MARKET_WINDOW_MS restEvents marketEvents existingMerged.

(** What the search loop has found after looking at [seen]. *)
Definition closestInv (T : Z) (seen : list EventRecord)
    (acc : option (EventRecord * Z)) : Prop :=
  match acc with
  | None => forall e, e ∈ seen -> ev_src e <> market_ws
  | Some (c, d) =>
      c ∈ seen /\ ev_src c = market_ws /\ d = Z.abs (ev_t c - T)
      /\ forall e, e ∈ seen -> ev_src e = market_ws -> d <= Z.abs (ev_t e - T)
  end.


(** *** Notions used to state that a second run changes nothing *)

(** [existing.timestampMs = Math.min(existing.timestampMs || event.t, event.t)] *)
Definition stepTimestampMs (timestampMs t : Z) : Z := Z.min (orTime timestampMs t) t.

Definition mapKeys (m : TradeMap) : list string := fst <$> m.

(** The key under which the second loop files an event it does not skip. *)
Definition eventKey (event : EventRecord) : option string :=
  match restTx event with
  | Some tx => Some (toLowerCase tx)
  | None => None
  end.

(** The REST events that the second loop files under [k]. *)
Definition eventsFor (k : string) (restEvents : list EventRecord) : list EventRecord :=
  filter (fun e => eventKey e = Some k) restEvents.

(** What the second loop does to the entry of key [k]. *)
Definition perKey (k : string) (entry : option MergedTrade) (event : EventRecord)
  : option MergedTrade :=
  match restTx event with
  | Some tx =>
      if String.eqb (toLowerCase tx) k then
        Some (match entry with
              | Some existing => updateExisting existing event
              | None => createNew tx event
              end)
      else entry
  | None => entry
  end.

(** The keys are the lower-cased, non-empty hashes of their trades, and no
    key occurs twice. *)
Definition keyed (trade : MergedTrade) : string * MergedTrade :=
  (toLowerCase (mt_tx trade), trade).

Definition mapOk (m : TradeMap) : Prop :=
  NoDup (mapKeys m)
  /\ Forall (fun kv => fst kv = toLowerCase (mt_tx (snd kv)) /\ mt_tx (snd kv) <> "") m.

(** A trade that updating with each of [events] again leaves unchanged. *)
Definition settled (trade : MergedTrade) (events : list EventRecord) : Prop :=
  Forall (fun e => mt_timestamp trade <= ev_t e) events
  /\ Forall (fun e => ev_recv e <= mt_receivedAtMs trade) events
  /\ foldl stepTimestampMs (mt_timestampMs trade) (ev_t <$> events) = mt_timestampMs trade
  /\ (forall e, last events = Some e -> mt_rest trade = Some (restOf e)).

(** The invariant that relates a run of the [timestampMs] update started at
    [w] (state [b]) to the run started at 0 (state [a]). *)
Definition sameOrKept (a b w : Z) : Prop :=
  b = a \/ (b = w /\ w <> 0 /\ (a = 0 \/ w < a)).


(** The times, respectively the number, of the raw events a trade
    retains. *)
Definition rawTimes (trade : MergedTrade) : option (list Z) :=
  match mt_marketEvents trade with
  | Some raw => Some (raw_t <$> raw)
  | None => None
  end.

Definition rawCount (trade : MergedTrade) : option nat :=
  match mt_marketEvents trade with
  | Some raw => Some (length raw)
  | None => None
  end.

(** *** Events for the concrete runs *)

Definition snapshotAt (t : Z) : EventRecord :=
  {| ev_t := t; ev_recv := t; ev_src := market_ws; ev_slug := Some "btc-updown-15m";
     ev_cid := None; ev_aid := None; ev_type := "price_change"; ev_tx := None;
     ev_price := None; ev_size := None; ev_usdc := None;
     ev_bestBid := Some (Qmake 48 100); ev_bestAsk := Some (Qmake 52 100);
     ev_mid := Some (Qmake 50 100); ev_spread := Some (Qmake 4 100);
     ev_side := None; ev_outcome := None; ev_asset := None; ev_id := None;
     ev_endpoint := None; ev_data := None |}.

Definition restTradeAt (tx : string) (t : Z) : EventRecord :=
  {| ev_t := t; ev_recv := t + 40; ev_src := rest_poll; ev_slug := Some "btc-updown-15m";
     ev_cid := None; ev_aid := None; ev_type := "trade"; ev_tx := Some tx;
     ev_price := Some (Qmake 51 100); ev_size := Some (inject_Z 10);
     ev_usdc := Some (Qmake 51 10);
     ev_bestBid := None; ev_bestAsk := None; ev_mid := None; ev_spread := None;
     ev_side := Some "BUY"; ev_outcome := Some "Up"; ev_asset := None; ev_id := None;
     ev_endpoint := None; ev_data := None |}.

End Merge.

(** ** Promotion of finished market files *)

Module Promotion.
Import JsArray Sanitize.

(** [interface EventRecord] of the collector: the receive time, by which
    files are kept sorted, and the rest of the line. *)
Record EventRecord := mkEvent {
  receivedAtMs : Z;
  line : string
}.

(** [const SLUG_INACTIVITY_THRESHOLD_MS = 5 * 60 * 1000;] *)
Definition SLUG_INACTIVITY_THRESHOLD_MS : Z := 5 * 60 * 1000.

(** [const BUFFER_MAX_SIZE = 100;] *)
Definition BUFFER_MAX_SIZE : nat := 100.

(** The module-level maps of the collector, the local directory
    [ethereum_1h_data] (file name to the events in the file) and the remote
    bucket (object key to content).  [slugLastActivity] keeps the insertion
    order of the [Map], which is the order of promotion. *)
Record State := mkState {
  files : gmap jsstring (list EventRecord);
  remote : gmap jsstring (list EventRecord);
  slugFileStreams : gset jsstring;
  slugLastActivity : list (jsstring * Z);
  slugEventCounts : gmap jsstring Z;
  slugEventBuffers : gmap jsstring (list EventRecord)
}.

(** What the outside world answers during one check or one call: whether
    the storage client is configured, whether an upload of a key succeeds,
    whether [fs.unlinkSync] throws for a file, whether [fs.readFileSync]
    throws for a file in [flushSlugBuffer], whether the write of a file
    ([fs.writeFileSync] of the temporary file, or [fs.renameSync]) throws
    in [flushSlugBuffer], and whether [fs.readFileSync] throws for a file
    in [uploadSlugFileToR2]. *)
Record Env := mkEnv {
  isR2Configured : bool;
  uploadToR2 : jsstring -> list EventRecord -> bool;
  unlinkThrows : jsstring -> bool;
  flushReadThrows : jsstring -> bool;
  flushWriteThrows : jsstring -> bool;
  uploadReadThrows : jsstring -> bool
}.

(** What a check does that can be observed from outside.  [Rejects slug]
    is the end of a check by the error thrown while the buffer of [slug]
    was flushed: nothing catches it between [flushSlugBuffer] and the
    timer that started the check. *)
Inductive Action :=
| Promote (slug : jsstring)
| UploadAttempt (slug : jsstring) (success : bool)
| Unlink (fileName : jsstring)
| Rejects (slug : jsstring).

#[global] Instance Action_eq_dec : EqDecision Action.
Proof. solve_decision. Defined.

(** [sanitizeFileComponent] of the collector has neither the fallback nor
    the cut: it is [cleaned]. *)
Definition fileNameOf (slug : jsstring) : jsstring := cleaned slug ++ ofString ".jsonl".

Definition r2KeyOf (slug : jsstring) : jsstring :=
  ofString "ethereum_1h/" ++ cleaned slug ++ ofString "/" ++ fileNameOf slug.

(** [Map.prototype.get], [set] and [delete] on [slugLastActivity]. *)
Fixpoint activityGet (slug : jsstring) (m : list (jsstring * Z)) : option Z :=
  match m with
  | [] => None
  | (s, t) :: r => if decide (slug = s) then Some t else activityGet slug r
  end.

Fixpoint activitySet (slug : jsstring) (t : Z) (m : list (jsstring * Z))
  : list (jsstring * Z) :=
  match m with
  | [] => [(slug, t)]
  | (s, t') :: r =>
      if decide (slug = s) then (slug, t) :: r else (s, t') :: activitySet slug t r
  end.

Definition activityDelete (slug : jsstring) (m : list (jsstring * Z))
  : list (jsstring * Z) :=
  filter (fun kv => fst kv <> slug) m.

(** [flushSlugBuffer]: the buffered events are merged into the file, which
    is kept sorted by [receivedAtMs].  A file is given by the events its
    lines parse to.  The result is [None] when the write throws: the
    promise of the function is then rejected and the maps and the file are
    as they were (the temporary file of the write is not part of [files]).
<<
    let existingEvents: EventRecord[] = [];
    try {
        if (fs.existsSync(filePath)) {
            const content = fs.readFileSync(filePath, 'utf8');
            ... existingEvents.push(existingEvent) ...
        }
    } catch (err: any) {
        // File might be locked, that's okay
    }
    existingEvents.push(...buffer);
    existingEvents.sort((a, b) => a.receivedAtMs - b.receivedAtMs);
    fs.writeFileSync(tempPath, content, 'utf8');
    fs.renameSync(tempPath, filePath);
>>
    When the read throws, the error is swallowed with [existingEvents]
    still empty, and the file is then written from the buffer alone. *)
Definition flushSlugBuffer (env : Env) (st : State) (slug : jsstring) : option State :=
  match slugEventBuffers st !! slug with
  | None | Some [] => Some st
  | Some buffer =>
      let existingEvents :=
        if flushReadThrows env (fileNameOf slug) then []
        else default [] (files st !! fileNameOf slug) in
      let sorted := sortBy receivedAtMs (existingEvents ++ buffer) in
      if flushWriteThrows env (fileNameOf slug) then None
      else
        let count := default 0 (slugEventCounts st !! slug) + Z.of_nat (length buffer) in
        Some {| files := <[fileNameOf slug := sorted]> (files st);
                remote := remote st;
                slugFileStreams := slugFileStreams st;
                slugLastActivity := slugLastActivity st;
                slugEventCounts := <[slug := count]> (slugEventCounts st);
                slugEventBuffers := <[slug := []]> (slugEventBuffers st) |}
  end.

(** [addEventToBuffer] at time [now].  The call [flushSlugBuffer(slug)] is
    not awaited: when its promise is rejected, [addEventToBuffer] has
    already done its work and returns as usual. *)
Definition addEventToBuffer (now : Z) (env : Env) (st : State) (slug : jsstring)
    (event : EventRecord) : State :=
  let buffer := default [] (slugEventBuffers st !! slug) ++ [event] in
  let st1 :=
    {| files := files st;
       remote := remote st;
       slugFileStreams := slugFileStreams st;
       slugLastActivity := activitySet slug now (slugLastActivity st);
       slugEventCounts := slugEventCounts st;
       slugEventBuffers := <[slug := buffer]> (slugEventBuffers st) |} in
  if (BUFFER_MAX_SIZE <=? length buffer)%nat
  then default st1 (flushSlugBuffer env st1 slug)
  else st1.

(** [uploadSlugFileToR2]: the returned boolean, the new state and the
    actions taken.  The boolean is [None] when [await flushSlugBuffer(slug)],
    which stands before the [try], throws: the promise of the function is
    then rejected.  An error of [fs.readFileSync] inside the [try] is
    caught and answered with [false]. *)
Definition uploadSlugFileToR2 (env : Env) (st : State) (slug : jsstring)
  : option bool * State * list Action :=
  match flushSlugBuffer env st slug with
  | None => (None, st, [])
  | Some st =>
      match files st !! fileNameOf slug with
      | None => (Some false, st, [])
      | Some content =>
          if uploadReadThrows env (fileNameOf slug) then (Some false, st, [])
          else if (length content =? 0)%nat then (Some false, st, [])
          else if isR2Configured env then
            if uploadToR2 env (r2KeyOf slug) content then
              let unlinked := negb (unlinkThrows env (fileNameOf slug)) in
              (Some true,
               {| files := if unlinked then delete (fileNameOf slug) (files st) else files st;
                  remote := <[r2KeyOf slug := content]> (remote st);
                  slugFileStreams := slugFileStreams st ∖ {[slug]};
                  slugLastActivity := activityDelete slug (slugLastActivity st);
                  slugEventCounts := delete slug (slugEventCounts st);
                  slugEventBuffers := slugEventBuffers st |},
               UploadAttempt slug true
                 :: (if unlinked then [Unlink (fileNameOf slug)] else []))
            else (Some false, st, [UploadAttempt slug false])
          else (Some false, st, [])
      end
  end.

(** The five ways a promotion of one slug can go. *)
Inductive UploadOutcome (env : Env) (st : State) (slug : jsstring)
  : option bool * State * list Action -> Prop :=
| NotAttempted st1 :
    slugLastActivity st1 = slugLastActivity st ->
    (forall f, is_Some (files st !! f) -> is_Some (files st1 !! f)) ->
    UploadOutcome env st slug (Some false, st1, [])
| Failed st1 :
    slugLastActivity st1 = slugLastActivity st ->
    (forall f, is_Some (files st !! f) -> is_Some (files st1 !! f)) ->
    is_Some (files st1 !! fileNameOf slug) ->
    UploadOutcome env st slug (Some false, st1, [UploadAttempt slug false])
| UploadedKept st1 :
    slugLastActivity st1 = activityDelete slug (slugLastActivity st) ->
    (forall f, is_Some (files st !! f) -> is_Some (files st1 !! f)) ->
    is_Some (files st1 !! fileNameOf slug) ->
    is_Some (remote st1 !! r2KeyOf slug) ->
    UploadOutcome env st slug (Some true, st1, [UploadAttempt slug true])
| UploadedUnlinked st1 :
    slugLastActivity st1 = activityDelete slug (slugLastActivity st) ->
    (forall f, f <> fileNameOf slug -> is_Some (files st !! f) -> is_Some (files st1 !! f)) ->
    is_Some (remote st1 !! r2KeyOf slug) ->
    UploadOutcome env st slug
      (Some true, st1, [UploadAttempt slug true; Unlink (fileNameOf slug)])
| FlushThrew :
    flushWriteThrows env (fileNameOf slug) = true ->
    UploadOutcome env st slug (None, st, []).

(** The slugs the check finds inactive at time [now]. *)
Definition inactiveSlugs (now : Z) (st : State) : list jsstring :=
  filter (fun slug =>
            SLUG_INACTIVITY_THRESHOLD_MS
            <= now - default 0 (activityGet slug (slugLastActivity st)))
         (fst <$> slugLastActivity st).

(** The loop [for (const slug of inactiveSlugs) await uploadSlugFileToR2(slug)].
    A rejected promise ends the loop and the check. *)
Fixpoint uploadEach (env : Env) (st : State) (slugs : list jsstring)
  : State * list Action :=
  match slugs with
  | [] => (st, [])
  | slug :: rest =>
      let '(returned, st1, acts) := uploadSlugFileToR2 env st slug in
      let '(st2, acts') :=
        match returned with
        | Some _ => uploadEach env st1 rest
        | None => (st1, [Rejects slug])
        end in
      (st2, Promote slug :: acts ++ acts')
  end.

(** [checkAndUploadInactiveSlugs] at time [now].  No other handler is
    taken to run while the check awaits an upload. *)
Definition checkAndUploadInactiveSlugs (now : Z) (env : Env) (st : State)
  : State * list Action :=
  let activeSlugs := fst <$> slugLastActivity st in
  let inactive := inactiveSlugs now st in
  if (0 <? length inactive)%nat && (length inactive <? length activeSlugs)%nat
  then uploadEach env st inactive
  else (st, []).

(** The gate of the check: some slug is inactive and some other slug is
    not. *)
Definition gateOpen (now : Z) (st : State) : bool :=
  (0 <? length (inactiveSlugs now st))%nat
  && (length (inactiveSlugs now st) <? length (fst <$> slugLastActivity st))%nat.

(** Every [Unlink] directly follows the successful upload of the slug the
    file belongs to. *)
Fixpoint unlinkOnlyAfterSuccess (acts : list Action) : bool :=
  match acts with
  | [] => true
  | UploadAttempt slug true :: Unlink f :: rest =>
      bool_decide (f = fileNameOf slug) && unlinkOnlyAfterSuccess rest
  | Unlink _ :: _ => false
  | _ :: rest => unlinkOnlyAfterSuccess rest
  end.

(** A concrete scene: market [eth-9pm] went quiet at t = 0 with one event
    on disk, market [eth-10pm] is still active at t = 300500. *)
Definition quietSlug : jsstring := Eval cbv in ofString "eth-9pm".
Definition busySlug : jsstring := Eval cbv in ofString "eth-10pm".

Definition scene : State :=
  {| files := {[ fileNameOf quietSlug := [mkEvent 0 "{}"] ]};
     remote := ∅;
     slugFileStreams := {[ quietSlug; busySlug ]};
     slugLastActivity := [(quietSlug, 0); (busySlug, 300500)];
     slugEventCounts := {[ quietSlug := 1 ]};
     slugEventBuffers := ∅ |}.

Definition uploadsFail : Env :=
  {| isR2Configured := true; uploadToR2 := fun _ _ => false; unlinkThrows := fun _ => false;
     flushReadThrows := fun _ => false; flushWriteThrows := fun _ => false;
     uploadReadThrows := fun _ => false |}.

Definition uploadsSucceed : Env :=
  {| isR2Configured := true; uploadToR2 := fun _ _ => true; unlinkThrows := fun _ => false;
     flushReadThrows := fun _ => false; flushWriteThrows := fun _ => false;
     uploadReadThrows := fun _ => false |}.

(** A second scene: market [eth-9pm] went quiet at t = 0 and market
    [eth-10pm] one minute later; the checks run every minute
    ([UPLOAD_CHECK_INTERVAL_MS = 60 * 1000]). *)
Definition bothQuiet : State :=
  {| files := {[ fileNameOf quietSlug := [mkEvent 0 "{}"] ]};
     remote := ∅;
     slugFileStreams := {[ quietSlug; busySlug ]};
     slugLastActivity := [(quietSlug, 0); (busySlug, 60000)];
     slugEventCounts := {[ quietSlug := 1 ]};
     slugEventBuffers := ∅ |}.

End Promotion.

(** ** Runs of deliveries to the seen-set *)

Module DedupRuns.
Import Dedup.

(** The keys a run of deliveries through the message handler accepts, in
    the order of acceptance. *)
Fixpoint acceptedKeys (st : PersistedState) (keys : list string) : list string :=
  match keys with
  | [] => []
  | k :: rest =>
      let '(ok, st') := checkAndInsert st k in
      if ok then k :: acceptedKeys st' rest else acceptedKeys st' rest
  end.

(** The stores the program can be in: the empty store of a first start,
    changed by message-handler deliveries and by REST batches. *)
Inductive reachable : PersistedState -> Prop :=
| reach_empty : reachable emptyState
| reach_handler st key : reachable st -> reachable (snd (checkAndInsert st key))
| reach_batch st keys : reachable st -> reachable (insertBatch st keys).

End DedupRuns.

(** ** File-name components of the matcher and of the web-socket monitor *)

Module MatcherSanitize.
Import Sanitize.

(** [sanitizeFileComponent] of the trade matcher (and, written with
    [|| 'unknown'], of the web-socket monitor): the fallback without the
    cut at 140 code units.
<<
    const cleaned = input.trim().replace(/[^a-zA-Z0-9._-]+/g, '_')
        .replace(/^_+/, '').replace(/_+$/, '');
    return cleaned.length > 0 ? cleaned : 'unknown';
>> *)
Definition sanitizeFileComponent (input : jsstring) : jsstring :=
  match cleaned input with
  | [] => unknown
  | c => c
  end.

(** A name that needs no cleaning: not empty, made of characters of the
    class, with no underscore at either end. *)
Definition isClean (s : jsstring) : Prop :=
  s <> []
  /\ Forall (fun c => isSafeChar c = true) s
  /\ head s <> Some underscore
  /\ last s <> Some underscore.

End MatcherSanitize.

(** ** Retrying REST requests *)

Module Retry.

(** What one [axios.get] can lead to: a response with its payload (an
    array of trades or something else), an error with HTTP status 429, an
    error the function at hand classifies as a network error (no response;
    for the logger also the codes ETIMEDOUT, ENETUNREACH, ECONNRESET and
    ECONNREFUSED), or any other error. *)
Inductive Answer (A : Type) :=
| Replied (data : option (list A))
| RateLimited
| NetworkError
| OtherError.

Arguments Replied {A} data.
Arguments RateLimited {A}.
Arguments NetworkError {A}.
Arguments OtherError {A}.

(** How a fetch ends: with an array of trades, or with the error thrown to
    the caller. *)
Inductive Outcome (A : Type) :=
| Returned (trades : list A)
| Thrown.

Arguments Returned {A} trades.
Arguments Thrown {A}.

(** [Array.isArray(response.data) ? response.data : []] *)
Definition arrayOrEmpty {A} (data : option (list A)) : list A := default [] data.

(** [isNetworkError(err)] of the logger: true for the errors without a
    response (the listed error codes come without one). *)
Definition isNetworkError {A} (a : Answer A) : bool :=
  match a with
  | NetworkError => true
  | _ => false
  end.

(** [fetchTrades] of the logger from attempt [attempt] on, with [fuel]
    iterations of the loop left; [answer n] is what request number [n]
    leads to.  The second component lists the sleeps, in milliseconds.
<<
    for (let attempt = 1; attempt <= maxRetries; attempt++) {
        try { ...; return Array.isArray(response.data) ? response.data : []; }
        catch (err) {
            const last = attempt === maxRetries;
            if (!last && isNetworkError(err)) {
                const delay = 1000 * Math.pow(2, attempt - 1);
                await sleep(delay); continue;
            }
            throw err;
        }
    }
    return [];
>> *)
Fixpoint fetchTradesFrom {A} (answer : nat -> Answer A) (fuel attempt : nat)
  : Outcome A * list Z :=
  match fuel with
  | O => (Returned [], [])
  | S fuel' =>
      match answer attempt with
      | Replied data => (Returned (arrayOrEmpty data), [])
      | err =>
          if negb (attempt =? 3)%nat && isNetworkError err then
            let '(out, sleeps) := fetchTradesFrom answer fuel' (S attempt) in
            (out, 1000 * 2 ^ (Z.of_nat attempt - 1) :: sleeps)
          else (Thrown, [])
      end
  end.

Definition fetchTrades {A} (answer : nat -> Answer A) : Outcome A * list Z :=
  fetchTradesFrom answer 3 1.

(** [const MAX_RETRIES = 5;] of the hourly-market collector. *)
Definition MAX_RETRIES : nat := 5.

(** [fetchUserActivity] of the collector.
<<
    catch (err) {
        if (isRateLimit && attempt < MAX_RETRIES) {
            const delay = Math.min(5000, 1000 * Math.pow(2, attempt - 1));
            await new Promise(resolve => setTimeout(resolve, delay)); continue;
        }
        if (isNetworkError && attempt < MAX_RETRIES) {
            await new Promise(resolve => setTimeout(resolve, 1000 * attempt)); continue;
        }
        return [];
    }
>> *)
Fixpoint fetchUserActivityFrom {A} (answer : nat -> Answer A) (fuel attempt : nat)
  : Outcome A * list Z :=
  match fuel with
  | O => (Returned [], [])
  | S fuel' =>
      match answer attempt with
      | Replied data => (Returned (arrayOrEmpty data), [])
      | RateLimited =>
          if (attempt <? MAX_RETRIES)%nat then
            let '(out, sleeps) := fetchUserActivityFrom answer fuel' (S attempt) in
            (out, Z.min 5000 (1000 * 2 ^ (Z.of_nat attempt - 1)) :: sleeps)
          else (Returned [], [])
      | NetworkError =>
          if (attempt <? MAX_RETRIES)%nat then
            let '(out, sleeps) := fetchUserActivityFrom answer fuel' (S attempt) in
            (out, 1000 * Z.of_nat attempt :: sleeps)
          else (Returned [], [])
      | OtherError => (Returned [], [])
      end
  end.

Definition fetchUserActivity {A} (answer : nat -> Answer A) : Outcome A * list Z :=
  fetchUserActivityFrom answer MAX_RETRIES 1.

(** The total time slept. *)
Definition totalSleep (sleeps : list Z) : Z := foldr Z.add 0 sleeps.

End Retry.

(** ** Notions for further properties of the trade matcher *)

Module MergeViews.
Import JsArray Merge.

(** The key of a merged record: its transaction hash in lower case. *)
Definition tradeKey (trade : MergedTrade) : string := toLowerCase (mt_tx trade).

(** The events the first two loops and the collecting loops do not skip. *)
Definition restRelevant (restEvents : list EventRecord) : list EventRecord :=
  filter (fun e => is_Some (restTx e)) restEvents.

Definition marketRelevant (marketEvents : list EventRecord) : list EventRecord :=
  filter (fun e => ev_src e = market_ws) marketEvents.

(** [calcStats] answers with bounds: every number of the array lies
    between the reported minimum and maximum, which are numbers of the
    array.  Minimum and maximum are found by comparisons alone, which
    give the same answer on doubles as on the rationals they denote. *)
Definition boundsOf (arr : list num) (s : option (num * num * num)) : Prop :=
  match s with
  | None => arr = []
  | Some (min, max, _) =>
      Forall (fun x => (min <= x)%Q /\ (x <= max)%Q) arr /\ min ∈ arr /\ max ∈ arr
  end.

End MergeViews.

(** ** The collector: what it holds for a market *)

Module PromotionViews.
Import JsArray Sanitize Promotion.

(** The events the collector holds for a slug: those in its file followed
    by those in its buffer. *)
Definition stored (st : State) (slug : jsstring) : list EventRecord :=
  default [] (files st !! fileNameOf slug) ++ default [] (slugEventBuffers st !! slug).

(** The events the file of a slug holds once its buffer has been flushed
    without an error of the write: the buffered events, after the old
    events of the file if there is nothing to flush or the file could be
    read, and alone if reading the file threw. *)
Definition afterFlush (env : Env) (st : State) (slug : jsstring) : list EventRecord :=
  match slugEventBuffers st !! slug with
  | Some (e :: b) =>
      (if flushReadThrows env (fileNameOf slug) then []
       else default [] (files st !! fileNameOf slug)) ++ e :: b
  | _ => default [] (files st !! fileNameOf slug)
  end.

(** No buffer has reached [BUFFER_MAX_SIZE]. *)
Definition buffersBounded (st : State) : Prop :=
  forall slug buffer,
    slugEventBuffers st !! slug = Some buffer -> (length buffer < BUFFER_MAX_SIZE)%nat.

(** A slug the check at time [now] finds active. *)
Definition activeAt (now : Z) (st : State) (slug : jsstring) : Prop :=
  slug ∈ (fst <$> slugLastActivity st)
  /\ now - default 0 (activityGet slug (slugLastActivity st)) < SLUG_INACTIVITY_THRESHOLD_MS.

(** The slugs a list of actions promotes, in order. *)
Definition promoted (acts : list Action) : list jsstring :=
  omap (fun a => match a with Promote slug => Some slug | _ => None end) acts.

End PromotionViews.

(** ** A JavaScript [Set] of strings *)

Module SeenSet.

(** A [Set<string>] as the list of its members in insertion order, which is
    the order of [Array.from]. *)
Definition has (seen : list string) (key : string) : bool := bool_decide (key ∈ seen).

Definition add (seen : list string) (key : string) : list string :=
  if has seen key then seen else seen ++ [key].

(** [array.slice(-n)] *)
Definition sliceLast {A} (n : Z) (array : list A) : list A :=
  drop (Z.to_nat (Z.of_nat (length array) - n)) array.

End SeenSet.

(** ** The market-feed monitor: its shared set of seen trades *)

Module MarketFeedDedup.
Import SeenSet.

(** The part of [parseTradeFromMessage] that works on [seenTrades]: the
    returned boolean tells whether the message goes on as a trade.
<<
    if (seenTrades.has(dedupKey)) return null;
    seenTrades.add(dedupKey);
    if (seenTrades.size > 10000) {
        const keys = Array.from(seenTrades);
        seenTrades.clear();
        keys.slice(-5000).forEach(k => seenTrades.add(k));
    }
>> *)
Definition noteWsTrade (seenTrades : list string) (dedupKey : string)
  : bool * list string :=
  if has seenTrades dedupKey then (false, seenTrades)
  else
    let seen := add seenTrades dedupKey in
    (true, if 10000 <? Z.of_nat (length seen) then sliceLast 5000 seen else seen).

(** A run of messages, and the number of them that go on as trades. *)
Definition wsRun (seenTrades : list string) (keys : list string) : list string :=
  foldl (fun seen key => snd (noteWsTrade seen key)) seenTrades keys.

Fixpoint wsAccepted (seenTrades : list string) (keys : list string) : nat :=
  match keys with
  | [] => 0
  | key :: rest =>
      (if fst (noteWsTrade seenTrades key) then 1 else 0)
      + wsAccepted (snd (noteWsTrade seenTrades key)) rest
  end.

(** The fields of a polled trade the fallback loop looks at. *)
Record RestTrade := mkRestTrade {
  tradeTimestamp : Z;
  transactionHash : string
}.

(** [`${trade.transactionHash}:${trade.timestamp}`] *)
Definition dedupKey (t : RestTrade) : string :=
  transactionHash t +:+ ":" +:+ pretty (tradeTimestamp t).

(** The loop of the polling fallback over one response: the set, the value
    of [lastRestTimestamp] and the trades written, in order.
<<
    for (const t of response.data) {
        if (tradeTimestamp > lastRestTimestamp) {
            if (!seenTrades.has(dedupKey)) {
                seenTrades.add(dedupKey);
                writeTrade(trade);
                lastRestTimestamp = Math.max(lastRestTimestamp, tradeTimestamp);
            } } }
>> *)
Fixpoint restLoop (seenTrades : list string) (lastRestTimestamp : Z)
    (data : list RestTrade) : list string * Z * list RestTrade :=
  match data with
  | [] => (seenTrades, lastRestTimestamp, [])
  | t :: rest =>
      if lastRestTimestamp <? tradeTimestamp t then
        if has seenTrades (dedupKey t) then restLoop seenTrades lastRestTimestamp rest
        else
          let '(seen, last, written) :=
            restLoop (add seenTrades (dedupKey t))
                     (Z.max lastRestTimestamp (tradeTimestamp t)) rest in
          (seen, last, t :: written)
      else restLoop seenTrades lastRestTimestamp rest
  end.

(** The key is among the members, with at most [n] members after it. *)
Definition keptBehind (key : string) (n : nat) (seen : list string) : Prop :=
  exists pre post, seen = pre ++ key :: post /\ (length post <= n)%nat.

End MarketFeedDedup.

(** ** The fast monitor: polling filter and hybrid forwarding *)

Module FastMonitor.
Import SeenSet.

(** The fields of [interface Trade] the filters look at. *)
Record Trade := mkTrade {
  id : option string;
  timestamp : Z;
  transactionHash : option string
}.

(** [t.id || `${t.transactionHash}:${t.timestamp}`] *)
Definition keyOfTrade (t : Trade) : string :=
  let composite := default "undefined" (transactionHash t) +:+ ":" +:+ pretty (timestamp t) in
  match id t with
  | Some i => if String.eqb i "" then composite else i
  | None => composite
  end.

(** The callback of [trades.filter] in [poll], which updates [lastSeenIds]
    and [lastTimestamp] as it goes:
<<
    if (this.lastSeenIds.has(key)) return false;
    if (t.timestamp <= this.lastTimestamp) return false;
    this.lastSeenIds.add(key);
    this.lastTimestamp = Math.max(this.lastTimestamp, t.timestamp);
    return true;
>> *)
Fixpoint filterNew (lastSeenIds : list string) (lastTimestamp : Z) (trades : list Trade)
  : list string * Z * list Trade :=
  match trades with
  | [] => (lastSeenIds, lastTimestamp, [])
  | t :: rest =>
      if has lastSeenIds (keyOfTrade t) then filterNew lastSeenIds lastTimestamp rest
      else if timestamp t <=? lastTimestamp then filterNew lastSeenIds lastTimestamp rest
      else
        let '(seen, last, newTrades) :=
          filterNew (add lastSeenIds (keyOfTrade t))
                    (Z.max lastTimestamp (timestamp t)) rest in
        (seen, last, t :: newTrades)
  end.

(** One [poll] on the response [trades]: the new state and the trades
    handed to [onNewTrades]. *)
Definition poll (lastSeenIds : list string) (lastTimestamp : Z) (trades : list Trade)
  : list string * Z * list Trade :=
  let '(seen, last, newTrades) := filterNew lastSeenIds lastTimestamp trades in
  (if 1000 <? Z.of_nat (length seen) then sliceLast 500 seen else seen, last, newTrades).

(** All trades handed on along a sequence of responses. *)
Fixpoint pollRun (lastSeenIds : list string) (lastTimestamp : Z)
    (responses : list (list Trade)) : list Trade :=
  match responses with
  | [] => []
  | trades :: rest =>
      let '(seen, last, newTrades) := poll lastSeenIds lastTimestamp trades in
      newTrades ++ pollRun seen last rest
  end.

(** [HybridMonitor]: the loop of the polling callback over [trades], with
    the trades handed to [onTrade]. *)
Fixpoint onRestTrades (seenTrades : list string) (trades : list Trade)
  : list Trade * list string :=
  match trades with
  | [] => ([], seenTrades)
  | trade :: rest =>
      if has seenTrades (keyOfTrade trade) then onRestTrades seenTrades rest
      else
        let '(forwarded, seen) := onRestTrades (add seenTrades (keyOfTrade trade)) rest in
        (trade :: forwarded, seen)
  end.

(** The callback of the socket filter. *)
Definition onWsTrade (seenTrades : list string) (trade : Trade)
  : list Trade * list string :=
  if has seenTrades (keyOfTrade trade) then ([], seenTrades)
  else ([trade], add seenTrades (keyOfTrade trade)).

(** What reaches the hybrid monitor: a batch from the poller or one trade
    from the socket. *)
Inductive Delivery :=
| RestBatch (trades : list Trade)
| WsTrade (trade : Trade).

Fixpoint hybridRun (seenTrades : list string) (deliveries : list Delivery)
  : list Trade * list string :=
  match deliveries with
  | [] => ([], seenTrades)
  | d :: rest =>
      let '(forwarded, seen) :=
        match d with
        | RestBatch trades => onRestTrades seenTrades trades
        | WsTrade trade => onWsTrade seenTrades trade
        end in
      let '(forwarded', seen') := hybridRun seen rest in
      (forwarded ++ forwarded', seen')
  end.

(** The trades offered to the hybrid monitor, in order. *)
Fixpoint offered (deliveries : list Delivery) : list Trade :=
  match deliveries with
  | [] => []
  | RestBatch trades :: rest => trades ++ offered rest
  | WsTrade trade :: rest => trade :: offered rest
  end.

End FastMonitor.

(** ** The trade matcher: the price file of a market *)

Module PriceFile.
Import JsArray Merge.

(** [interface MarketPriceRecord]; field [p_x] is the property [x]. *)
Record MarketPriceRecord := mkPrice {
  p_t : Z;
  p_type : string;
  p_bestBid : option num;
  p_bestAsk : option num;
  p_mid : option num;
  p_spread : option num;
  p_price : option num;
  p_side : option string
}.

(** The [stats] object of a price file. *)
Record PriceStats := mkPriceStats {
  ps_bidMin : option num; ps_bidMax : option num;
  ps_askMin : option num; ps_askMax : option num;
  ps_spreadMin : option num; ps_spreadMax : option num;
  ps_priceMin : option num; ps_priceMax : option num
}.

(** [interface MarketPricesFile]; field [pf_x] is the property [x]. *)
Record MarketPricesFile := mkPricesFile {
  pf_slug : string;
  pf_lastUpdated : string;
  pf_totalEvents : nat;
  pf_firstEventTime : option Z;
  pf_lastEventTime : option Z;
  pf_stats : PriceStats;
  pf_prices : list MarketPriceRecord
}.

(** [`${t}:${type}:${price ?? ''}`], with [showNum] for the text of a
    number that need not be whole. *)
Definition priceKey (showNum : num -> string) (t : Z) (type : string) (price : option num)
  : string :=
  pretty t +:+ ":" +:+ type +:+ ":" +:+ match price with Some x => showNum x | None => "" end.

Definition keyOfPrice (showNum : num -> string) (p : MarketPriceRecord) : string :=
  priceKey showNum (p_t p) (p_type p) (p_price p).

Definition keyOfEvent (showNum : num -> string) (event : EventRecord) : string :=
  priceKey showNum (ev_t event) (ev_type event) (ev_price event).

(** The object literal pushed onto [newPrices]. *)
Definition priceOf (event : EventRecord) : MarketPriceRecord :=
  {| p_t := ev_t event;
     p_type := ev_type event;
     p_bestBid := ev_bestBid event;
     p_bestAsk := ev_bestAsk event;
     p_mid := ev_mid event;
     p_spread := ev_spread event;
     p_price := ev_price event;
     p_side := ev_side event |}.

(** The loop that extracts the new price records; [existingTimes] grows
    with every record pushed. *)
Fixpoint newPrices (showNum : num -> string) (existingTimes : gset string)
    (marketEvents : list EventRecord) : list MarketPriceRecord :=
  match marketEvents with
  | [] => []
  | event :: rest =>
      if decide (ev_src event = market_ws) then
        if decide (keyOfEvent showNum event ∈ existingTimes)
        then newPrices showNum existingTimes rest
        else priceOf event
               :: newPrices showNum ({[keyOfEvent showNum event]} ∪ existingTimes) rest
      else newPrices showNum existingTimes rest
  end.

(** One step of a running minimum that starts at [Infinity], and of a
    running maximum that starts at [-Infinity]; [None] stands for the
    start value, which is reported as [undefined].  Only comparisons are
    made, so the rationals answer as the doubles do.
<<
    if (p.bestBid !== undefined) {
        hasBid = true;
        if (p.bestBid < bidMin) bidMin = p.bestBid;
        if (p.bestBid > bidMax) bidMax = p.bestBid;
    }
>> *)
Definition lower (acc : option num) (x : option num) : option num :=
  match x, acc with
  | None, _ => acc
  | Some v, None => Some v
  | Some v, Some m => if negb (Qle_bool m v) then Some v else Some m
  end.

Definition higher (acc : option num) (x : option num) : option num :=
  match x, acc with
  | None, _ => acc
  | Some v, None => Some v
  | Some v, Some m => if negb (Qle_bool v m) then Some v else Some m
  end.

Definition lowest (field : MarketPriceRecord -> option num) (allPrices : list MarketPriceRecord)
  : option num :=
  foldl (fun acc p => lower acc (field p)) None allPrices.

Definition highest (field : MarketPriceRecord -> option num) (allPrices : list MarketPriceRecord)
  : option num :=
  foldl (fun acc p => higher acc (field p)) None allPrices.

Definition statsOf (allPrices : list MarketPriceRecord) : PriceStats :=
  {| ps_bidMin := lowest p_bestBid allPrices; ps_bidMax := highest p_bestBid allPrices;
     ps_askMin := lowest p_bestAsk allPrices; ps_askMax := highest p_bestAsk allPrices;
     ps_spreadMin := lowest p_spread allPrices; ps_spreadMax := highest p_spread allPrices;
     ps_priceMin := lowest p_price allPrices; ps_priceMax := highest p_price allPrices |}.

(** [buildMarketPricesFromEvents]; [now] is the text of the current time. *)
Definition buildMarketPricesFromEvents (showNum : num -> string) (now : string)
    (marketEvents : list EventRecord) (slugId : string)
    (existingPrices : option MarketPricesFile) : MarketPricesFile :=
  let existing := default [] (pf_prices <$> existingPrices) in
  let existingTimes : gset string := list_to_set (keyOfPrice showNum <$> existing) in
  let allPrices := sortBy p_t (existing ++ newPrices showNum existingTimes marketEvents) in
  {| pf_slug := slugId;
     pf_lastUpdated := now;
     pf_totalEvents := length allPrices;
     pf_firstEventTime := p_t <$> head allPrices;
     pf_lastEventTime := p_t <$> last allPrices;
     pf_stats := statsOf allPrices;
     pf_prices := allPrices |}.

End PriceFile.

(** ** The collector: reconnecting the market socket *)

Module CollectorReconnect.

(** [const MAX_RECONNECT_DELAY_MS = 30000;] *)
Definition MAX_RECONNECT_DELAY_MS : Z := 30000.

(** [const BASE_RECONNECT_DELAY_MS = 1000;] *)
Definition BASE_RECONNECT_DELAY_MS : Z := 1000.

(** What a socket reports to the listeners [connect] has added to it. *)
Inductive SocketEvent := Opened | Closed.

#[global] Instance SocketEvent_eq_dec : EqDecision SocketEvent.
Proof. solve_decision. Defined.

(** One listener run on the socket's [reconnectAttempts].  The second
    component is the delay handed to [setTimeout(() => connect(), delay)],
    if any:
<<
    'open':  reconnectAttempts = 0;
    'close': reconnectAttempts++;
             const delay = Math.min(MAX_RECONNECT_DELAY_MS,
                 BASE_RECONNECT_DELAY_MS * Math.pow(2, reconnectAttempts - 1));
             setTimeout(() => connect(), delay);
>> *)
Definition handle (reconnectAttempts : Z) (e : SocketEvent) : Z * option Z :=
  match e with
  | Opened => (0, None)
  | Closed =>
      let reconnectAttempts := reconnectAttempts + 1 in
      (reconnectAttempts,
       Some (Z.min MAX_RECONNECT_DELAY_MS
                   (BASE_RECONNECT_DELAY_MS * 2 ^ (reconnectAttempts - 1))))
  end.

(** The delays scheduled by the listeners of one socket. *)
Fixpoint socketDelays (reconnectAttempts : Z) (events : list SocketEvent) : list Z :=
  match events with
  | [] => []
  | e :: rest =>
      let '(attempts, scheduled) := handle reconnectAttempts e in
      match scheduled with
      | Some delay => delay :: socketDelays attempts rest
      | None => socketDelays attempts rest
      end
  end.

(** [connect] makes a socket and declares [let reconnectAttempts = 0] for
    it; every scheduled [connect()] does so again.  A run is given by what
    each socket reports, in the order in which the sockets are made. *)
Fixpoint runDelays (sockets : list (list SocketEvent)) : list Z :=
  match sockets with
  | [] => []
  | events :: rest => socketDelays 0 events ++ runDelays rest
  end.

(** A socket reports its close at most once. *)
Definition closesOnce (events : list SocketEvent) : Prop :=
  (length (filter (fun e => e = Closed) events) <= 1)%nat.

End CollectorReconnect.

(** * Properties *)

(** ** The bounded seen-set *)

Module DedupSpec.
Import Dedup.

Lemma elem_of_deleteAll (removed : list string) (s : gset string) (k : string) :
  k ∈ deleteAll removed s <-> k ∈ s /\ k ∉ removed.
Proof.
  unfold deleteAll. revert s.
  induction removed as [|r removed IH]; intros s; simpl.
  - rewrite elem_of_nil. tauto.
  - rewrite IH, elem_of_difference, elem_of_singleton, not_elem_of_cons. tauto.
Qed.

Lemma wf_empty : wf emptyState.
Proof.
  repeat split; simpl.
  - constructor.
  - intros H. set_solver.
  - intros H. set_solver.
  - unfold MAX_SEEN_TX. lia.
Qed.

(** Pruning a duplicate-free store whose set mirrors its order list keeps
    the newest [MAX_SEEN_TX] keys and restores consistency. *)
Lemma pruneSeen_wf (st : PersistedState) :
  NoDup (seenTxOrder st) ->
  (forall k, k ∈ seenTxSet st <-> k ∈ seenTxOrder st) ->
  wf (pruneSeen st).
Proof.
  intros Hnd Hset. unfold pruneSeen.
  case_decide as Hlen.
  - set (n := Z.to_nat (Z.of_nat (length (seenTxOrder st)) - MAX_SEEN_TX)).
    repeat split; simpl.
    + rewrite <- (take_drop n (seenTxOrder st)) in Hnd.
      apply NoDup_app in Hnd. tauto.
    + intros Hk. apply elem_of_deleteAll in Hk as [Hk Hnot].
      apply Hset in Hk.
      rewrite <- (take_drop n (seenTxOrder st)) in Hk.
      apply elem_of_app in Hk. tauto.
    + intros Hk. apply elem_of_deleteAll. split.
      * apply Hset. rewrite <- (take_drop n (seenTxOrder st)).
        apply elem_of_app. tauto.
      * rewrite <- (take_drop n (seenTxOrder st)) in Hnd.
        apply NoDup_app in Hnd as (_ & Hdisj & _).
        intros Hin. exact (Hdisj _ Hin Hk).
    + rewrite length_drop. unfold n. unfold MAX_SEEN_TX in *. lia.
  - repeat split; try tauto; try apply Hset. lia.
Qed.

Lemma remember_fresh (st : PersistedState) (key : string) :
  wf st -> key ∉ seenTxSet st ->
  NoDup (seenTxOrder (remember st key))
  /\ (forall k, k ∈ seenTxSet (remember st key) <-> k ∈ seenTxOrder (remember st key)).
Proof.
  intros (Hnd & Hset & _) Hfresh. simpl. split.
  - apply NoDup_app. split; [exact Hnd|]. split.
    + intros x Hx Hx'. apply list_elem_of_singleton in Hx'. subst x.
      apply Hfresh, Hset, Hx.
    + apply NoDup_singleton.
  - intros k. rewrite elem_of_union, elem_of_singleton, elem_of_app,
      list_elem_of_singleton, Hset. tauto.
Qed.

(** Every state reached through the message handlers is consistent. *)
Lemma checkAndInsert_wf (st : PersistedState) (key : string) :
  wf st -> wf (snd (checkAndInsert st key)).
Proof.
  intros Hwf. unfold checkAndInsert. case_decide as Hin; simpl; [exact Hwf|].
  destruct (remember_fresh st key Hwf Hin) as [Hnd Hset].
  apply pruneSeen_wf; assumption.
Qed.

Lemma deliver_wf (keys : list string) (st : PersistedState) :
  wf st -> wf (deliver st keys).
Proof.
  revert st. induction keys as [|k keys IH]; intros st Hwf; simpl; [exact Hwf|].
  apply IH, checkAndInsert_wf, Hwf.
Qed.

(** A REST batch keeps the store consistent as well. *)
Lemma insertBatch_wf (keys : list string) (st : PersistedState) :
  wf st -> wf (insertBatch st keys).
Proof.
  intros (Hnd & Hset & _). unfold insertBatch.
  assert (Hloop : forall s,
            NoDup (seenTxOrder s) /\ (forall k, k ∈ seenTxSet s <-> k ∈ seenTxOrder s) ->
            let s' := foldl (fun s k => if decide (k ∈ seenTxSet s) then s else remember s k)
                            s keys in
            NoDup (seenTxOrder s') /\ (forall k, k ∈ seenTxSet s' <-> k ∈ seenTxOrder s')).
  { induction keys as [|k keys IH]; intros s Hs; simpl; [exact Hs|].
    apply IH. case_decide as Hin; [exact Hs|].
    destruct Hs as [Hnd' Hset']. simpl. split.
    - apply NoDup_app. split; [exact Hnd'|]. split; [|apply NoDup_singleton].
      intros x Hx Hx'. apply list_elem_of_singleton in Hx'. subst x.
      apply Hin, Hset', Hx.
    - intros k'. rewrite elem_of_union, elem_of_singleton, elem_of_app,
        list_elem_of_singleton, Hset'. tauto. }
  destruct (Hloop st (conj Hnd Hset)) as [Hnd' Hset'].
  apply pruneSeen_wf; assumption.
Qed.

(** A key just accepted is resident: pruning removes from the front of the
    order list, and the new key is its last element. *)
Lemma checkAndInsert_resident (st : PersistedState) (key : string) :
  wf st -> key ∈ seenTxSet (snd (checkAndInsert st key)).
Proof.
  intros Hwf. unfold checkAndInsert. case_decide as Hin; simpl; [exact Hin|].
  destruct (remember_fresh st key Hwf Hin) as [Hnd Hset].
  destruct (pruneSeen_wf _ Hnd Hset) as (_ & Hset' & _).
  apply Hset'. unfold pruneSeen. case_decide as Hlen; simpl.
  - apply list_elem_of_lookup.
    exists (length (seenTxOrder st) - Z.to_nat (Z.of_nat (length (seenTxOrder st ++ [key])) - MAX_SEEN_TX))%nat.
    rewrite lookup_drop.
    rewrite length_app in *. simpl in *.
    replace (_ + _)%nat with (length (seenTxOrder st) + 0)%nat
      by (unfold MAX_SEEN_TX in *; lia).
    rewrite lookup_app_r by lia.
    replace (_ - _)%nat with O by lia. reflexivity.
  - apply elem_of_app. right. apply list_elem_of_singleton. reflexivity.
Qed.

Lemma deliver_snoc (st : PersistedState) (keys : list string) (k : string) :
  deliver st (keys ++ [k]) = snd (checkAndInsert (deliver st keys) k).
Proof. unfold deliver. rewrite foldl_app. reflexivity. Qed.

(** What one accepted insertion does to the order list of a consistent
    store: the key is appended and, if the store was full, the single
    oldest key goes. *)
Lemma checkAndInsert_fresh_order (st : PersistedState) (key : string) :
  wf st -> key ∉ seenTxSet st ->
  seenTxOrder (snd (checkAndInsert st key)) =
    drop (Z.to_nat (Z.of_nat (length (seenTxOrder st)) + 1 - MAX_SEEN_TX))
         (seenTxOrder st ++ [key]).
Proof.
  intros Hwf Hfresh. unfold checkAndInsert.
  case_decide as Hin; [contradiction|]. simpl.
  unfold pruneSeen. simpl. rewrite length_app. simpl.
  case_decide as Hlen; simpl.
  - f_equal. lia.
  - replace (Z.to_nat _) with O by lia. reflexivity.
Qed.

(** Delivering distinct keys to the empty store leaves the newest
    [MAX_SEEN_TX] of them, in delivery order. *)
Lemma deliver_order (keys : list string) :
  NoDup keys ->
  seenTxOrder (deliver emptyState keys) =
    drop (Z.to_nat (Z.of_nat (length keys) - MAX_SEEN_TX)) keys.
Proof.
  induction keys as [|k keys IH] using rev_ind; intros Hnd.
  - reflexivity.
  - apply NoDup_app in Hnd as (Hnd & Hdisj & _).
    specialize (IH Hnd).
    assert (Hwf : wf (deliver emptyState keys)) by apply deliver_wf, wf_empty.
    assert (Hfresh : k ∉ seenTxSet (deliver emptyState keys)).
    { intros Hin. destruct Hwf as (_ & Hset & _). apply Hset in Hin.
      rewrite IH in Hin. apply subseteq_drop in Hin.
      apply (Hdisj _ Hin). apply list_elem_of_singleton. reflexivity. }
    rewrite deliver_snoc, checkAndInsert_fresh_order by assumption.
    rewrite IH, length_drop, length_app. simpl.
    unfold MAX_SEEN_TX in *.
    destruct (decide (Z.of_nat (length keys) < 10000)) as [Hlt|Hge].
    + replace (Z.to_nat (Z.of_nat (length keys) - 10000)) with O by lia.
      rewrite Nat.sub_0_r. simpl.
      replace (Z.to_nat (Z.of_nat (length keys) + 1 - 10000)) with O by lia.
      replace (Z.to_nat (Z.of_nat (length keys + 1) - 10000)) with O by lia.
      reflexivity.
    + rewrite <- (drop_app_le keys [k]) by lia.
      rewrite drop_drop. f_equal. lia.
Qed.

#[local] Instance keyOf_inj : Inj (=) (=) keyOf.
Proof.
  intros a b H. unfold keyOf in H.
  apply (inj (String.app "id:")) in H. apply (inj pretty) in H. exact H.
Qed.

Lemma NoDup_keysFrom (start count : nat) : NoDup (keysFrom start count).
Proof.
  unfold keysFrom. apply (NoDup_fmap_2 keyOf), NoDup_seq.
Qed.

Lemma length_keysFrom (start count : nat) : length (keysFrom start count) = count.
Proof. unfold keysFrom. rewrite length_fmap. apply length_seq. Qed.

(** C3: from a consistent store, a delivery whose key is resident is
    rejected and changes nothing; a key that has just been accepted is
    resident, so delivering the same event twice in a row accepts it exactly
    once and the second delivery is the rejected one. *)
Theorem C3_duplicate_rejected (st : PersistedState) (key : string) :
  wf st ->
  (forall st', key ∈ seenTxSet st' -> checkAndInsert st' key = (false, st'))
  /\ key ∈ seenTxSet (snd (checkAndInsert st key))
  /\ checkAndInsert (snd (checkAndInsert st key)) key
       = (false, snd (checkAndInsert st key))
  /\ (key ∉ seenTxSet st ->
      fst (checkAndInsert st key) = true /\ accepted st [key; key] = 1%nat).
Proof.
  intros Hwf.
  assert (Hrej : forall st', key ∈ seenTxSet st' -> checkAndInsert st' key = (false, st')).
  { intros st' Hin. unfold checkAndInsert. case_decide; [reflexivity|contradiction]. }
  pose proof (checkAndInsert_resident st key Hwf) as Hres.
  repeat split; try assumption.
  - apply Hrej, Hres.
  - unfold checkAndInsert. case_decide; [contradiction|reflexivity].
  - simpl. destruct (checkAndInsert st key) as [ok st1] eqn:E1.
    simpl in Hres. rewrite (Hrej st1 Hres).
    unfold checkAndInsert in E1. case_decide; [contradiction|].
    inversion E1. reflexivity.
Qed.

Lemma C3_duplicate_rejected_witness :
  wf emptyState
  /\ checkAndInsert (snd (checkAndInsert emptyState "id:7")) "id:7"
       = (false, snd (checkAndInsert emptyState "id:7")).
Proof.
  split; [exact wf_empty|].
  exact (proj1 (proj2 (proj2 (C3_duplicate_rejected emptyState "id:7" wf_empty)))).
Defined.

Lemma wf_size (st : PersistedState) :
  wf st -> size (seenTxSet st) = length (seenTxOrder st).
Proof.
  intros (Hnd & Hset & _).
  assert (Heq : seenTxSet st = list_to_set (seenTxOrder st)).
  { apply set_eq. intros k. rewrite elem_of_list_to_set. apply Hset. }
  rewrite Heq. apply size_list_to_set, Hnd.
Qed.

(** One REST batch of distinct keys into the empty store ends in the same
    order list as delivering them one at a time. *)
Lemma insertBatch_order (keys : list string) :
  NoDup keys ->
  seenTxOrder (insertBatch emptyState keys) =
    drop (Z.to_nat (Z.of_nat (length keys) - MAX_SEEN_TX)) keys.
Proof.
  intros Hnd. unfold insertBatch.
  assert (Hloop :
    let st := foldl (fun s k => if decide (k ∈ seenTxSet s) then s else remember s k)
                    emptyState keys in
    seenTxOrder st = keys /\ forall k, k ∈ seenTxSet st <-> k ∈ keys).
  { induction keys as [|k keys IH] using rev_ind.
    - simpl. split; [reflexivity|]. intros k. set_solver.
    - apply NoDup_app in Hnd as (Hnd & Hdisj & _).
      destruct (IH Hnd) as [IHo IHs]. rewrite foldl_app. simpl.
      case_decide as Hin.
      + exfalso. apply IHs in Hin. apply (Hdisj _ Hin).
        apply list_elem_of_singleton. reflexivity.
      + simpl. rewrite IHo. split; [reflexivity|].
        intros k'. rewrite elem_of_union, elem_of_singleton, elem_of_app,
          list_elem_of_singleton, IHs. tauto. }
  simpl in Hloop. destruct Hloop as [Ho Hs].
  unfold pruneSeen. rewrite Ho. case_decide as Hlen; simpl.
  - reflexivity.
  - rewrite Ho. replace (Z.to_nat _) with O by lia. reflexivity.
Qed.

(** C4: fifteen thousand distinct keys delivered one after another to the
    empty store: after every delivery the order list and the set hold at
    most 10,000 keys; at the end the store holds exactly the 10,000 newest
    keys in delivery order, the 5,000 oldest are the ones gone, and one
    batch insertion of the same keys ends in the same order list. *)
Theorem C4_bounded_fifo (keys : list string) :
  NoDup keys ->
  Z.of_nat (length keys) = 15000 ->
  (forall i : nat,
      Z.of_nat (length (seenTxOrder (deliver emptyState (take i keys)))) <= MAX_SEEN_TX
      /\ Z.of_nat (size (seenTxSet (deliver emptyState (take i keys)))) <= MAX_SEEN_TX)
  /\ seenTxOrder (deliver emptyState keys) = drop (Z.to_nat 5000) keys
  /\ Z.of_nat (size (seenTxSet (deliver emptyState keys))) = 10000
  /\ (forall k, k ∈ seenTxSet (deliver emptyState keys) <-> k ∈ drop (Z.to_nat 5000) keys)
  /\ (forall k, k ∈ take (Z.to_nat 5000) keys -> k ∉ seenTxSet (deliver emptyState keys))
  /\ seenTxOrder (insertBatch emptyState keys) = drop (Z.to_nat 5000) keys.
Proof.
  intros Hnd Hlen.
  assert (Hwf : forall l, wf (deliver emptyState l)) by (intros l; apply deliver_wf, wf_empty).
  assert (Hord : seenTxOrder (deliver emptyState keys) = drop (Z.to_nat 5000) keys).
  { rewrite deliver_order by exact Hnd. rewrite Hlen. reflexivity. }
  assert (Hset : forall k, k ∈ seenTxSet (deliver emptyState keys) <-> k ∈ drop (Z.to_nat 5000) keys).
  { intros k. destruct (Hwf keys) as (_ & Hs & _). rewrite Hs, Hord. tauto. }
  split; [|split; [|split; [|split; [|split]]]].
  - intros i. rewrite (wf_size _ (Hwf (take i keys))).
    destruct (Hwf (take i keys)) as (_ & _ & Hb). split; exact Hb.
  - exact Hord.
  - rewrite (wf_size _ (Hwf keys)), Hord, length_drop. lia.
  - exact Hset.
  - intros k Hk Hin. apply Hset in Hin.
    rewrite <- (take_drop (Z.to_nat 5000) keys) in Hnd.
    apply NoDup_app in Hnd as (_ & Hdisj & _). exact (Hdisj _ Hk Hin).
  - rewrite insertBatch_order by exact Hnd. rewrite Hlen. reflexivity.
Qed.

Lemma C4_bounded_fifo_witness :
  NoDup (keysFrom 0 (Z.to_nat 15000))
  /\ seenTxOrder (deliver emptyState (keysFrom 0 (Z.to_nat 15000)))
     = drop (Z.to_nat 5000) (keysFrom 0 (Z.to_nat 15000)).
Proof.
  split; [apply NoDup_keysFrom|].
  refine (proj1 (proj2 (C4_bounded_fifo (keysFrom 0 (Z.to_nat 15000)) _ _))).
  - apply NoDup_keysFrom.
  - rewrite length_keysFrom. apply Z2Nat.id. lia.
Defined.

Lemma fullStore_order : seenTxOrder fullStore = keysFrom 0 (Z.to_nat MAX_SEEN_TX).
Proof.
  unfold fullStore. rewrite deliver_order by apply NoDup_keysFrom.
  rewrite length_keysFrom, Z2Nat.id by (unfold MAX_SEEN_TX; lia).
  rewrite Z.sub_diag. reflexivity.
Qed.

Lemma fullStore_wf : wf fullStore.
Proof. apply deliver_wf, wf_empty. Qed.

Lemma fullStore_fresh : keyOf (Z.to_nat MAX_SEEN_TX) ∉ seenTxSet fullStore.
Proof.
  intros Hin. destruct fullStore_wf as (_ & Hset & _). apply Hset in Hin.
  rewrite fullStore_order in Hin. unfold keysFrom in Hin.
  apply list_elem_of_fmap in Hin as (n & Heq & Hn).
  apply (inj keyOf) in Heq. subst n. apply elem_of_seq in Hn. lia.
Qed.

Lemma fullStore_length : Z.of_nat (length (seenTxOrder fullStore)) = MAX_SEEN_TX.
Proof.
  rewrite fullStore_order, length_keysFrom. apply Z2Nat.id. unfold MAX_SEEN_TX. lia.
Qed.

(** An accepted insertion into a full, consistent store drops the single
    oldest key and appends the new one. *)
Lemma checkAndInsert_full (st : PersistedState) (key : string) :
  wf st ->
  key ∉ seenTxSet st ->
  Z.of_nat (length (seenTxOrder st)) = MAX_SEEN_TX ->
  seenTxOrder (snd (checkAndInsert st key)) = drop 1 (seenTxOrder st ++ [key])
  /\ Z.of_nat (length (seenTxOrder (snd (checkAndInsert st key)))) = MAX_SEEN_TX.
Proof.
  intros Hwf Hfresh Hlen.
  assert (Hord : seenTxOrder (snd (checkAndInsert st key)) = drop 1 (seenTxOrder st ++ [key])).
  { rewrite checkAndInsert_fresh_order by assumption. f_equal. lia. }
  split; [exact Hord|].
  rewrite Hord, length_drop, length_app. simpl.
  unfold MAX_SEEN_TX in *. lia.
Qed.

(** C5, as the code has it: an accepted insertion into a full, consistent
    store evicts exactly the overflow, which is the single oldest key; every
    other resident key stays and the store is full again. *)
Theorem C5_overflow_only (st : PersistedState) (key : string) :
  wf st ->
  key ∉ seenTxSet st ->
  Z.of_nat (length (seenTxOrder st)) = MAX_SEEN_TX ->
  seenTxOrder (snd (checkAndInsert st key)) = drop 1 (seenTxOrder st ++ [key])
  /\ Z.of_nat (length (seenTxOrder (snd (checkAndInsert st key)))) = MAX_SEEN_TX
  /\ (forall k, k ∈ seenTxSet (snd (checkAndInsert st key)) <->
                k ∈ drop 1 (seenTxOrder st ++ [key])).
Proof.
  intros Hwf Hfresh Hlen.
  destruct (checkAndInsert_full st key Hwf Hfresh Hlen) as [Hord Hfull].
  split; [exact Hord|]. split; [exact Hfull|].
  intros k. destruct (checkAndInsert_wf st key Hwf) as (_ & Hset & _).
  rewrite Hset, Hord. tauto.
Qed.

Lemma C5_overflow_only_witness :
  wf fullStore
  /\ seenTxOrder (snd (checkAndInsert fullStore (keyOf (Z.to_nat MAX_SEEN_TX))))
     = drop 1 (seenTxOrder fullStore ++ [keyOf (Z.to_nat MAX_SEEN_TX)]).
Proof.
  split; [exact fullStore_wf|].
  exact (proj1 (C5_overflow_only fullStore (keyOf (Z.to_nat MAX_SEEN_TX))
                 fullStore_wf fullStore_fresh fullStore_length)).
Defined.

(** The eleventh-thousand-and-first key into a full store: had the oldest
    half been evicted, 5,001 keys would be left; the code leaves 10,000. *)
Lemma C5_half_eviction_counterexample :
  ~ evictsOldestHalf fullStore (keyOf (Z.to_nat MAX_SEEN_TX)).
Proof.
  unfold evictsOldestHalf. intros Hhalf.
  pose proof (checkAndInsert_full fullStore (keyOf (Z.to_nat MAX_SEEN_TX))
                fullStore_wf fullStore_fresh fullStore_length) as (_ & Hlen).
  rewrite Hhalf, length_drop, length_app in Hlen.
  pose proof fullStore_length as Hfull.
  revert Hlen Hfull. generalize (seenTxOrder fullStore). intros o Hlen Hfull.
  cbn [length] in Hlen. unfold MAX_SEEN_TX in *.
  assert (Hl : length o = Z.to_nat 10000) by lia.
  rewrite Hl in Hlen. vm_compute in Hlen. discriminate Hlen.
Qed.

End DedupSpec.

(** ** File-name components *)

Module SanitizeSpec.
Import Sanitize.

Lemma dropWhileStart_Forall (P : N -> Prop) p s :
  Forall P s -> Forall P (dropWhileStart p s).
Proof.
  induction 1 as [|c r Hc Hr IH]; simpl; [constructor|].
  destruct (p c); [exact IH|constructor; assumption].
Qed.

Lemma dropWhileEnd_Forall (P : N -> Prop) p s :
  Forall P s -> Forall P (dropWhileEnd p s).
Proof.
  induction 1 as [|c r Hc Hr IH]; simpl; [constructor|].
  destruct (dropWhileEnd p r) as [|d r'].
  - destruct (p c); repeat constructor; assumption.
  - constructor; assumption.
Qed.

Lemma replaceUnsafeRuns_safe b s : Forall (fun c => isSafeChar c = true) (replaceUnsafeRuns b s).
Proof.
  revert b. induction s as [|c r IH]; intros b; simpl; [constructor|].
  destruct (isSafeChar c) eqn:Hc.
  - constructor; [exact Hc|apply IH].
  - destruct b; [apply IH|]. constructor; [reflexivity|apply IH].
Qed.

Lemma dropWhileStart_head p s c : head (dropWhileStart p s) = Some c -> p c = false.
Proof.
  induction s as [|d r IH]; simpl; [discriminate|].
  destruct (p d) eqn:Hd; [exact IH|]. simpl. intros [= <-]. exact Hd.
Qed.

(** The result of [dropWhileEnd] starts like its argument. *)
Lemma dropWhileEnd_head p s c : head (dropWhileEnd p s) = Some c -> head s = Some c.
Proof.
  destruct s as [|d r]; simpl; [discriminate|].
  destruct (dropWhileEnd p r); [destruct (p d)|]; simpl; try discriminate; auto.
Qed.

Lemma dropWhileEnd_last p s c : last (dropWhileEnd p s) = Some c -> p c = false.
Proof.
  induction s as [|d r IH]; simpl; [discriminate|].
  destruct (dropWhileEnd p r) as [|e r'] eqn:E.
  - destruct (p d) eqn:Hd; simpl; [discriminate|]. intros [= <-]. exact Hd.
  - rewrite last_cons. destruct (last (e :: r')) eqn:El.
    + intros [= <-]. apply IH. reflexivity.
    + apply last_None in El. discriminate El.
Qed.

Lemma cleaned_safe input : Forall (fun c => isSafeChar c = true) (cleaned input).
Proof.
  unfold cleaned. apply dropWhileEnd_Forall, dropWhileStart_Forall, replaceUnsafeRuns_safe.
Qed.

Lemma cleaned_head input : head (cleaned input) <> Some underscore.
Proof.
  unfold cleaned. intros H. apply dropWhileEnd_head, dropWhileStart_head in H.
  discriminate H.
Qed.

Lemma cleaned_last input : last (cleaned input) <> Some underscore.
Proof.
  unfold cleaned. intros H. apply dropWhileEnd_last in H. discriminate H.
Qed.

Lemma head_take {A} (n : nat) (l : list A) : (0 < n)%nat -> head (take n l) = head l.
Proof. destruct n; [lia|]. destruct l; reflexivity. Qed.

(** What holds of C10 for every input: the result is never empty, has at
    most 140 code units, uses only characters of the class, never starts
    with an underscore, is ["unknown"] when nothing safe remains, and does
    not end with an underscore when the cleaned string fits into 140 code
    units. *)
Theorem C10_sanitize_wellformed (input : jsstring) :
  sanitizeFileComponent input <> []
  /\ (length (sanitizeFileComponent input) <= 140)%nat
  /\ Forall (fun c => isSafeChar c = true) (sanitizeFileComponent input)
  /\ head (sanitizeFileComponent input) <> Some underscore
  /\ (cleaned input = [] -> sanitizeFileComponent input = unknown)
  /\ ((length (cleaned input) <= 140)%nat ->
      last (sanitizeFileComponent input) <> Some underscore).
Proof.
  unfold sanitizeFileComponent.
  pose proof (cleaned_safe input) as Hsafe.
  pose proof (cleaned_head input) as Hhead.
  pose proof (cleaned_last input) as Hlast.
  destruct (cleaned input) as [|c r] eqn:Hc.
  - repeat split; try (vm_compute; discriminate).
    + vm_compute. lia.
    + vm_compute. repeat constructor.
  - split; [simpl; discriminate|]. split; [rewrite length_take; lia|].
    split; [apply Forall_take, Hsafe|]. split; [rewrite head_take by lia; exact Hhead|].
    split; [discriminate|].
    intros Hlen. rewrite take_ge by exact Hlen. exact Hlast.
Qed.

(** C10 at the cut: [safe.slice(0, 140)] comes after the trailing
    underscores have been stripped, so whenever the cleaned string has an
    underscore as its 140th code unit the result ends with that
    underscore.  The cleaned form of [longInput] is 139 letters, an
    underscore and a letter; it does not end with an underscore, the
    result does. *)
Theorem C10_cut_exposes_underscore :
  (forall input,
     cleaned input !! 139%nat = Some underscore ->
     last (sanitizeFileComponent input) = Some underscore)
  /\ length (cleaned longInput) = 141%nat
  /\ last (cleaned longInput) <> Some underscore
  /\ last (sanitizeFileComponent longInput) = Some underscore.
Proof.
  assert (Hcut : forall input,
            cleaned input !! 139%nat = Some underscore ->
            last (sanitizeFileComponent input) = Some underscore).
  { intros input Hat. unfold sanitizeFileComponent.
    assert (Hlen : (139 < length (cleaned input))%nat).
    { apply lookup_lt_is_Some. eauto. }
    destruct (cleaned input) as [|c r] eqn:Ec; [simpl in Hlen; lia|].
    rewrite last_lookup, length_take, Nat.min_l by lia.
    rewrite lookup_take_lt by lia. exact Hat. }
  split; [exact Hcut|]. split; [vm_compute; reflexivity|].
  split; [apply cleaned_last|].
  apply Hcut. vm_compute. reflexivity.
Qed.

End SanitizeSpec.

(** ** Reconnect delay *)

Module BackoffSpec.
Import Backoff.

Lemma delays_close_run (n j : nat) :
  delays (Z.min (1000 * 2 ^ Z.of_nat j) 30000) (replicate n Close)
  = (fun k : nat => Z.min (1000 * 2 ^ Z.of_nat k) 30000) <$> seq j n.
Proof.
  revert j. induction n as [|n IH]; intros j; [reflexivity|].
  cbn [replicate delays step seq fmap list_fmap]. f_equal.
  rewrite <- IH. f_equal. unfold maxReconnectDelay.
  rewrite Nat2Z.inj_succ, Z.pow_succ_r by lia.
  assert (0 < 2 ^ Z.of_nat j) by (apply Z.pow_pos_nonneg; lia). lia.
Qed.

Lemma step_bounds (d : Z) (e : Event) :
  1000 <= d <= 30000 -> 1000 <= fst (step d e) <= 30000.
Proof. destruct e; simpl; unfold maxReconnectDelay; lia. Qed.

Lemma delays_bounds (events : list Event) (d0 d : Z) :
  1000 <= d0 <= 30000 -> d ∈ delays d0 events -> 1000 <= d <= 30000.
Proof.
  revert d0. induction events as [|e events IH]; intros d0 Hd0 Hin; simpl in Hin.
  - apply elem_of_nil in Hin. contradiction.
  - pose proof (step_bounds d0 e Hd0) as Hstep.
    destruct e; simpl in *.
    + eapply IH; [|exact Hin]. lia.
    + apply elem_of_cons in Hin as [->|Hin]; [lia|]. eapply IH; [|exact Hin]. exact Hstep.
    + apply elem_of_cons in Hin as [->|Hin]; [lia|]. eapply IH; [|exact Hin]. lia.
Qed.

Lemma delays_app (ev1 ev2 : list Event) (d : Z) :
  delays d (ev1 ++ ev2) = delays d ev1 ++ delays (finalDelay d ev1) ev2.
Proof.
  revert d. induction ev1 as [|e ev1 IH]; intros d; [reflexivity|].
  simpl. destruct (step d e) as [d' [x|]] eqn:E; simpl; rewrite IH; reflexivity.
Qed.

(** C8: starting from the base delay, the delays of [n] consecutive closes
    are [min (1000 * 2^k) 30000] for [k = 0 .. n-1], that is 1, 2, 4, 8, 16,
    30, 30 seconds for the first seven; each is the doubled predecessor
    capped at 30 s; along any sequence of events no scheduled delay leaves
    the range 1 s .. 30 s; and an open resets the delay, so the closes that
    follow start again at 1 s. *)
Theorem C8_backoff_sequence :
  (forall n : nat,
      delays initialReconnectDelay (replicate n Close)
      = (fun k : nat => Z.min (1000 * 2 ^ Z.of_nat k) 30000) <$> seq 0 n)
  /\ delays initialReconnectDelay (replicate 7 Close)
     = [1000; 2000; 4000; 8000; 16000; 30000; 30000]
  /\ (forall (n k : nat) (d d' : Z),
        delays initialReconnectDelay (replicate n Close) !! k = Some d ->
        delays initialReconnectDelay (replicate n Close) !! S k = Some d' ->
        d' = Z.min (2 * d) 30000)
  /\ (forall (events : list Event) (d : Z),
        d ∈ delays initialReconnectDelay events -> 1000 <= d <= 30000)
  /\ (forall (events : list Event) (n : nat),
        finalDelay initialReconnectDelay (events ++ [Open]) = 1000
        /\ delays initialReconnectDelay (events ++ [Open] ++ replicate n Close)
           = delays initialReconnectDelay events
             ++ delays initialReconnectDelay (replicate n Close)).
Proof.
  assert (Hrun : forall n : nat,
      delays initialReconnectDelay (replicate n Close)
      = (fun k : nat => Z.min (1000 * 2 ^ Z.of_nat k) 30000) <$> seq 0 n).
  { intros n. exact (delays_close_run n 0). }
  split; [exact Hrun|]. split; [reflexivity|]. split; [|split].
  - intros n k d d'. rewrite Hrun, !list_lookup_fmap.
    intros Hk HSk.
    destruct (seq 0 n !! k) as [a|] eqn:Ea; [|discriminate].
    destruct (seq 0 n !! S k) as [b|] eqn:Eb; [|discriminate].
    apply lookup_seq in Ea as [-> _]. apply lookup_seq in Eb as [-> _].
    simpl in Hk, HSk. injection Hk as <-. injection HSk as <-.
    replace (0 + S k)%nat with (S (0 + k)) by lia.
    rewrite Nat2Z.inj_succ, Z.pow_succ_r by lia.
    assert (0 < 2 ^ Z.of_nat (0 + k)) by (apply Z.pow_pos_nonneg; lia). lia.
  - intros events d. apply delays_bounds. unfold initialReconnectDelay. lia.
  - intros events n.
    assert (Hfin : finalDelay initialReconnectDelay (events ++ [Open]) = 1000).
    { unfold finalDelay. rewrite foldl_app. reflexivity. }
    split; [exact Hfin|].
    rewrite app_assoc, delays_app, Hfin, delays_app. simpl.
    rewrite app_nil_r. reflexivity.
Qed.

End BackoffSpec.

(** ** Arrays *)

Module JsArraySpec.
Import JsArray.

Section SortBy.
Context {A : Type} (key : A -> Z).

Lemma insertBy_perm (x : A) (l : list A) : insertBy key x l ≡ₚ x :: l.
Proof.
  induction l as [|y r IH]; simpl; [reflexivity|].
  destruct (key y <? key x); [|reflexivity].
  rewrite IH. apply Permutation_swap.
Qed.

Lemma sortBy_perm (l : list A) : sortBy key l ≡ₚ l.
Proof.
  induction l as [|x l IH]; simpl; [reflexivity|].
  rewrite insertBy_perm, IH. reflexivity.
Qed.

Lemma insertBy_sorted (x : A) (l : list A) :
  StronglySorted (keyLe key) l -> StronglySorted (keyLe key) (insertBy key x l).
Proof.
  induction 1 as [|y r Hr IH Hy]; simpl.
  - repeat constructor.
  - destruct (key y <? key x) eqn:E.
    + apply Z.ltb_lt in E. constructor; [exact IH|].
      rewrite insertBy_perm. constructor; [unfold keyLe; lia|exact Hy].
    + apply Z.ltb_ge in E. constructor; [constructor; assumption|].
      constructor; [exact E|].
      eapply Forall_impl; [exact Hy|]. unfold keyLe. intros z Hz. lia.
Qed.

Lemma sortBy_sorted (l : list A) : StronglySorted (keyLe key) (sortBy key l).
Proof.
  induction l as [|x l IH]; simpl; [constructor|]. apply insertBy_sorted, IH.
Qed.

(** Sorting a sorted list changes nothing. *)
Lemma sortBy_id (l : list A) : StronglySorted (keyLe key) l -> sortBy key l = l.
Proof.
  induction 1 as [|x l Hl IH Hx]; [reflexivity|].
  simpl. fold (sortBy key l). rewrite IH.
  destruct l as [|y r]; [reflexivity|]. simpl.
  apply Forall_cons in Hx as [Hxy _]. unfold keyLe in Hxy.
  destruct (key y <? key x) eqn:E; [apply Z.ltb_lt in E; lia|reflexivity].
Qed.

Lemma sortBy_idem (l : list A) : sortBy key (sortBy key l) = sortBy key l.
Proof. apply sortBy_id, sortBy_sorted. Qed.

Lemma sortBy_nil_inv (l : list A) : sortBy key l = [] -> l = [].
Proof.
  intros H. apply Permutation_nil_r. rewrite <- H. symmetry. apply sortBy_perm.
Qed.

Lemma length_sortBy (l : list A) : length (sortBy key l) = length l.
Proof. apply Permutation_length, sortBy_perm. Qed.

End SortBy.

End JsArraySpec.

(** ** The trade matcher *)

Module MergeSpec.
Import JsArray JsArraySpec Merge.

(** *** The market-context step *)

Lemma addMarketContext_core W M tr :
  mt_tx (addMarketContext W M tr) = mt_tx tr
  /\ mt_slug (addMarketContext W M tr) = mt_slug tr
  /\ mt_timestamp (addMarketContext W M tr) = mt_timestamp tr
  /\ mt_timestampMs (addMarketContext W M tr) = mt_timestampMs tr
  /\ mt_receivedAtMs (addMarketContext W M tr) = mt_receivedAtMs tr
  /\ mt_rest (addMarketContext W M tr) = mt_rest tr.
Proof.
  unfold addMarketContext. destruct (windowEventsFor W M (mt_timestampMs tr)); simpl; tauto.
Qed.

Lemma addMarketContext_timestampMs W M tr :
  mt_timestampMs (addMarketContext W M tr) = mt_timestampMs tr.
Proof. apply addMarketContext_core. Qed.

(** The step only looks at the trade time: applying it again to its own
    result changes nothing. *)
Lemma addMarketContext_idem W M tr :
  addMarketContext W M (addMarketContext W M tr) = addMarketContext W M tr.
Proof.
  unfold addMarketContext at 1. rewrite addMarketContext_timestampMs.
  unfold addMarketContext.
  destruct (windowEventsFor W M (mt_timestampMs tr)) as [|e l]; reflexivity.
Qed.

(** With no market context to add, the trade is left as it is. *)
Lemma addMarketContext_none W M tr :
  windowEventsFor W M (mt_timestampMs tr) = [] -> addMarketContext W M tr = tr.
Proof. unfold addMarketContext. intros ->. reflexivity. Qed.

(** The raw list of a trade that receives market context: kept up to and
    including [MAX_RAW_EVENTS_PER_TRADE] events, dropped above. *)
Lemma addMarketContext_raw W M tr :
  windowEventsFor W M (mt_timestampMs tr) <> [] ->
  mt_marketEvents (addMarketContext W M tr) =
    if (length (windowEventsFor W M (mt_timestampMs tr)) <=? MAX_RAW_EVENTS_PER_TRADE)%nat
    then Some (rawOf <$> sortBy ev_t (windowEventsFor W M (mt_timestampMs tr)))
    else None.
Proof.
  unfold addMarketContext. intros Hne.
  destruct (windowEventsFor W M (mt_timestampMs tr)) as [|e l] eqn:E; [contradiction|].
  cbn [mt_marketEvents]. rewrite length_sortBy. reflexivity.
Qed.

Lemma windowEventsFor_primary W M T :
  collect (T - W) (T + W) M <> [] -> windowEventsFor W M T = collect (T - W) (T + W) M.
Proof.
  unfold windowEventsFor. intros Hne.
  destruct (collect (T - W) (T + W) M); [contradiction|reflexivity].
Qed.

Lemma elem_of_mergeTradesW W R M E tr :
  tr ∈ mergeTradesW W R M E <->
  exists tr0, tr = addMarketContext W M tr0
              /\ tr0 ∈ mapValues (foldl applyRest (foldl loadExisting [] E) R).
Proof.
  unfold mergeTradesW. rewrite sortBy_perm. apply list_elem_of_fmap.
Qed.

(** *** The window of a trade *)

(** C2, as the code has it: for a trade of the output whose primary window
    (from T - W to T + W, both ends included) holds between one and a
    hundred market-feed events, the retained raw list is made of exactly
    those events, in ascending order of time. *)
Theorem C2_primary_window (W : Z) (restEvents marketEvents : list EventRecord)
    (existingMerged : list MergedTrade) (trade : MergedTrade) :
  trade ∈ mergeTradesW W restEvents marketEvents existingMerged ->
  collect (mt_timestampMs trade - W) (mt_timestampMs trade + W) marketEvents <> [] ->
  (length (collect (mt_timestampMs trade - W) (mt_timestampMs trade + W) marketEvents)
   <= 100)%nat ->
  exists windowEvents : list EventRecord,
    mt_marketEvents trade = Some (rawOf <$> windowEvents)
    /\ windowEvents
       = sortBy ev_t (collect (mt_timestampMs trade - W) (mt_timestampMs trade + W)
                              marketEvents)
    /\ windowEvents ≡ₚ
       filter (fun e => ev_src e = market_ws
                        /\ mt_timestampMs trade - W <= ev_t e
                        /\ ev_t e <= mt_timestampMs trade + W) marketEvents
    /\ StronglySorted (keyLe ev_t) windowEvents
    /\ StronglySorted (keyLe raw_t) (rawOf <$> windowEvents)
    /\ (forall e, e ∈ windowEvents <->
                  e ∈ marketEvents /\ ev_src e = market_ws
                  /\ mt_timestampMs trade - W <= ev_t e <= mt_timestampMs trade + W).
Proof.
  intros Hin Hne Hlen.
  apply elem_of_mergeTradesW in Hin as (tr0 & -> & _).
  rewrite addMarketContext_timestampMs in *.
  set (T := mt_timestampMs tr0) in *.
  exists (sortBy ev_t (collect (T - W) (T + W) marketEvents)).
  pose proof (windowEventsFor_primary W marketEvents T Hne) as Hprim.
  split; [|split; [reflexivity|split; [apply sortBy_perm|split; [apply sortBy_sorted|split]]]].
  - rewrite addMarketContext_raw; fold T; rewrite Hprim; [|exact Hne].
    unfold MAX_RAW_EVENTS_PER_TRADE.
    destruct (Nat.leb_spec (length (collect (T - W) (T + W) marketEvents)) 100);
      [reflexivity|lia].
  - pose proof (sortBy_sorted ev_t (collect (T - W) (T + W) marketEvents)) as Hs.
    induction Hs as [|x l Hl IH Hx]; [constructor|].
    rewrite fmap_cons. constructor; [exact IH|].
    apply Forall_fmap. eapply Forall_impl; [exact Hx|]. intros y Hy. exact Hy.
  - intros e. rewrite sortBy_perm. unfold collect.
    rewrite list_elem_of_filter. unfold inWindow. tauto.
Qed.

(** The specification's example: a trade at t = 1000 with W = 5 and
    snapshots delivered at 1002, 997, 2000 and 999. *)
Lemma C2_primary_window_witness :
  collect (1000 - 5) (1000 + 5)
    [snapshotAt 1002; snapshotAt 997; snapshotAt 2000; snapshotAt 999] <> []
  /\ rawTimes <$>
       mergeTradesW 5 [restTradeAt "0xabc" 1000]
         [snapshotAt 1002; snapshotAt 997; snapshotAt 2000; snapshotAt 999] []
     = [Some [997; 999; 1002]].
Proof.
  pose (M := [snapshotAt 1002; snapshotAt 997; snapshotAt 2000; snapshotAt 999]).
  pose (out := mergeTradesW 5 [restTradeAt "0xabc" 1000] M []).
  assert (Hout : exists tr, out = [tr] /\ mt_timestampMs tr = 1000).
  { eexists. split; vm_compute; reflexivity. }
  destruct Hout as (tr & Hout & HT).
  assert (Hin : tr ∈ mergeTradesW 5 [restTradeAt "0xabc" 1000] M []).
  { fold out. rewrite Hout. apply list_elem_of_singleton. reflexivity. }
  assert (Hne : collect (mt_timestampMs tr - 5) (mt_timestampMs tr + 5) M <> []).
  { rewrite HT. vm_compute. discriminate. }
  assert (Hlen : (length (collect (mt_timestampMs tr - 5) (mt_timestampMs tr + 5) M)
                  <= 100)%nat).
  { rewrite HT. vm_compute. lia. }
  split; [rewrite HT in Hne; exact Hne|].
  destruct (C2_primary_window 5 [restTradeAt "0xabc" 1000] M [] tr Hin Hne Hlen)
    as (windowEvents & Hraw & Hsorted & _).
  fold M. fold out. rewrite Hout. cbn [fmap list_fmap]. unfold rawTimes.
  rewrite Hraw, Hsorted, HT. vm_compute. reflexivity.
Defined.

(** A trade at t = 1000 ms and a single snapshot nine seconds later, with
    the default window of three seconds: the primary window holds no
    snapshot, yet the retained raw list holds the snapshot at t = 10000. *)
Lemma C2_fallback_counterexample :
  collect (1000 - MARKET_WINDOW_MS) (1000 + MARKET_WINDOW_MS) [snapshotAt 10000] = []
  /\ (fun tr => (mt_timestampMs tr, rawTimes tr))
       <$> mergeTrades [restTradeAt "0xabc" 1000] [snapshotAt 10000] []
     = [(1000, Some [10000])].
Proof. split; vm_compute; reflexivity. Qed.

(** *** The fallback for trades with an empty primary window *)

Lemma closest_inv (T : Z) (M : list EventRecord) : closestInv T M (closest T M).
Proof.
  unfold closest. induction M as [|e M IH] using rev_ind.
  - simpl. intros e He. apply elem_of_nil in He. contradiction.
  - rewrite foldl_app. simpl. unfold closestStep at 1.
    destruct (foldl (closestStep T) None M) as [[c d]|]; simpl in IH.
    + destruct IH as (Hc & Hsrc & Hd & Hmin).
      case_decide as Hws.
      * destruct (Z.ltb_spec (Z.abs (ev_t e - T)) d) as [Hlt|Hge]; simpl.
        -- split; [apply elem_of_app; right; apply list_elem_of_singleton; reflexivity|].
           split; [exact Hws|]. split; [reflexivity|].
           intros e' He' Hs'. apply elem_of_app in He' as [He'|He'].
           ++ specialize (Hmin e' He' Hs'). lia.
           ++ apply list_elem_of_singleton in He'. subst e'. lia.
        -- split; [apply elem_of_app; left; exact Hc|]. split; [exact Hsrc|].
           split; [exact Hd|].
           intros e' He' Hs'. apply elem_of_app in He' as [He'|He'].
           ++ exact (Hmin e' He' Hs').
           ++ apply list_elem_of_singleton in He'. subst e'. lia.
      * simpl. split; [apply elem_of_app; left; exact Hc|]. split; [exact Hsrc|].
        split; [exact Hd|].
        intros e' He' Hs'. apply elem_of_app in He' as [He'|He'].
        -- exact (Hmin e' He' Hs').
        -- apply list_elem_of_singleton in He'. subst e'. contradiction.
    + case_decide as Hws; simpl.
      * split; [apply elem_of_app; right; apply list_elem_of_singleton; reflexivity|].
        split; [exact Hws|]. split; [reflexivity|].
        intros e' He' Hs'. apply elem_of_app in He' as [He'|He'].
        -- exfalso. exact (IH e' He' Hs').
        -- apply list_elem_of_singleton in He'. subst e'. lia.
      * intros e' He'. apply elem_of_app in He' as [He'|He'].
        -- exact (IH e' He').
        -- apply list_elem_of_singleton in He'. subst e'. exact Hws.
Qed.


Lemma mapSet_values_Forall (P : MergedTrade -> Prop) k v m :
  P v -> Forall P (mapValues m) -> Forall P (mapValues (mapSet k v m)).
Proof.
  intros Hv. unfold mapValues. induction m as [|[k' v'] m IH]; simpl; intros Hm.
  - repeat constructor. exact Hv.
  - apply Forall_cons in Hm as [Hv' Hm].
    destruct (String.eqb k k'); simpl; constructor; auto.
Qed.

Lemma mapGet_values k m v : mapGet k m = Some v -> v ∈ mapValues m.
Proof.
  unfold mapValues. induction m as [|[k' v'] m IH]; simpl; [discriminate|].
  destruct (String.eqb k k').
  - intros [= <-]. apply elem_of_cons. left. reflexivity.
  - intros H. apply elem_of_cons. right. exact (IH H).
Qed.

(** *** The raw-list cap *)

(** C7 at the cap: a trade with exactly 100 snapshots in its window keeps
    the raw list ([<=] in the source); with 101 the list is dropped. *)
Theorem C7_raw_list_kept_at_cap :
  rawCount <$> mergeTrades [restTradeAt "0xabc" 1000] (snapshotAt <$> seqZ 1000 100) []
  = [Some 100%nat]
  /\ rawCount <$> mergeTrades [restTradeAt "0xabc" 1000] (snapshotAt <$> seqZ 1000 101) []
     = [None]
  /\ (forall W M tr,
        length (windowEventsFor W M (mt_timestampMs tr)) = MAX_RAW_EVENTS_PER_TRADE ->
        exists raw, mt_marketEvents (addMarketContext W M tr) = Some raw
                    /\ length raw = MAX_RAW_EVENTS_PER_TRADE).
Proof.
  split; [vm_compute; reflexivity|]. split; [vm_compute; reflexivity|].
  intros W M tr Hlen.
  rewrite addMarketContext_raw.
  - rewrite Hlen, Nat.leb_refl. eexists. split; [reflexivity|].
    rewrite length_fmap, length_sortBy. exact Hlen.
  - intros Hnil. rewrite Hnil in Hlen. discriminate Hlen.
Qed.

(** *** Re-running the merge on its own output *)

Lemma stepTimestampMs_inv (a b w t : Z) :
  sameOrKept a b w -> sameOrKept (stepTimestampMs a t) (stepTimestampMs b t) w.
Proof.
  unfold sameOrKept, stepTimestampMs, orTime.
  intros [->|(-> & Hw & Ha)]; [left; reflexivity|].
  destruct (Z.eqb_spec w 0) as [|_]; [contradiction|].
  destruct (Z.eqb_spec a 0) as [->|Hna]; lia.
Qed.

Lemma foldl_stepTimestampMs_inv (ts : list Z) (a b w : Z) :
  sameOrKept a b w ->
  sameOrKept (foldl stepTimestampMs a ts) (foldl stepTimestampMs b ts) w.
Proof.
  revert a b. induction ts as [|t ts IH]; intros a b H; simpl; [exact H|].
  apply IH, stepTimestampMs_inv, H.
Qed.

(** A run either forgets where it started or still sits at its start. *)
Lemma foldl_stepTimestampMs_cases (ts : list Z) (w : Z) :
  foldl stepTimestampMs w ts = foldl stepTimestampMs 0 ts
  \/ foldl stepTimestampMs w ts = w.
Proof.
  assert (H0 : sameOrKept 0 w w).
  { unfold sameOrKept. destruct (Z.eq_dec w 0); [left; assumption|right; tauto]. }
  destruct (foldl_stepTimestampMs_inv ts 0 w w H0) as [H|(H & _)]; [left|right]; exact H.
Qed.

(** The [timestampMs] a run ends in is a fixed point of the run. *)
Lemma foldl_stepTimestampMs_fix (ts : list Z) (x : Z) :
  foldl stepTimestampMs (foldl stepTimestampMs x ts) ts = foldl stepTimestampMs x ts.
Proof.
  destruct (foldl_stepTimestampMs_cases ts x) as [H|H].
  - rewrite H.
    destruct (foldl_stepTimestampMs_cases ts (foldl stepTimestampMs 0 ts)) as [H'|H'];
      exact H'.
  - rewrite H. exact H.
Qed.

Lemma foldl_min_lb (ts : list Z) (x : Z) :
  foldl Z.min x ts <= x /\ Forall (fun t => foldl Z.min x ts <= t) ts.
Proof.
  revert x. induction ts as [|t ts IH]; intros x; simpl; [split; [lia|constructor]|].
  destruct (IH (Z.min x t)) as [H1 H2]. split; [lia|].
  constructor; [lia|exact H2].
Qed.

Lemma foldl_max_ub (ts : list Z) (x : Z) :
  x <= foldl Z.max x ts /\ Forall (fun t => t <= foldl Z.max x ts) ts.
Proof.
  revert x. induction ts as [|t ts IH]; intros x; simpl; [split; [lia|constructor]|].
  destruct (IH (Z.max x t)) as [H1 H2]. split; [lia|].
  constructor; [lia|exact H2].
Qed.

Lemma MergedTrade_eq (a b : MergedTrade) :
  mt_tx a = mt_tx b -> mt_slug a = mt_slug b -> mt_timestamp a = mt_timestamp b ->
  mt_timestampMs a = mt_timestampMs b -> mt_receivedAtMs a = mt_receivedAtMs b ->
  mt_rest a = mt_rest b -> mt_marketSummary a = mt_marketSummary b ->
  mt_marketEvents a = mt_marketEvents b -> a = b.
Proof. destruct a, b; simpl; intros; subst; reflexivity. Qed.

(** The fields of a trade after a series of updates. *)
Lemma foldl_updateExisting_fields (es : list EventRecord) (tr : MergedTrade) :
  let tr' := foldl updateExisting tr es in
  mt_tx tr' = mt_tx tr /\ mt_slug tr' = mt_slug tr
  /\ mt_marketSummary tr' = mt_marketSummary tr
  /\ mt_marketEvents tr' = mt_marketEvents tr
  /\ mt_timestamp tr' = foldl Z.min (mt_timestamp tr) (ev_t <$> es)
  /\ mt_receivedAtMs tr' = foldl Z.max (mt_receivedAtMs tr) (ev_recv <$> es)
  /\ mt_timestampMs tr' = foldl stepTimestampMs (mt_timestampMs tr) (ev_t <$> es)
  /\ mt_rest tr' = match last es with Some e => Some (restOf e) | None => mt_rest tr end.
Proof.
  revert tr. induction es as [|e es IH]; intros tr; [simpl; tauto|].
  simpl. destruct (IH (updateExisting tr e)) as (H1 & H2 & H3 & H4 & H5 & H6 & H7 & H8).
  rewrite H1, H2, H3, H4, H5, H6, H7, H8. simpl.
  repeat split; try reflexivity.
  destruct es as [|e' es']; [reflexivity|].
  change (last (e :: e' :: es')) with (last (e' :: es')).
  destruct (last (e' :: es')) eqn:El; [reflexivity|].
  apply last_None in El. discriminate El.
Qed.

(** A settled trade is a fixed point of the updates. *)
Lemma settled_fix (es : list EventRecord) (tr : MergedTrade) :
  settled tr es -> foldl updateExisting tr es = tr.
Proof.
  intros (Hts & Hrecv & Hms & Hrest).
  destruct (foldl_updateExisting_fields es tr) as (H1 & H2 & H3 & H4 & H5 & H6 & H7 & H8).
  apply MergedTrade_eq; try assumption.
  - rewrite H5. clear -Hts. revert Hts. generalize (mt_timestamp tr) as x.
    induction es as [|e es IH]; intros x Hts; simpl; [reflexivity|].
    apply Forall_cons in Hts as [He Hts]. replace (Z.min x (ev_t e)) with x by lia.
    apply IH, Hts.
  - rewrite H7. exact Hms.
  - rewrite H6. clear -Hrecv. revert Hrecv. generalize (mt_receivedAtMs tr) as x.
    induction es as [|e es IH]; intros x Hr; simpl; [reflexivity|].
    apply Forall_cons in Hr as [He Hr]. replace (Z.max x (ev_recv e)) with x by lia.
    apply IH, Hr.
  - rewrite H8. destruct (last es) as [e|] eqn:El; [|reflexivity].
    symmetry. apply Hrest. reflexivity.
Qed.

(** Being settled does not depend on the market context of the trade. *)
Lemma settled_addMarketContext W M es tr :
  settled tr es -> settled (addMarketContext W M tr) es.
Proof.
  unfold settled. destruct (addMarketContext_core W M tr) as (_ & _ & -> & -> & -> & ->).
  tauto.
Qed.

(** After its updates a trade is settled. *)
Lemma settled_after_updates (es : list EventRecord) (tr : MergedTrade) :
  settled (foldl updateExisting tr es) es.
Proof.
  destruct (foldl_updateExisting_fields es tr) as (_ & _ & _ & _ & H5 & H6 & H7 & H8).
  unfold settled. rewrite H5, H6, H7, H8.
  split; [|split; [|split]].
  - destruct (foldl_min_lb (ev_t <$> es) (mt_timestamp tr)) as [_ H].
    rewrite Forall_fmap in H. exact H.
  - destruct (foldl_max_ub (ev_recv <$> es) (mt_receivedAtMs tr)) as [_ H].
    rewrite Forall_fmap in H. exact H.
  - apply foldl_stepTimestampMs_fix.
  - intros e ->. reflexivity.
Qed.

(** So is a trade created from the first event of its key and updated with
    the others. *)
Lemma settled_after_create (tx : string) (e : EventRecord) (es : list EventRecord) :
  settled (foldl updateExisting (createNew tx e) es) (e :: es).
Proof.
  destruct (foldl_updateExisting_fields es (createNew tx e))
    as (_ & _ & _ & _ & H5 & H6 & H7 & H8).
  unfold settled. rewrite H5, H6, H7, H8. cbn [createNew mt_timestamp mt_receivedAtMs
    mt_timestampMs mt_rest].
  split; [|split; [|split]].
  - destruct (foldl_min_lb (ev_t <$> es) (ev_t e)) as [H0 H].
    constructor; [exact H0|]. rewrite Forall_fmap in H. exact H.
  - destruct (foldl_max_ub (ev_recv <$> es) (ev_recv e)) as [H0 H].
    constructor; [exact H0|]. rewrite Forall_fmap in H. exact H.
  - assert (Hstart : foldl stepTimestampMs (ev_t e) (ev_t <$> es)
                     = foldl stepTimestampMs 0 (ev_t <$> e :: es)).
    { rewrite fmap_cons. simpl. f_equal.
      unfold stepTimestampMs, orTime. simpl. lia. }
    rewrite Hstart. apply foldl_stepTimestampMs_fix.
  - intros e'. destruct es as [|e1 es']; simpl.
    + intros [= <-]. reflexivity.
    + change (last (e :: e1 :: es')) with (last (e1 :: es')).
      intros ->. reflexivity.
Qed.

(** *** The insertion-ordered map *)

Lemma mapGet_None k m : mapGet k m = None <-> k ∉ mapKeys m.
Proof.
  unfold mapKeys. induction m as [|[k' v'] m IH]; simpl.
  - split; [intros _ H; apply elem_of_nil in H; contradiction|reflexivity].
  - rewrite not_elem_of_cons. destruct (String.eqb_spec k k') as [->|Hne].
    + split; [discriminate|]. intros [H _]. contradiction.
    + rewrite IH. tauto.
Qed.

Lemma mapGet_Some_elem k m v : mapGet k m = Some v -> (k, v) ∈ m.
Proof.
  induction m as [|[k' v'] m IH]; simpl; [discriminate|].
  destruct (String.eqb_spec k k') as [->|Hne].
  - intros [= <-]. apply elem_of_cons. left. reflexivity.
  - intros H. apply elem_of_cons. right. exact (IH H).
Qed.

Lemma elem_mapGet k v m : NoDup (mapKeys m) -> (k, v) ∈ m -> mapGet k m = Some v.
Proof.
  unfold mapKeys. induction m as [|[k' v'] m IH]; simpl; intros Hnd Hin.
  - apply elem_of_nil in Hin. contradiction.
  - apply NoDup_cons in Hnd as [Hk' Hnd].
    apply elem_of_cons in Hin as [[= -> ->]|Hin].
    + rewrite String.eqb_refl. reflexivity.
    + destruct (String.eqb_spec k k') as [->|Hne]; [|exact (IH Hnd Hin)].
      exfalso. apply Hk'. apply list_elem_of_fmap. exists (k', v). split; [reflexivity|exact Hin].
Qed.

Lemma mapGet_mapSet k' k v m :
  mapGet k' (mapSet k v m) = if String.eqb k' k then Some v else mapGet k' m.
Proof.
  induction m as [|[k0 v0] m IH]; simpl; [reflexivity|].
  destruct (String.eqb_spec k k0) as [->|Hne]; simpl.
  - destruct (String.eqb_spec k' k0); reflexivity.
  - rewrite IH. destruct (String.eqb_spec k' k0) as [->|Hne'].
    + destruct (String.eqb_spec k0 k) as [->|_]; [contradiction|reflexivity].
    + reflexivity.
Qed.

Lemma mapSet_absent k v m : mapGet k m = None -> mapSet k v m = m ++ [(k, v)].
Proof.
  induction m as [|[k0 v0] m IH]; simpl; [reflexivity|].
  destruct (String.eqb_spec k k0) as [->|Hne]; [discriminate|].
  intros H. rewrite (IH H). reflexivity.
Qed.

Lemma mapKeys_mapSet_present k v m :
  k ∈ mapKeys m -> mapKeys (mapSet k v m) = mapKeys m.
Proof.
  unfold mapKeys. induction m as [|[k0 v0] m IH]; simpl; intros Hin.
  - apply elem_of_nil in Hin. contradiction.
  - destruct (String.eqb_spec k k0) as [->|Hne]; simpl; [reflexivity|].
    apply elem_of_cons in Hin as [->|Hin]; [contradiction|].
    f_equal. exact (IH Hin).
Qed.

Lemma mapSet_Forall (P : string * MergedTrade -> Prop) k v m :
  P (k, v) -> Forall P m -> Forall P (mapSet k v m).
Proof.
  intros Hv. induction m as [|[k0 v0] m IH]; simpl; intros Hm.
  - repeat constructor. exact Hv.
  - apply Forall_cons in Hm as [H0 Hm].
    destruct (String.eqb k k0); constructor; auto.
Qed.

Lemma mapOk_mapSet k v m :
  mapOk m -> k = toLowerCase (mt_tx v) -> mt_tx v <> "" -> mapOk (mapSet k v m).
Proof.
  intros [Hnd Hall] Hk Hv. split.
  - destruct (mapGet k m) as [v0|] eqn:G.
    + rewrite mapKeys_mapSet_present; [exact Hnd|].
      apply mapGet_Some_elem in G. apply list_elem_of_fmap. exists (k, v0). split; [reflexivity|exact G].
    + rewrite (mapSet_absent _ _ _ G). unfold mapKeys. rewrite fmap_app. simpl.
      apply NoDup_app. split; [exact Hnd|]. split; [|apply NoDup_singleton].
      intros x Hx Hx'. apply list_elem_of_singleton in Hx'. subst x.
      apply mapGet_None in G. exact (G Hx).
  - apply mapSet_Forall; [simpl; tauto|exact Hall].
Qed.

(** Two maps with the same key order and the same lookups are equal. *)
Lemma TradeMap_eq (m m' : TradeMap) :
  NoDup (mapKeys m) -> mapKeys m = mapKeys m' ->
  (forall k, mapGet k m = mapGet k m') -> m = m'.
Proof.
  revert m'. induction m as [|[k v] m IH]; intros [|[k' v'] m'] Hnd Hkeys Hget;
    try discriminate Hkeys; [reflexivity|].
  simpl in Hkeys. injection Hkeys as <- Hkeys.
  apply NoDup_cons in Hnd as [Hk Hnd].
  pose proof (Hget k) as Hv. simpl in Hv. rewrite String.eqb_refl in Hv.
  injection Hv as <-. f_equal. apply IH; [exact Hnd|exact Hkeys|].
  intros k2. specialize (Hget k2). simpl in Hget.
  destruct (String.eqb_spec k2 k) as [Heq|Hne]; [subst k2|exact Hget].
  assert (H1 : mapGet k m = None) by (apply mapGet_None; exact Hk).
  assert (H2 : mapGet k m' = None).
  { apply mapGet_None. unfold mapKeys in *. rewrite <- Hkeys. exact Hk. }
  rewrite H1, H2. reflexivity.
Qed.

(** *** The first two loops *)

Lemma restTx_nonempty e tx : restTx e = Some tx -> tx <> "".
Proof.
  unfold restTx. destruct (ev_src e); try discriminate.
  destruct (ev_tx e) as [t|]; [|discriminate].
  destruct (String.eqb_spec t ""); [discriminate|]. intros [= <-]. assumption.
Qed.

Lemma mapOk_loadExisting m tr : mapOk m -> mapOk (loadExisting m tr).
Proof.
  intros Hok. unfold loadExisting.
  destruct (String.eqb_spec (mt_tx tr) "") as [|Hne]; [exact Hok|].
  destruct (mapGet (toLowerCase (mt_tx tr)) m) as [ex|].
  - destruct (mt_timestampMs tr <? mt_timestampMs ex); [|exact Hok].
    apply mapOk_mapSet; auto.
  - apply mapOk_mapSet; auto.
Qed.

Lemma mapOk_applyRest m e : mapOk m -> mapOk (applyRest m e).
Proof.
  intros Hok. unfold applyRest. destruct (restTx e) as [tx|] eqn:Etx; [|exact Hok].
  pose proof (restTx_nonempty _ _ Etx) as Hne.
  destruct (mapGet (toLowerCase tx) m) as [ex|] eqn:G.
  - apply mapGet_Some_elem in G. destruct Hok as [Hnd Hall].
    pose proof Hall as Hall'. rewrite Forall_forall in Hall'.
    destruct (Hall' _ G) as [Hk Hex]. simpl in Hk, Hex.
    apply mapOk_mapSet; [split; assumption|exact Hk|exact Hex].
  - apply mapOk_mapSet; [exact Hok|reflexivity|exact Hne].
Qed.

Lemma mapOk_foldl {B} (f : TradeMap -> B -> TradeMap) (l : list B) (m : TradeMap) :
  (forall m x, mapOk m -> mapOk (f m x)) -> mapOk m -> mapOk (foldl f m l).
Proof.
  intros Hf. revert m. induction l as [|x l IH]; intros m Hm; simpl; [exact Hm|].
  apply IH, Hf, Hm.
Qed.

Lemma mapOk_nil : mapOk [].
Proof. split; constructor. Qed.

(** Loading trades whose keys are new and pairwise distinct appends them
    in order. *)
Lemma foldl_loadExisting_fresh (l : list MergedTrade) (m : TradeMap) :
  NoDup (mapKeys m ++ mapKeys (keyed <$> l)) ->
  Forall (fun tr => mt_tx tr <> "") l ->
  foldl loadExisting m l = m ++ (keyed <$> l).
Proof.
  revert m. induction l as [|tr l IH]; intros m Hnd Hne; simpl.
  - rewrite app_nil_r. reflexivity.
  - apply Forall_cons in Hne as [Htr Hne].
    assert (Hfresh : mapGet (toLowerCase (mt_tx tr)) m = None).
    { apply mapGet_None. intros Hin. apply NoDup_app in Hnd as (_ & Hdisj & _).
      apply (Hdisj _ Hin). simpl. apply elem_of_cons. left. reflexivity. }
    assert (Hstep : loadExisting m tr = m ++ [keyed tr]).
    { unfold loadExisting. destruct (String.eqb_spec (mt_tx tr) ""); [contradiction|].
      rewrite Hfresh. apply mapSet_absent, Hfresh. }
    rewrite Hstep, IH; [rewrite <- app_assoc; reflexivity| |exact Hne].
    unfold mapKeys in *. rewrite fmap_app. simpl in *. rewrite <- app_assoc. exact Hnd.
Qed.

Lemma mapGet_applyRest k m e : mapGet k (applyRest m e) = perKey k (mapGet k m) e.
Proof.
  unfold applyRest, perKey. destruct (restTx e) as [tx|]; [|reflexivity].
  destruct (String.eqb_spec (toLowerCase tx) k) as [<-|Hne].
  - destruct (mapGet (toLowerCase tx) m); rewrite mapGet_mapSet, String.eqb_refl; reflexivity.
  - destruct (mapGet (toLowerCase tx) m); rewrite mapGet_mapSet;
      destruct (String.eqb_spec k (toLowerCase tx)); congruence.
Qed.

Lemma mapGet_foldl_applyRest k (R : list EventRecord) m :
  mapGet k (foldl applyRest m R) = foldl (perKey k) (mapGet k m) R.
Proof.
  revert m. induction R as [|e R IH]; intros m; simpl; [reflexivity|].
  rewrite IH, mapGet_applyRest. reflexivity.
Qed.

Lemma mapKeys_applyRest_incl m e k : k ∈ mapKeys m -> k ∈ mapKeys (applyRest m e).
Proof.
  intros Hin. unfold applyRest. destruct (restTx e) as [tx|]; [|exact Hin].
  destruct (mapGet (toLowerCase tx) m) as [ex|] eqn:G.
  - rewrite mapKeys_mapSet_present; [exact Hin|].
    apply mapGet_Some_elem in G. apply list_elem_of_fmap. exists (toLowerCase tx, ex). split; [reflexivity|exact G].
  - rewrite (mapSet_absent _ _ _ G). unfold mapKeys in *. rewrite fmap_app.
    apply elem_of_app. left. exact Hin.
Qed.

Lemma mapKeys_applyRest_key m e k : eventKey e = Some k -> k ∈ mapKeys (applyRest m e).
Proof.
  unfold eventKey, applyRest. destruct (restTx e) as [tx|]; [|discriminate].
  intros [= <-]. destruct (mapGet (toLowerCase tx) m) as [ex|] eqn:G.
  - rewrite mapKeys_mapSet_present;
      apply mapGet_Some_elem in G; apply list_elem_of_fmap; exists (toLowerCase tx, ex);
      (split; [reflexivity|exact G]).
  - rewrite (mapSet_absent _ _ _ G). unfold mapKeys. rewrite fmap_app.
    apply elem_of_app. right. simpl. apply list_elem_of_singleton. reflexivity.
Qed.

(** After the second loop every filed event finds its key in the map. *)
Lemma mapKeys_foldl_applyRest (R : list EventRecord) m e k :
  e ∈ R -> eventKey e = Some k -> k ∈ mapKeys (foldl applyRest m R).
Proof.
  intros Hin Hk. induction R as [|e' R IH] using rev_ind.
  - apply elem_of_nil in Hin. contradiction.
  - rewrite foldl_app. simpl. apply elem_of_app in Hin as [Hin|Hin].
    + apply mapKeys_applyRest_incl, IH, Hin.
    + apply list_elem_of_singleton in Hin. subst e'. apply mapKeys_applyRest_key, Hk.
Qed.

(** When every filed event finds its key, the key order stays. *)
Lemma mapKeys_foldl_applyRest_present (R : list EventRecord) m :
  (forall e k, e ∈ R -> eventKey e = Some k -> k ∈ mapKeys m) ->
  mapKeys (foldl applyRest m R) = mapKeys m.
Proof.
  revert m. induction R as [|e R IH]; intros m Hall; simpl; [reflexivity|].
  assert (Hstep : mapKeys (applyRest m e) = mapKeys m).
  { unfold applyRest. destruct (restTx e) as [tx|] eqn:Etx; [|reflexivity].
    assert (Hin : toLowerCase tx ∈ mapKeys m).
    { apply (Hall e); [apply elem_of_cons; left; reflexivity|].
      unfold eventKey. rewrite Etx. reflexivity. }
    destruct (mapGet (toLowerCase tx) m); apply mapKeys_mapSet_present, Hin. }
  rewrite IH; [exact Hstep|].
  intros e' k Hin Hk. rewrite Hstep. apply (Hall e'); [|exact Hk].
  apply elem_of_cons. right. exact Hin.
Qed.

Lemma perKey_fold_some k (R : list EventRecord) tr :
  foldl (perKey k) (Some tr) R = Some (foldl updateExisting tr (eventsFor k R)).
Proof.
  revert tr. unfold eventsFor. induction R as [|e R IH]; intros tr; simpl; [reflexivity|].
  unfold perKey at 2, eventKey. destruct (restTx e) as [tx|] eqn:Etx.
  - destruct (String.eqb_spec (toLowerCase tx) k) as [Heq|Hne].
    + rewrite filter_cons_True by (unfold eventKey; rewrite Etx, Heq; reflexivity).
      simpl. apply IH.
    + rewrite filter_cons_False by (unfold eventKey; rewrite Etx; congruence).
      apply IH.
  - rewrite filter_cons_False by (unfold eventKey; rewrite Etx; discriminate).
    apply IH.
Qed.

(** What the second loop leaves under a key is settled with respect to the
    events of that key. *)
Lemma perKey_fold_settled k (R : list EventRecord) entry tr :
  foldl (perKey k) entry R = Some tr -> settled tr (eventsFor k R).
Proof.
  destruct entry as [tr0|].
  - rewrite perKey_fold_some. intros [= <-]. apply settled_after_updates.
  - induction R as [|e R IH]; simpl; [discriminate|].
    unfold perKey at 2, eventsFor, eventKey. destruct (restTx e) as [tx|] eqn:Etx.
    + destruct (String.eqb_spec (toLowerCase tx) k) as [Heq|Hne].
      * rewrite filter_cons_True by (unfold eventKey; rewrite Etx, Heq; reflexivity).
        rewrite perKey_fold_some. intros [= <-]. apply settled_after_create.
      * rewrite filter_cons_False by (unfold eventKey; rewrite Etx; congruence).
        exact IH.
    + rewrite filter_cons_False by (unfold eventKey; rewrite Etx; discriminate).
      exact IH.
Qed.

Lemma perKey_fold_absent k (R : list EventRecord) :
  (forall e, e ∈ R -> eventKey e <> Some k) -> foldl (perKey k) None R = None.
Proof.
  induction R as [|e R IH]; intros Hall; simpl; [reflexivity|].
  assert (He : perKey k None e = None).
  { pose proof (Hall e ltac:(apply elem_of_cons; left; reflexivity)) as Hk.
    unfold perKey, eventKey in *. destruct (restTx e) as [tx|]; [|reflexivity].
    destruct (String.eqb_spec (toLowerCase tx) k) as [Heq|]; [|reflexivity].
    exfalso. apply Hk. rewrite Heq. reflexivity. }
  rewrite He. apply IH. intros e' Hin. apply Hall. apply elem_of_cons. right. exact Hin.
Qed.

Section Rerun.
Variables (W : Z) (R M : list EventRecord) (E : list MergedTrade).

(** The map when the third loop of the first run starts, and the output of
    the first run. *)
Let merged1 : TradeMap := foldl applyRest (foldl loadExisting [] E) R.
Let out : list MergedTrade := mergeTradesW W R M E.

Lemma merged1_ok : mapOk merged1.
Proof.
  unfold merged1. apply mapOk_foldl; [apply mapOk_applyRest|].
  apply mapOk_foldl; [apply mapOk_loadExisting|apply mapOk_nil].
Qed.

Lemma out_perm : out ≡ₚ addMarketContext W M <$> mapValues merged1.
Proof. unfold out, mergeTradesW. apply sortBy_perm. Qed.

Lemma out_keys : mapKeys (keyed <$> out) ≡ₚ mapKeys merged1.
Proof.
  unfold mapKeys. rewrite <- list_fmap_compose, out_perm.
  unfold mapValues. rewrite <- !list_fmap_compose.
  destruct merged1_ok as [_ Hall].
  match goal with
  | |- ?a ≡ₚ ?b => assert (Heq : a = b); [|rewrite Heq; reflexivity]
  end.
  apply Forall_fmap_ext_1.
  eapply Forall_impl; [exact Hall|].
  intros [k tr] [Hk _]. simpl in *.
  destruct (addMarketContext_core W M tr) as (-> & _). symmetry. exact Hk.
Qed.

Lemma out_nonempty_tx : Forall (fun tr => mt_tx tr <> "") out.
Proof.
  rewrite out_perm. unfold mapValues. rewrite <- list_fmap_compose.
  apply Forall_fmap. destruct merged1_ok as [_ Hall].
  eapply Forall_impl; [exact Hall|].
  intros [k tr] [_ Hne]. simpl in *.
  destruct (addMarketContext_core W M tr) as (-> & _). exact Hne.
Qed.

Lemma out_keys_NoDup : NoDup (mapKeys (keyed <$> out)).
Proof. rewrite out_keys. apply merged1_ok. Qed.

(** The first loop of the second run files the output as it is. *)
Lemma reload_out : foldl loadExisting [] out = keyed <$> out.
Proof.
  rewrite foldl_loadExisting_fresh; [reflexivity| |apply out_nonempty_tx].
  simpl. apply out_keys_NoDup.
Qed.

Lemma mapValues_keyed (l : list MergedTrade) : mapValues (keyed <$> l) = l.
Proof.
  unfold mapValues. rewrite <- list_fmap_compose. apply list_fmap_id.
Qed.

(** Every entry of the reloaded map is the market-context step applied to
    the entry the first run had under the same key. *)
Lemma reload_lookup k tr' :
  mapGet k (keyed <$> out) = Some tr' ->
  exists tr0, mapGet k merged1 = Some tr0 /\ tr' = addMarketContext W M tr0.
Proof.
  intros G. apply mapGet_Some_elem, list_elem_of_fmap in G as (tr & Hkv & Hin).
  injection Hkv as -> ->.
  rewrite out_perm in Hin. apply list_elem_of_fmap in Hin as (tr0 & -> & Hin).
  unfold mapValues in Hin. apply list_elem_of_fmap in Hin as ([k0 v0] & -> & Hin).
  simpl. exists v0. split; [|reflexivity].
  destruct merged1_ok as [Hnd Hall]. rewrite Forall_forall in Hall.
  destruct (Hall _ Hin) as [Hk _]. simpl in Hk.
  destruct (addMarketContext_core W M v0) as (-> & _). rewrite <- Hk.
  apply elem_mapGet; assumption.
Qed.

(** The second loop of the second run changes nothing. *)
Lemma rerun_applyRest : foldl applyRest (keyed <$> out) R = keyed <$> out.
Proof.
  assert (Hkeys : forall e k, e ∈ R -> eventKey e = Some k -> k ∈ mapKeys (keyed <$> out)).
  { intros e k Hin Hk. rewrite out_keys. unfold merged1.
    eapply mapKeys_foldl_applyRest; eassumption. }
  apply TradeMap_eq.
  - rewrite mapKeys_foldl_applyRest_present by exact Hkeys. apply out_keys_NoDup.
  - apply mapKeys_foldl_applyRest_present, Hkeys.
  - intros k. rewrite mapGet_foldl_applyRest.
    destruct (mapGet k (keyed <$> out)) as [tr'|] eqn:G.
    + destruct (reload_lookup _ _ G) as (tr0 & G1 & ->).
      unfold merged1 in G1. rewrite mapGet_foldl_applyRest in G1.
      apply perKey_fold_settled in G1.
      rewrite perKey_fold_some. f_equal.
      apply settled_fix, settled_addMarketContext, G1.
    + apply perKey_fold_absent. intros e Hin Hk.
      apply mapGet_None in G. apply G. eapply Hkeys; eassumption.
Qed.

End Rerun.

(** C1: [mergeTrades] is a function of its three arguments, and running it
    again over the same events with the records it has just produced (what
    a restart does: the merged file is read back and merged with the log)
    produces those same records, for the window of the source and for any
    other window width. *)
Theorem C1_merge_idempotent (restEvents marketEvents : list EventRecord)
    (existingMerged : list MergedTrade) :
  mergeTrades restEvents marketEvents (mergeTrades restEvents marketEvents existingMerged)
  = mergeTrades restEvents marketEvents existingMerged
  /\ forall W,
       mergeTradesW W restEvents marketEvents
         (mergeTradesW W restEvents marketEvents existingMerged)
       = mergeTradesW W restEvents marketEvents existingMerged.
Proof.
  assert (Hrerun : forall W,
            mergeTradesW W restEvents marketEvents
              (mergeTradesW W restEvents marketEvents existingMerged)
            = mergeTradesW W restEvents marketEvents existingMerged).
  { intros W. unfold mergeTradesW at 1.
    (* first loop: the output is filed as it is *)
    rewrite (reload_out W restEvents marketEvents existingMerged).
    (* second loop: every entry is already settled *)
    rewrite (rerun_applyRest W restEvents marketEvents existingMerged).
    rewrite mapValues_keyed.
    (* third loop: the context of a trade depends on its time only *)
    assert (Hfix : addMarketContext W marketEvents
                     <$> mergeTradesW W restEvents marketEvents existingMerged
                   = mergeTradesW W restEvents marketEvents existingMerged).
    { rewrite <- (list_fmap_id (mergeTradesW _ _ _ _)) at 2. apply Forall_fmap_ext_1.
      rewrite Forall_forall. intros tr Hin.
      apply elem_of_mergeTradesW in Hin as (tr0 & -> & _).
      apply addMarketContext_idem. }
    rewrite Hfix.
    (* final sort: the output is sorted already *)
    unfold mergeTradesW. apply sortBy_idem. }
  split; [|exact Hrerun].
  unfold mergeTrades. apply Hrerun.
Qed.

Lemma mapGet_mapSet_values k v m k' v' :
  mapGet k' (mapSet k v m) = Some v' -> v' = v \/ mapGet k' m = Some v'.
Proof.
  rewrite mapGet_mapSet. destruct (String.eqb k' k); [intros [= <-]; tauto|tauto].
Qed.

Lemma mapGet_foldl_loadExisting (E : list MergedTrade) (m : TradeMap) k v :
  mapGet k (foldl loadExisting m E) = Some v -> mapGet k m = Some v \/ v ∈ E.
Proof.
  revert m. induction E as [|tr E IH]; intros m; simpl; [tauto|].
  intros H. apply IH in H as [H|H]; [|right; apply elem_of_cons; right; exact H].
  unfold loadExisting in H.
  destruct (String.eqb (mt_tx tr) ""); [left; exact H|].
  destruct (mapGet (toLowerCase (mt_tx tr)) m) as [ex|].
  - destruct (mt_timestampMs tr <? mt_timestampMs ex); [|left; exact H].
    apply mapGet_mapSet_values in H as [->|H]; [right; apply elem_of_cons; left; reflexivity|left; exact H].
  - apply mapGet_mapSet_values in H as [->|H]; [right; apply elem_of_cons; left; reflexivity|left; exact H].
Qed.









End MergeSpec.

(** ** Promotion of finished market files *)

Module PromotionSpec.
Import JsArray Sanitize Promotion.

Lemma filter_all {A} (P : A -> Prop) `{!forall x, Decision (P x)} (l : list A) :
  (forall x, x ∈ l -> P x) -> filter P l = l.
Proof.
  induction l as [|x l IH]; intros Hall; [reflexivity|].
  rewrite filter_cons_True by (apply Hall, elem_of_cons; left; reflexivity).
  f_equal. apply IH. intros y Hy. apply Hall, elem_of_cons. right. exact Hy.
Qed.

(** A flush whose write throws leaves everything as it was and is the only
    flush that does not return. *)
Lemma flushSlugBuffer_None env st slug :
  flushSlugBuffer env st slug = None -> flushWriteThrows env (fileNameOf slug) = true.
Proof.
  unfold flushSlugBuffer. destruct (slugEventBuffers st !! slug) as [[|e b]|]; try discriminate.
  destruct (flushWriteThrows env (fileNameOf slug)); [reflexivity|discriminate].
Qed.

Lemma flushSlugBuffer_activity env st slug st1 :
  flushSlugBuffer env st slug = Some st1 -> slugLastActivity st1 = slugLastActivity st.
Proof.
  unfold flushSlugBuffer. destruct (slugEventBuffers st !! slug) as [[|e b]|];
    try (intros [= <-]; reflexivity).
  destruct (flushWriteThrows env (fileNameOf slug)); [discriminate|].
  intros [= <-]. reflexivity.
Qed.

(** Flushing never removes a file. *)
Lemma flushSlugBuffer_files env st slug st1 f :
  flushSlugBuffer env st slug = Some st1 ->
  is_Some (files st !! f) -> is_Some (files st1 !! f).
Proof.
  unfold flushSlugBuffer. destruct (slugEventBuffers st !! slug) as [[|e b]|];
    try (intros [= <-]; tauto).
  destruct (flushWriteThrows env (fileNameOf slug)); [discriminate|].
  intros [= <-]. simpl. intros H. destruct (decide (fileNameOf slug = f)) as [->|Hne].
  - rewrite lookup_insert_eq. eauto.
  - rewrite lookup_insert_ne by exact Hne. exact H.
Qed.

Lemma uploadSlugFileToR2_outcome env st slug :
  UploadOutcome env st slug (uploadSlugFileToR2 env st slug).
Proof.
  unfold uploadSlugFileToR2.
  destruct (flushSlugBuffer env st slug) as [st0|] eqn:Eflush;
    [|apply FlushThrew; eapply flushSlugBuffer_None, Eflush].
  pose proof (flushSlugBuffer_activity env st slug st0 Eflush) as Hact.
  pose proof (fun f => flushSlugBuffer_files env st slug st0 f Eflush) as Hfiles.
  destruct (files st0 !! fileNameOf slug) as [content|] eqn:Ef.
  - destruct (uploadReadThrows env (fileNameOf slug)); [apply NotAttempted; assumption|].
    destruct (length content =? 0)%nat; [apply NotAttempted; assumption|].
    destruct (isR2Configured env); [|apply NotAttempted; assumption].
    destruct (uploadToR2 env (r2KeyOf slug) content).
    + destruct (unlinkThrows env (fileNameOf slug)); simpl.
      * apply UploadedKept; simpl; [rewrite Hact; reflexivity|exact Hfiles| |].
        -- rewrite Ef. eauto.
        -- rewrite lookup_insert_eq. eauto.
      * apply UploadedUnlinked; simpl; [rewrite Hact; reflexivity| |].
        -- intros f Hne Hf. rewrite lookup_delete_ne by congruence. apply Hfiles, Hf.
        -- rewrite lookup_insert_eq. eauto.
    + apply Failed; [exact Hact|exact Hfiles|]. rewrite Ef. eauto.
  - apply NotAttempted; assumption.
Qed.

(** The actions of one promotion hold no [Promote] and no [Rejects], and
    its attempts are for the promoted slug. *)
Lemma upload_actions env st slug returned st1 acts a :
  UploadOutcome env st slug (returned, st1, acts) -> a ∈ acts ->
  (exists ok, a = UploadAttempt slug ok) \/ a = Unlink (fileNameOf slug).
Proof.
  intros Hout Hin.
  inversion Hout as [x Ha Hf|x Ha Hf Hs|x Ha Hf Hs Hr|x Ha Hf Hr|Hw]; subst;
    repeat (apply elem_of_cons in Hin as [->|Hin]; [eauto|]);
    apply elem_of_nil in Hin; contradiction.
Qed.

(** The loop after its first slug. *)
Lemma uploadEach_cons env st slug rest :
  uploadEach env st (slug :: rest)
  = (fst (match fst (fst (uploadSlugFileToR2 env st slug)) with
          | Some _ => uploadEach env (snd (fst (uploadSlugFileToR2 env st slug))) rest
          | None => (snd (fst (uploadSlugFileToR2 env st slug)), [Rejects slug])
          end),
     Promote slug :: snd (uploadSlugFileToR2 env st slug)
       ++ snd (match fst (fst (uploadSlugFileToR2 env st slug)) with
               | Some _ => uploadEach env (snd (fst (uploadSlugFileToR2 env st slug))) rest
               | None => (snd (fst (uploadSlugFileToR2 env st slug)), [Rejects slug])
               end)).
Proof.
  simpl. destruct (uploadSlugFileToR2 env st slug) as [[[ok|] st1] a1]; simpl.
  - destruct (uploadEach env st1 rest) as [st2 a2]. reflexivity.
  - reflexivity.
Qed.

(** The actions of a loop either are none or start with [Promote]. *)
Lemma uploadEach_head env st slugs :
  match snd (uploadEach env st slugs) with
  | [] => True
  | Promote _ :: _ => True
  | _ => False
  end.
Proof.
  destruct slugs as [|s r]; [exact I|]. rewrite uploadEach_cons. exact I.
Qed.

(** Files are unlinked only right after the successful upload of their
    slug. *)
Lemma uploadEach_unlink env slugs st :
  unlinkOnlyAfterSuccess (snd (uploadEach env st slugs)) = true.
Proof.
  revert st. induction slugs as [|s r IH]; intros st; [reflexivity|].
  rewrite uploadEach_cons. cbn [snd].
  pose proof (uploadSlugFileToR2_outcome env st s) as Hout.
  destruct (uploadSlugFileToR2 env st s) as [[[ok|] st1] a1]; cbn [fst snd].
  - specialize (IH st1). pose proof (uploadEach_head env st1 r) as Hhead.
    destruct (uploadEach env st1 r) as [st2 a2]. cbn [snd] in *.
    inversion Hout as [x Ha Hf|x Ha Hf Hs|x Ha Hf Hs Hr|x Ha Hf Hr|Hw]; subst;
      cbn [unlinkOnlyAfterSuccess app].
    + exact IH.
    + exact IH.
    + destruct a2 as [|[p|p b|f|p] a2]; try contradiction; [reflexivity|exact IH].
    + rewrite bool_decide_eq_true_2 by reflexivity. exact IH.
  - inversion Hout as [x Ha Hf|x Ha Hf Hs|x Ha Hf Hs Hr|x Ha Hf Hr|Hw]; subst. reflexivity.
Qed.

(** Who is promoted and whose upload is attempted. *)
Lemma uploadEach_promote env slugs st slug :
  Promote slug ∈ snd (uploadEach env st slugs) -> slug ∈ slugs.
Proof.
  revert st. induction slugs as [|s r IH]; intros st.
  - simpl. intros H. apply elem_of_nil in H. contradiction.
  - rewrite uploadEach_cons. cbn [snd].
    pose proof (uploadSlugFileToR2_outcome env st s) as Hout.
    destruct (uploadSlugFileToR2 env st s) as [[returned st1] a1]. cbn [fst snd].
    rewrite !elem_of_cons, elem_of_app.
    intros [[= ->]|[Hin|Hin]]; [left; reflexivity| |].
    + destruct (upload_actions _ _ _ _ _ _ _ Hout Hin) as [[ok Hd]|Hd]; discriminate Hd.
    + destruct returned as [ok|]; [right; exact (IH _ Hin)|].
      apply list_elem_of_singleton in Hin. discriminate Hin.
Qed.

(** Every inactive slug is promoted, unless the loop is ended before by a
    flush whose write throws. *)
Lemma uploadEach_reaches env slugs st slug :
  slug ∈ slugs ->
  Promote slug ∈ snd (uploadEach env st slugs)
  \/ exists other, flushWriteThrows env (fileNameOf other) = true
                   /\ Rejects other ∈ snd (uploadEach env st slugs).
Proof.
  revert st. induction slugs as [|s r IH]; intros st Hin.
  - apply elem_of_nil in Hin. contradiction.
  - rewrite uploadEach_cons. cbn [snd].
    pose proof (uploadSlugFileToR2_outcome env st s) as Hout.
    destruct (uploadSlugFileToR2 env st s) as [[[ok|] st1] a1]; cbn [fst snd].
    + apply elem_of_cons in Hin as [->|Hin]; [left; apply elem_of_cons; left; reflexivity|].
      destruct (IH st1 Hin) as [Hp|(other & Hw & Hr)].
      * left. apply elem_of_cons. right. apply elem_of_app. right. exact Hp.
      * right. exists other. split; [exact Hw|].
        apply elem_of_cons. right. apply elem_of_app. right. exact Hr.
    + right. exists s. split.
      * inversion Hout as [x Ha Hf|x Ha Hf Hs|x Ha Hf Hs Hr|x Ha Hf Hr|Hw]; subst. exact Hw.
      * apply elem_of_cons. right. apply elem_of_app. right.
        apply list_elem_of_singleton. reflexivity.
Qed.

Lemma uploadEach_attempt env slugs st slug ok :
  UploadAttempt slug ok ∈ snd (uploadEach env st slugs) -> slug ∈ slugs.
Proof.
  revert st. induction slugs as [|s r IH]; intros st.
  - simpl. intros H. apply elem_of_nil in H. contradiction.
  - rewrite uploadEach_cons. cbn [snd].
    pose proof (uploadSlugFileToR2_outcome env st s) as Hout.
    destruct (uploadSlugFileToR2 env st s) as [[returned st1] a1]. cbn [fst snd].
    rewrite !elem_of_cons, elem_of_app. intros [Hd|[Hin|Hin]]; [discriminate Hd| |].
    + left. destruct (upload_actions _ _ _ _ _ _ _ Hout Hin) as [[ok' Hd]|Hd];
        [injection Hd as -> _; reflexivity|discriminate Hd].
    + destruct returned as [ok'|]; [right; exact (IH _ Hin)|].
      apply list_elem_of_singleton in Hin. discriminate Hin.
Qed.

(** The tracked set after the loop: exactly the slugs whose upload
    succeeded are gone. *)
Lemma uploadEach_activity env slugs st :
  slugLastActivity (fst (uploadEach env st slugs))
  = filter (fun kv => UploadAttempt (fst kv) true ∉ snd (uploadEach env st slugs))
           (slugLastActivity st).
Proof.
  revert st. induction slugs as [|s r IH]; intros st.
  - simpl. symmetry. apply filter_all. intros kv _ Hin.
    apply elem_of_nil in Hin. exact Hin.
  - rewrite uploadEach_cons. cbn [fst snd].
    pose proof (uploadSlugFileToR2_outcome env st s) as Hout.
    destruct (uploadSlugFileToR2 env st s) as [[returned st1] a1]. cbn [fst snd].
    assert (Hstep : slugLastActivity st1
                    = filter (fun kv => UploadAttempt (fst kv) true ∉ a1) (slugLastActivity st)).
    { inversion Hout as [x Ha Hf|x Ha Hf Hs|x Ha Hf Hs Hr|x Ha Hf Hr|Hw]; subst.
      - rewrite Ha. symmetry. apply filter_all. intros kv _ Hin.
        apply elem_of_nil in Hin. exact Hin.
      - rewrite Ha. symmetry. apply filter_all. intros kv _ Hin.
        apply list_elem_of_singleton in Hin. discriminate Hin.
      - rewrite Ha. unfold activityDelete. apply list_filter_iff. intros [k t]. simpl.
        rewrite list_elem_of_singleton. split; [intros Hne [= ->]; contradiction|].
        intros Hne ->. apply Hne. reflexivity.
      - rewrite Ha. unfold activityDelete. apply list_filter_iff. intros [k t]. simpl.
        rewrite !not_elem_of_cons. split.
        + intros Hne. split; [intros [= ->]; contradiction|]. split; [discriminate|].
          apply not_elem_of_nil.
        + intros [Hne _] ->. apply Hne. reflexivity.
      - symmetry. apply filter_all. intros kv _ Hin.
        apply elem_of_nil in Hin. exact Hin. }
    destruct returned as [ok|]; cbn [fst snd].
    + rewrite IH, Hstep, list_filter_filter. apply list_filter_iff. intros kv.
      rewrite not_elem_of_cons, not_elem_of_app. split.
      * intros [H1 H2]. split; [discriminate|]. split; assumption.
      * intros (_ & H1 & H2). split; assumption.
    + rewrite Hstep. apply list_filter_iff. intros kv.
      rewrite not_elem_of_cons, not_elem_of_app. split.
      * intros H1. split; [discriminate|]. split; [exact H1|].
        intros Hin. apply list_elem_of_singleton in Hin. discriminate Hin.
      * intros (_ & H1 & _). exact H1.
Qed.

(** A file that is gone after the loop, and that was there before or was
    offered for upload during the loop, belongs to a slug whose upload
    succeeded. *)
Lemma uploadEach_files env slugs st f :
  files (fst (uploadEach env st slugs)) !! f = None ->
  is_Some (files st !! f)
  \/ (exists slug ok, f = fileNameOf slug
                      /\ UploadAttempt slug ok ∈ snd (uploadEach env st slugs)) ->
  exists slug, f = fileNameOf slug
               /\ UploadAttempt slug true ∈ snd (uploadEach env st slugs).
Proof.
  revert st. induction slugs as [|s r IH]; intros st Hgone Hwas.
  - simpl in *. destruct Hwas as [[c Hc]|(slug & ok & _ & Hin)].
    + rewrite Hc in Hgone. discriminate Hgone.
    + apply elem_of_nil in Hin. contradiction.
  - rewrite uploadEach_cons in *. cbn [fst snd] in *.
    pose proof (uploadSlugFileToR2_outcome env st s) as Hout.
    destruct (uploadSlugFileToR2 env st s) as [[returned st1] a1]. cbn [fst snd] in *.
    set (tail := match returned with
                 | Some _ => uploadEach env st1 r
                 | None => (st1, [Rejects s])
                 end) in *.
    assert (Hlift : forall slug, UploadAttempt slug true ∈ a1 \/
                      UploadAttempt slug true ∈ snd tail ->
                    UploadAttempt slug true ∈ Promote s :: a1 ++ snd tail).
    { intros slug H. apply elem_of_cons. right. apply elem_of_app. exact H. }
    assert (Htail : files (fst tail) !! f = None ->
                    is_Some (files st1 !! f)
                    \/ (exists slug ok, f = fileNameOf slug
                                        /\ UploadAttempt slug ok ∈ snd tail) ->
                    exists slug, f = fileNameOf slug
                                 /\ UploadAttempt slug true ∈ snd tail).
    { unfold tail. destruct returned as [ok|]; [apply IH|]. cbn [fst snd].
      intros Hnone [[c Hc]|(slug & ok & _ & Hin)].
      - rewrite Hc in Hnone. discriminate Hnone.
      - apply list_elem_of_singleton in Hin. discriminate Hin. }
    destruct (files st1 !! f) as [c1|] eqn:E1.
    + destruct (Htail Hgone) as (slug & Hf & Hin); [left; eauto|].
      exists slug. split; [exact Hf|]. apply Hlift. right. exact Hin.
    + assert (Hhere : is_Some (files st !! f)
                      \/ (exists ok, f = fileNameOf s /\ UploadAttempt s ok ∈ a1)
                      \/ (exists slug ok, f = fileNameOf slug
                            /\ UploadAttempt slug ok ∈ snd tail)).
      { destruct Hwas as [H|(slug & ok & Hf & Hin)]; [left; exact H|].
        apply elem_of_cons in Hin as [Hd|Hin]; [discriminate Hd|].
        apply elem_of_app in Hin as [Hin|Hin].
        - right. left. exists ok.
          destruct (upload_actions _ _ _ _ _ _ _ Hout Hin) as [[ok' Hd]|Hd];
            [|discriminate Hd].
          injection Hd as -> ->. split; assumption.
        - right. right. exists slug, ok. split; assumption. }
      destruct Hhere as [Hst|[(ok & Hf & Hin)|Hlater]].
      * exists s.
        inversion Hout as [x Ha Hfl|x Ha Hfl Hs|x Ha Hfl Hs Hr|x Ha Hfl Hr|Hw]; subst.
        -- apply Hfl in Hst. rewrite E1 in Hst. destruct Hst as [? [=]].
        -- apply Hfl in Hst. rewrite E1 in Hst. destruct Hst as [? [=]].
        -- apply Hfl in Hst. rewrite E1 in Hst. destruct Hst as [? [=]].
        -- destruct (decide (f = fileNameOf s)) as [->|Hne].
           ++ split; [reflexivity|]. apply Hlift. left. apply elem_of_cons. left. reflexivity.
           ++ apply (Hfl _ Hne) in Hst. rewrite E1 in Hst. destruct Hst as [? [=]].
        -- rewrite E1 in Hst. destruct Hst as [? [=]].
      * subst f. exists s. split; [reflexivity|]. apply Hlift. left.
        inversion Hout as [x Ha Hfl|x Ha Hfl Hs|x Ha Hfl Hs Hr|x Ha Hfl Hr|Hw]; subst.
        -- apply elem_of_nil in Hin. contradiction.
        -- rewrite E1 in Hs. destruct Hs as [? [=]].
        -- rewrite E1 in Hs. destruct Hs as [? [=]].
        -- apply elem_of_cons. left. reflexivity.
        -- apply elem_of_nil in Hin. contradiction.
      * destruct (Htail Hgone) as (slug & Hf & Hin); [right; exact Hlater|].
        exists slug. split; [exact Hf|]. apply Hlift. right. exact Hin.
Qed.

Lemma check_unfold now env st :
  checkAndUploadInactiveSlugs now env st
  = if gateOpen now st then uploadEach env st (inactiveSlugs now st) else (st, []).
Proof. reflexivity. Qed.

Lemma activityGet_filter (P : jsstring * Z -> Prop) `{!forall x, Decision (P x)}
    (slug : jsstring) (m : list (jsstring * Z)) :
  (forall t, P (slug, t)) -> activityGet slug (filter P m) = activityGet slug m.
Proof.
  intros Hkeep. induction m as [|[s t] m IH]; [reflexivity|].
  destruct (decide (P (s, t))) as [HP|HP].
  - rewrite filter_cons_True by exact HP. simpl. rewrite IH. reflexivity.
  - rewrite filter_cons_False by exact HP. simpl.
    destruct (decide (slug = s)) as [->|Hne]; [|exact IH].
    exfalso. apply HP, Hkeep.
Qed.

Lemma activityGet_Some_key slug m : slug ∈ (fst <$> m) -> is_Some (activityGet slug m).
Proof.
  induction m as [|[s t] m IH]; simpl; intros Hin.
  - apply elem_of_nil in Hin. contradiction.
  - destruct (decide (slug = s)); [eauto|].
    apply elem_of_cons in Hin as [Hin|Hin]; [contradiction|]. exact (IH Hin).
Qed.

(** C9, as the code has it: one run of the periodic check.  A file is
    unlinked only directly after the upload of its slug has reported
    success, and a file that was there and is gone belongs to a slug whose
    upload succeeded.  A slug that was promoted without a successful upload
    keeps its entry and its last activity, and a file offered for upload is
    still there unless an upload of that same file succeeded.  Such a slug
    is found inactive by every later check; it is promoted again by a later
    check if that check passes the gate, that is if some other tracked slug
    is still active, and is not ended before by a flush whose write throws.
    A slug whose upload succeeded is no longer tracked, and no later check
    promotes or uploads it. *)
Theorem C9_promotion (now : Z) (env : Env) (st : State) :
  unlinkOnlyAfterSuccess (snd (checkAndUploadInactiveSlugs now env st)) = true
  /\ (forall f,
        is_Some (files st !! f) ->
        files (fst (checkAndUploadInactiveSlugs now env st)) !! f = None ->
        exists slug, f = fileNameOf slug
          /\ UploadAttempt slug true ∈ snd (checkAndUploadInactiveSlugs now env st))
  /\ (forall slug,
        UploadAttempt slug false ∈ snd (checkAndUploadInactiveSlugs now env st) ->
        (forall slug', fileNameOf slug' = fileNameOf slug ->
           UploadAttempt slug' true ∉ snd (checkAndUploadInactiveSlugs now env st)) ->
        is_Some (files (fst (checkAndUploadInactiveSlugs now env st)) !! fileNameOf slug))
  /\ (forall slug,
        Promote slug ∈ snd (checkAndUploadInactiveSlugs now env st) ->
        UploadAttempt slug true ∉ snd (checkAndUploadInactiveSlugs now env st) ->
        activityGet slug (slugLastActivity (fst (checkAndUploadInactiveSlugs now env st)))
        = activityGet slug (slugLastActivity st)
        /\ forall now' env',
             now <= now' ->
             slug ∈ inactiveSlugs now' (fst (checkAndUploadInactiveSlugs now env st))
             /\ (gateOpen now' (fst (checkAndUploadInactiveSlugs now env st)) = true ->
                 Promote slug ∈
                   snd (checkAndUploadInactiveSlugs now' env'
                          (fst (checkAndUploadInactiveSlugs now env st)))
                 \/ exists other,
                      flushWriteThrows env' (fileNameOf other) = true
                      /\ Rejects other ∈
                           snd (checkAndUploadInactiveSlugs now' env'
                                  (fst (checkAndUploadInactiveSlugs now env st))))
             /\ (gateOpen now' (fst (checkAndUploadInactiveSlugs now env st)) = false ->
                 checkAndUploadInactiveSlugs now' env'
                   (fst (checkAndUploadInactiveSlugs now env st))
                 = (fst (checkAndUploadInactiveSlugs now env st), [])))
  /\ (forall slug,
        UploadAttempt slug true ∈ snd (checkAndUploadInactiveSlugs now env st) ->
        (slug ∉ (fst <$> slugLastActivity (fst (checkAndUploadInactiveSlugs now env st))))
        /\ forall now' env' a,
             a ∈ snd (checkAndUploadInactiveSlugs now' env'
                        (fst (checkAndUploadInactiveSlugs now env st))) ->
             a <> Promote slug /\ forall ok, a <> UploadAttempt slug ok).
Proof.
  rewrite check_unfold. destruct (gateOpen now st) eqn:Egate.
  2:{ cbn [fst snd]. split; [reflexivity|]. split.
      { intros f [c Hc] Hnone. rewrite Hc in Hnone. discriminate Hnone. }
      split; [intros slug Hin; apply elem_of_nil in Hin; contradiction|].
      split; intros slug Hin; apply elem_of_nil in Hin; contradiction. }
  set (st' := fst (uploadEach env st (inactiveSlugs now st))).
  set (acts := snd (uploadEach env st (inactiveSlugs now st))).
  pose proof (uploadEach_activity env (inactiveSlugs now st) st) as Hact.
  fold st' acts in Hact.
  split; [apply uploadEach_unlink|]. split; [|split; [|split]].
  - intros f Hwas Hgone. apply (uploadEach_files env _ st f Hgone). left. exact Hwas.
  - intros slug Hfail Hnone.
    destruct (files st' !! fileNameOf slug) as [c|] eqn:Ef; [eauto|].
    destruct (uploadEach_files env _ st _ Ef) as (slug' & Hname & Hok).
    + right. exists slug, false. split; [reflexivity|exact Hfail].
    + exfalso. apply (Hnone slug'); [symmetry; exact Hname|exact Hok].
  - intros slug Hprom Hnot.
    apply uploadEach_promote in Hprom.
    assert (Hsame : activityGet slug (slugLastActivity st')
                    = activityGet slug (slugLastActivity st)).
    { rewrite Hact. apply activityGet_filter. intros t. exact Hnot. }
    split; [exact Hsame|]. intros now' env' Hlater.
    assert (Hinact : slug ∈ inactiveSlugs now' st').
    { unfold inactiveSlugs in *. apply list_elem_of_filter in Hprom as [Hold Hkey].
      apply list_elem_of_filter. split.
      - rewrite Hsame. lia.
      - rewrite Hact. apply list_elem_of_fmap in Hkey as ([k t] & -> & Hin).
        apply list_elem_of_fmap. exists (k, t). split; [reflexivity|].
        apply list_elem_of_filter. split; [exact Hnot|exact Hin]. }
    split; [exact Hinact|]. split.
    + intros Hgate. rewrite check_unfold, Hgate. apply uploadEach_reaches. exact Hinact.
    + intros Hgate. rewrite check_unfold, Hgate. reflexivity.
  - intros slug Hok.
    assert (Hgone : slug ∉ (fst <$> slugLastActivity st')).
    { rewrite Hact. intros Hin. apply list_elem_of_fmap in Hin as ([k t] & -> & Hin).
      apply list_elem_of_filter in Hin as [Hnot _]. exact (Hnot Hok). }
    split; [exact Hgone|]. intros now' env' a Ha.
    rewrite check_unfold in Ha.
    destruct (gateOpen now' st'); [|apply elem_of_nil in Ha; contradiction].
    assert (Hnotin : slug ∉ inactiveSlugs now' st').
    { unfold inactiveSlugs. intros Hin. apply list_elem_of_filter in Hin as [_ Hin].
      exact (Hgone Hin). }
    split.
    + intros ->. apply uploadEach_promote in Ha. exact (Hnotin Ha).
    + intros ok ->. apply uploadEach_attempt in Ha. exact (Hnotin Ha).
Qed.

(** A market goes quiet at t = 0 and the only other market one minute
    later.  The check at t = 300500 promotes the first one, the upload
    fails and the file stays.  At the next check, one minute later, the
    other market is quiet too: the gate is closed and nothing is retried,
    though the upload would now succeed; the same holds for every check
    after that. *)
Lemma C9_closed_gate_counterexample :
  snd (checkAndUploadInactiveSlugs 300500 uploadsFail bothQuiet)
  = [Promote quietSlug; UploadAttempt quietSlug false]
  /\ files (fst (checkAndUploadInactiveSlugs 300500 uploadsFail bothQuiet))
       !! fileNameOf quietSlug = Some [mkEvent 0 "{}"]
  /\ snd (checkAndUploadInactiveSlugs 360500 uploadsSucceed
            (fst (checkAndUploadInactiveSlugs 300500 uploadsFail bothQuiet))) = []
  /\ forall now', 360500 <= now' ->
       Promote quietSlug
       ∉ snd (checkAndUploadInactiveSlugs now' uploadsSucceed
                (fst (checkAndUploadInactiveSlugs 300500 uploadsFail bothQuiet))).
Proof.
  assert (Hfirst : checkAndUploadInactiveSlugs 300500 uploadsFail bothQuiet
                   = (bothQuiet, [Promote quietSlug; UploadAttempt quietSlug false])).
  { vm_compute. reflexivity. }
  rewrite Hfirst. cbn [fst snd].
  split; [reflexivity|]. split; [vm_compute; reflexivity|].
  assert (Hclosed : forall now', 360500 <= now' ->
            checkAndUploadInactiveSlugs now' uploadsSucceed bothQuiet = (bothQuiet, [])).
  { intros now' Hnow. unfold checkAndUploadInactiveSlugs, inactiveSlugs.
    cbn [bothQuiet slugLastActivity fmap list_fmap fst].
    rewrite filter_all; [reflexivity|].
    intros slug Hin. unfold SLUG_INACTIVITY_THRESHOLD_MS.
    apply elem_of_cons in Hin as [->|Hin].
    - vm_compute activityGet. simpl. lia.
    - apply list_elem_of_singleton in Hin. subst slug.
      vm_compute activityGet. simpl. lia. }
  split.
  - rewrite Hclosed by lia. reflexivity.
  - intros now' Hnow. rewrite (Hclosed now' Hnow). cbn [snd]. apply not_elem_of_nil.
Qed.

(** The scenario of the specification: the quiet market is promoted while
    uploads fail, keeps its file and its entry, is uploaded and unlinked by
    the next check, and is left alone by the check after that. *)
Lemma promotion_scenario :
  let firstCheck := checkAndUploadInactiveSlugs 301000 uploadsFail scene in
  let secondCheck := checkAndUploadInactiveSlugs 361000 uploadsSucceed (fst firstCheck) in
  let thirdCheck := checkAndUploadInactiveSlugs 421000 uploadsSucceed (fst secondCheck) in
  snd firstCheck = [Promote quietSlug; UploadAttempt quietSlug false]
  /\ files (fst firstCheck) !! fileNameOf quietSlug = Some [mkEvent 0 "{}"]
  /\ snd secondCheck
     = [Promote quietSlug; UploadAttempt quietSlug true; Unlink (fileNameOf quietSlug)]
  /\ files (fst secondCheck) !! fileNameOf quietSlug = None
  /\ remote (fst secondCheck) !! r2KeyOf quietSlug = Some [mkEvent 0 "{}"]
  /\ snd thirdCheck = [].
Proof. vm_compute. repeat split; reflexivity. Qed.

End PromotionSpec.

(** ** Runs of deliveries to the seen-set *)

Module DedupRunsSpec.
Import Dedup DedupSpec DedupRuns.

Lemma accepted_length (keys : list string) (st : PersistedState) :
  accepted st keys = length (acceptedKeys st keys).
Proof.
  revert st. induction keys as [|k keys IH]; intros st; [reflexivity|].
  simpl. destruct (checkAndInsert st k) as [[|] st']; simpl; rewrite IH; reflexivity.
Qed.

(** One accepted insertion next to a resident key that still has fewer
    than [MAX_SEEN_TX - 1] newer keys behind it: the key stays. *)
Lemma resident_step (st : PersistedState) (key k : string) (pre post : list string) :
  wf st ->
  seenTxOrder st = pre ++ key :: post ->
  k ∉ seenTxSet st ->
  Z.of_nat (length post) + 1 < MAX_SEEN_TX ->
  exists pre', seenTxOrder (snd (checkAndInsert st k)) = pre' ++ key :: (post ++ [k]).
Proof.
  intros Hwf Hord Hfresh Hroom.
  rewrite checkAndInsert_fresh_order by assumption.
  destruct Hwf as (_ & _ & Hbound). rewrite Hord in *.
  rewrite length_app in *. cbn [length] in *.
  set (d := Z.to_nat (Z.of_nat (length pre + S (length post)) + 1 - MAX_SEEN_TX)).
  assert (Hd : (d <= length pre)%nat) by (unfold d, MAX_SEEN_TX in *; lia).
  exists (drop d pre).
  rewrite <- app_assoc. rewrite drop_app_le by exact Hd. reflexivity.
Qed.

(** A resident key with room behind it is not accepted again and is still
    resident at the end of the run. *)
Lemma resident_run (key : string) (keys : list string) :
  forall (st : PersistedState) (pre post : list string),
    wf st ->
    seenTxOrder st = pre ++ key :: post ->
    Z.of_nat (length post) + Z.of_nat (length (acceptedKeys st keys)) < MAX_SEEN_TX ->
    (key ∉ acceptedKeys st keys)
    /\ exists pre' post', seenTxOrder (deliver st keys) = pre' ++ key :: post'.
Proof.
  induction keys as [|k keys IH]; intros st pre post Hwf Hord Hroom.
  - split; [apply not_elem_of_nil|]. exists pre, post. exact Hord.
  - simpl in *. unfold checkAndInsert in *. case_decide as Hin.
    + apply (IH st pre post); assumption.
    + cbn [fst snd] in *. cbn [length] in Hroom.
      assert (Hne : k <> key).
      { intros ->. apply Hin. destruct Hwf as (_ & Hset & _). apply Hset.
        rewrite Hord. apply elem_of_app. right. apply elem_of_cons. left. reflexivity. }
      destruct (resident_step st key k pre post Hwf Hord Hin ltac:(lia)) as (pre' & Hord').
      unfold checkAndInsert in Hord'. case_decide; [contradiction|]. cbn [snd] in Hord'.
      assert (Hwf' : wf (pruneSeen (remember st k))).
      { pose proof (checkAndInsert_wf st k Hwf) as H'. unfold checkAndInsert in H'.
        case_decide; [contradiction|]. exact H'. }
      destruct (IH _ pre' (post ++ [k]) Hwf' Hord') as [Hnot Hres].
      { rewrite length_app. cbn [length]. lia. }
      split; [|exact Hres].
      apply not_elem_of_cons. split; [congruence|exact Hnot].
Qed.

(** After a fresh key has been accepted, it is the newest key. *)
Lemma accepted_is_newest (st : PersistedState) (key : string) :
  wf st -> key ∉ seenTxSet st ->
  exists pre, seenTxOrder (snd (checkAndInsert st key)) = pre ++ [key].
Proof.
  intros Hwf Hfresh. rewrite checkAndInsert_fresh_order by assumption.
  destruct Hwf as (_ & _ & Hbound).
  set (d := Z.to_nat (Z.of_nat (length (seenTxOrder st)) + 1 - MAX_SEEN_TX)).
  assert (Hd : (d <= length (seenTxOrder st))%nat) by (unfold d, MAX_SEEN_TX in *; lia).
  exists (drop d (seenTxOrder st)). rewrite drop_app_le by exact Hd. reflexivity.
Qed.

(** A key that has been accepted is rejected on every later delivery for as
    long as fewer than 10,000 other keys have been accepted after it. *)
Theorem duplicate_rejected_within_capacity (st : PersistedState) (key : string)
    (later : list string) :
  wf st ->
  key ∉ seenTxSet st ->
  Z.of_nat (accepted (snd (checkAndInsert st key)) later) < MAX_SEEN_TX ->
  key ∈ seenTxSet (deliver (snd (checkAndInsert st key)) later)
  /\ fst (checkAndInsert (deliver (snd (checkAndInsert st key)) later) key) = false.
Proof.
  intros Hwf Hfresh Hroom.
  destruct (accepted_is_newest st key Hwf Hfresh) as (pre & Hord).
  pose proof (checkAndInsert_wf st key Hwf) as Hwf1.
  rewrite accepted_length in Hroom.
  destruct (resident_run key later _ pre [] Hwf1 Hord) as [_ (pre' & post' & Hres)].
  { simpl. lia. }
  assert (Hin : key ∈ seenTxSet (deliver (snd (checkAndInsert st key)) later)).
  { destruct (deliver_wf later _ Hwf1) as (_ & Hset & _). apply Hset. rewrite Hres.
    apply elem_of_app. right. apply elem_of_cons. left. reflexivity. }
  split; [exact Hin|].
  unfold checkAndInsert at 1. case_decide; [reflexivity|contradiction].
Qed.

Lemma duplicate_rejected_within_capacity_witness :
  wf emptyState
  /\ fst (checkAndInsert
            (deliver (snd (checkAndInsert emptyState "id:1")) ["id:2"; "id:3"; "id:2"])
            "id:1") = false.
Proof.
  split; [exact wf_empty|].
  refine (proj2 (duplicate_rejected_within_capacity emptyState "id:1"
                   ["id:2"; "id:3"; "id:2"] wf_empty _ _)).
  - intros Hin. apply not_elem_of_empty in Hin. exact Hin.
  - vm_compute. reflexivity.
Defined.

(** In a run of deliveries that accepts at most 10,000 keys, no key is
    accepted twice. *)
Theorem no_key_accepted_twice (keys : list string) (st : PersistedState) :
  wf st ->
  Z.of_nat (accepted st keys) <= MAX_SEEN_TX ->
  NoDup (acceptedKeys st keys).
Proof.
  rewrite accepted_length.
  revert st. induction keys as [|k keys IH]; intros st Hwf Hroom; [constructor|].
  simpl in *. pose proof (checkAndInsert_wf st k Hwf) as Hwf1.
  pose proof (accepted_is_newest st k Hwf) as Hnew.
  unfold checkAndInsert in *. case_decide as Hin.
  - apply IH; assumption.
  - cbn [fst snd length] in *.
    destruct (Hnew Hin) as (pre & Hord).
    destruct (resident_run k keys _ pre [] Hwf1 Hord) as [Hnot _].
    { simpl. lia. }
    constructor; [exact Hnot|]. apply IH; [exact Hwf1|lia].
Qed.

Lemma no_key_accepted_twice_witness :
  wf emptyState
  /\ NoDup (acceptedKeys emptyState ["id:1"; "id:2"; "id:1"; "id:3"; "id:2"]).
Proof.
  split; [exact wf_empty|].
  apply (no_key_accepted_twice ["id:1"; "id:2"; "id:1"; "id:3"; "id:2"] emptyState wf_empty).
  vm_compute. discriminate.
Defined.

(** Every store the program reaches is consistent: the set and the order
    list hold the same keys, each once, and never more than 10,000. *)
Theorem reachable_consistent (st : PersistedState) :
  reachable st ->
  wf st /\ Z.of_nat (size (seenTxSet st)) <= MAX_SEEN_TX.
Proof.
  intros Hreach.
  assert (Hwf : wf st).
  { induction Hreach as [|st key _ IH|st keys _ IH].
    - exact wf_empty.
    - apply checkAndInsert_wf, IH.
    - apply insertBatch_wf, IH. }
  split; [exact Hwf|]. rewrite (wf_size _ Hwf). apply Hwf.
Qed.

Lemma reachable_consistent_witness :
  reachable (insertBatch (snd (checkAndInsert emptyState "id:1")) ["id:2"; "id:1"])
  /\ wf (insertBatch (snd (checkAndInsert emptyState "id:1")) ["id:2"; "id:1"]).
Proof.
  assert (Hreach : reachable (insertBatch (snd (checkAndInsert emptyState "id:1"))
                                ["id:2"; "id:1"])).
  { apply reach_batch, reach_handler, reach_empty. }
  split; [exact Hreach|]. exact (proj1 (reachable_consistent _ Hreach)).
Defined.

End DedupRunsSpec.

(** ** File-name components of the matcher *)

Module MatcherSanitizeSpec.
Import Sanitize SanitizeSpec MatcherSanitize.

Lemma safe_not_white (c : N) : isSafeChar c = true -> isWhiteSpace c = false.
Proof.
  unfold isSafeChar, isWhiteSpace. intros H.
  repeat (apply orb_true_iff in H as [H|H]);
    try (apply andb_true_iff in H as [H1 H2]; apply N.leb_le in H1, H2);
    try (apply N.eqb_eq in H);
    repeat (apply orb_false_iff; split);
    try (apply andb_false_iff);
    rewrite ?N.leb_gt, ?N.eqb_neq; lia.
Qed.

Lemma dropWhileStart_id (p : N -> bool) (s : jsstring) :
  (forall c, head s = Some c -> p c = false) -> dropWhileStart p s = s.
Proof.
  destruct s as [|c r]; [reflexivity|]. simpl. intros H.
  rewrite (H c eq_refl). reflexivity.
Qed.

Lemma dropWhileEnd_id (p : N -> bool) (s : jsstring) :
  (forall c, last s = Some c -> p c = false) -> dropWhileEnd p s = s.
Proof.
  induction s as [|c r IH]; [reflexivity|]. intros H. simpl.
  destruct r as [|d r'].
  - simpl. rewrite (H c eq_refl). reflexivity.
  - rewrite IH; [reflexivity|]. intros x Hx. apply H. exact Hx.
Qed.

Lemma replaceUnsafeRuns_id (b : bool) (s : jsstring) :
  Forall (fun c => isSafeChar c = true) s -> replaceUnsafeRuns b s = s.
Proof.
  intros H. revert b. induction H as [|c r Hc Hr IH]; intros b; [reflexivity|].
  simpl. rewrite Hc, IH. reflexivity.
Qed.

(** Cleaning leaves a clean name as it is. *)
Lemma cleaned_clean (s : jsstring) : isClean s -> cleaned s = s.
Proof.
  intros (Hne & Hsafe & Hhead & Hlast). unfold cleaned, trim.
  assert (Hin : forall c, c ∈ s -> isSafeChar c = true).
  { rewrite Forall_forall in Hsafe. exact Hsafe. }
  rewrite (dropWhileStart_id isWhiteSpace).
  2:{ intros c Hc. apply safe_not_white, Hin. destruct s; [discriminate|].
      injection Hc as ->. apply elem_of_cons. left. reflexivity. }
  rewrite (dropWhileEnd_id isWhiteSpace).
  2:{ intros c Hc. apply safe_not_white, Hin. apply last_Some in Hc as [l' ->].
      apply elem_of_app. right. apply list_elem_of_singleton. reflexivity. }
  rewrite replaceUnsafeRuns_id by exact Hsafe.
  rewrite (dropWhileStart_id isUnderscore).
  2:{ intros c Hc. unfold isUnderscore. apply N.eqb_neq. intros ->. exact (Hhead Hc). }
  apply dropWhileEnd_id. intros c Hc. unfold isUnderscore. apply N.eqb_neq.
  intros ->. exact (Hlast Hc).
Qed.

Lemma unknown_clean : isClean unknown.
Proof.
  split; [discriminate|]. split; [vm_compute; repeat constructor|].
  split; vm_compute; discriminate.
Qed.

(** The matcher's file-name component is always a clean name, and cleaning
    it again changes nothing; the logger's component is the same name
    whenever the cleaned input has at most 140 code units. *)
Theorem matcher_component_clean (input : jsstring) :
  isClean (sanitizeFileComponent input)
  /\ sanitizeFileComponent (sanitizeFileComponent input) = sanitizeFileComponent input
  /\ ((length (cleaned input) <= 140)%nat ->
      Sanitize.sanitizeFileComponent input = sanitizeFileComponent input).
Proof.
  assert (Hclean : isClean (sanitizeFileComponent input)).
  { unfold sanitizeFileComponent.
    pose proof (cleaned_safe input) as Hsafe.
    pose proof (cleaned_head input) as Hhead.
    pose proof (cleaned_last input) as Hlast.
    destruct (cleaned input) as [|c r]; [exact unknown_clean|].
    split; [discriminate|]. split; [exact Hsafe|]. split; assumption. }
  split; [exact Hclean|]. split.
  - unfold sanitizeFileComponent at 1. rewrite (cleaned_clean _ Hclean).
    destruct Hclean as (Hne & _). destruct (sanitizeFileComponent input); [contradiction|reflexivity].
  - intros Hlen. unfold Sanitize.sanitizeFileComponent, sanitizeFileComponent.
    destruct (cleaned input) as [|c r]; [reflexivity|]. apply take_ge. exact Hlen.
Qed.

(** A clean name is a fixed point of all three variants: the matcher's, the
    collector's (plain cleaning) and, up to 140 code units, the logger's. *)
Theorem clean_name_unchanged (s : jsstring) :
  isClean s ->
  sanitizeFileComponent s = s
  /\ cleaned s = s
  /\ ((length s <= 140)%nat -> Sanitize.sanitizeFileComponent s = s).
Proof.
  intros Hclean. pose proof (cleaned_clean s Hclean) as Hc.
  destruct Hclean as (Hne & _).
  split; [|split; [exact Hc|]].
  - unfold sanitizeFileComponent. rewrite Hc. destruct s; [contradiction|reflexivity].
  - intros Hlen. unfold Sanitize.sanitizeFileComponent. rewrite Hc.
    destruct s; [contradiction|]. apply take_ge. exact Hlen.
Qed.

Lemma clean_name_unchanged_witness :
  isClean (ofString "btc-updown-15m-1700000000")
  /\ sanitizeFileComponent (ofString "btc-updown-15m-1700000000")
     = ofString "btc-updown-15m-1700000000".
Proof.
  assert (Hclean : isClean (ofString "btc-updown-15m-1700000000")).
  { split; [discriminate|]. split; [vm_compute; repeat constructor|].
    split; vm_compute; discriminate. }
  split; [exact Hclean|].
  exact (proj1 (clean_name_unchanged _ Hclean)).
Defined.

End MatcherSanitizeSpec.

(** ** Retrying REST requests *)

Module RetrySpec.
Import Retry.

(** [fetchTrades] of the logger: at most three requests; it sleeps 1 s
    after the first and 2 s after the second, and only after network
    errors; what the last request leads to decides the outcome: a reply is
    returned, anything else is thrown. *)
Theorem fetchTrades_schedule {A} (answer : nat -> Answer A) :
  (fetchTrades answer).2 = take (length (fetchTrades answer).2) [1000; 2000]
  /\ (length (fetchTrades answer).2 <= 2)%nat
  /\ totalSleep (fetchTrades answer).2 <= 3000
  /\ (forall n, (1 <= n <= length (fetchTrades answer).2)%nat -> answer n = NetworkError)
  /\ (fetchTrades answer).1
     = match answer (S (length (fetchTrades answer).2)) with
       | Replied data => Returned (arrayOrEmpty data)
       | _ => Thrown
       end.
Proof.
  unfold fetchTrades. cbn [fetchTradesFrom].
  destruct (answer 1%nat) eqn:E1; cbn;
    try (repeat split; try reflexivity; try lia; rewrite ?E1; reflexivity).
  destruct (answer 2%nat) eqn:E2; cbn;
    try (repeat split; try reflexivity; try lia;
         [intros n Hn; replace n with 1%nat by lia; exact E1|rewrite ?E2; reflexivity]).
  destruct (answer 3%nat) eqn:E3; cbn;
    (repeat split; try reflexivity; try lia;
     [intros n Hn; assert (n = 1 \/ n = 2)%nat as [->| ->] by lia; assumption
     |rewrite ?E3; reflexivity]).
Qed.

Lemma fetchUserActivityFrom_spec {A} (answer : nat -> Answer A) (fuel attempt : nat) :
  (1 <= attempt <= 5)%nat ->
  (attempt + fuel = 6)%nat ->
  let out := (fetchUserActivityFrom answer fuel attempt).1 in
  let sleeps := (fetchUserActivityFrom answer fuel attempt).2 in
  (length sleeps <= fuel - 1)%nat
  /\ out <> Thrown
  /\ (forall i d, sleeps !! i = Some d ->
        (answer (attempt + i)%nat = RateLimited
         /\ d = Z.min 5000 (1000 * 2 ^ (Z.of_nat (attempt + i) - 1)))
        \/ (answer (attempt + i)%nat = NetworkError /\ d = 1000 * Z.of_nat (attempt + i)))
  /\ out = match answer (attempt + length sleeps)%nat with
           | Replied data => Returned (arrayOrEmpty data)
           | _ => Returned []
           end.
Proof.
  revert attempt. induction fuel as [|fuel IH]; intros attempt Hpos Hsum; [lia|].
  cbn [fetchUserActivityFrom]. unfold MAX_RETRIES.
  destruct (answer attempt) eqn:Ea.
  - cbn. rewrite Nat.add_0_r, Ea.
    repeat split; try lia; try discriminate; try (intros i d Hd; discriminate Hd).
  - destruct (Nat.ltb_spec attempt 5) as [Hlt|Hge].
    + specialize (IH (S attempt) ltac:(lia) ltac:(lia)). cbn zeta in IH.
      destruct (fetchUserActivityFrom answer fuel (S attempt)) as [out sleeps].
      cbn [fst snd length] in *. destruct IH as (Hlen & Hout & Hsl & Hlast).
      split; [lia|]. split; [exact Hout|]. split.
      * intros [|i] d Hd.
        -- cbn in Hd. injection Hd as <-. left. rewrite Nat.add_0_r. split; [exact Ea|reflexivity].
        -- cbn in Hd. replace (attempt + S i)%nat with (S attempt + i)%nat by lia.
           apply Hsl. exact Hd.
      * replace (attempt + S (length sleeps))%nat with (S attempt + length sleeps)%nat by lia.
        exact Hlast.
    + cbn. rewrite Nat.add_0_r, Ea.
      repeat split; try lia; try discriminate; try (intros i d Hd; discriminate Hd).
  - destruct (Nat.ltb_spec attempt 5) as [Hlt|Hge].
    + specialize (IH (S attempt) ltac:(lia) ltac:(lia)). cbn zeta in IH.
      destruct (fetchUserActivityFrom answer fuel (S attempt)) as [out sleeps].
      cbn [fst snd length] in *. destruct IH as (Hlen & Hout & Hsl & Hlast).
      split; [lia|]. split; [exact Hout|]. split.
      * intros [|i] d Hd.
        -- cbn in Hd. injection Hd as <-. right. rewrite Nat.add_0_r. split; [exact Ea|reflexivity].
        -- cbn in Hd. replace (attempt + S i)%nat with (S attempt + i)%nat by lia.
           apply Hsl. exact Hd.
      * replace (attempt + S (length sleeps))%nat with (S attempt + length sleeps)%nat by lia.
        exact Hlast.
    + cbn. rewrite Nat.add_0_r, Ea.
      repeat split; try lia; try discriminate; try (intros i d Hd; discriminate Hd).
  - cbn. rewrite Nat.add_0_r, Ea.
    repeat split; try lia; try discriminate; try (intros i d Hd; discriminate Hd).
Qed.

(** [fetchUserActivity] of the collector never throws and makes at most
    five requests.  After a 429 on attempt [a] it sleeps
    [min 5000 (1000 * 2^(a-1))] ms, after a network error [1000 * a] ms; no
    sleep exceeds 5 s.  It returns the array of the first reply that comes
    after retried errors only, and the empty array otherwise. *)
Theorem fetchUserActivity_schedule {A} (answer : nat -> Answer A) :
  (fetchUserActivity answer).1 <> Thrown
  /\ (length (fetchUserActivity answer).2 <= 4)%nat
  /\ (forall i d, (fetchUserActivity answer).2 !! i = Some d ->
        0 < d <= 5000
        /\ ((answer (S i) = RateLimited /\ d = Z.min 5000 (1000 * 2 ^ Z.of_nat i))
            \/ (answer (S i) = NetworkError /\ d = 1000 * Z.of_nat (S i))))
  /\ (fetchUserActivity answer).1
     = match answer (S (length (fetchUserActivity answer).2)) with
       | Replied data => Returned (arrayOrEmpty data)
       | _ => Returned []
       end.
Proof.
  unfold fetchUserActivity, MAX_RETRIES.
  destruct (fetchUserActivityFrom_spec answer 5 1 ltac:(lia) ltac:(lia))
    as (Hlen & Hout & Hsl & Hlast).
  split; [exact Hout|]. split; [exact Hlen|]. split; [|exact Hlast].
  intros i d Hd.
  assert (Hi : (i < 4)%nat).
  { apply lookup_lt_Some in Hd. unfold MAX_RETRIES in *. lia. }
  destruct (Hsl i d Hd) as [[Ha ->]|[Ha ->]]; cbn [Nat.add] in *.
  - replace (Z.of_nat (S i) - 1) with (Z.of_nat i) by lia.
    assert (0 < 2 ^ Z.of_nat i) by (apply Z.pow_pos_nonneg; lia).
    split; [lia|]. left. split; [exact Ha|reflexivity].
  - split; [lia|]. right. split; [exact Ha|reflexivity].
Qed.

End RetrySpec.

(** ** Further properties of the trade matcher *)

Module MergeViewsSpec.
Import JsArray JsArraySpec Merge MergeSpec MergeViews.

Lemma mapKeys_mapSet_elem k v m k' :
  k' ∈ mapKeys (mapSet k v m) <-> k' = k \/ k' ∈ mapKeys m.
Proof.
  destruct (mapGet k m) as [v0|] eqn:G.
  - assert (Hin : k ∈ mapKeys m).
    { apply mapGet_Some_elem in G. apply list_elem_of_fmap. exists (k, v0).
      split; [reflexivity|exact G]. }
    rewrite mapKeys_mapSet_present by exact Hin. split; [tauto|].
    intros [->|H]; assumption.
  - rewrite (mapSet_absent _ _ _ G). unfold mapKeys. rewrite fmap_app, elem_of_app.
    simpl. rewrite list_elem_of_singleton. tauto.
Qed.

(** The keys after the first loop: those of the previously merged records
    with a hash. *)
Lemma mapKeys_foldl_loadExisting (E : list MergedTrade) (m : TradeMap) k :
  k ∈ mapKeys (foldl loadExisting m E) <->
  k ∈ mapKeys m \/ exists tr, tr ∈ E /\ mt_tx tr <> "" /\ k = tradeKey tr.
Proof.
  revert m. induction E as [|tr E IH]; intros m; simpl.
  - split; [tauto|]. intros [H|(tr & Hin & _)]; [exact H|].
    apply elem_of_nil in Hin. contradiction.
  - rewrite IH.
    assert (Hstep : k ∈ mapKeys (loadExisting m tr) <->
                    k ∈ mapKeys m \/ (mt_tx tr <> "" /\ k = tradeKey tr)).
    { unfold loadExisting, tradeKey.
      destruct (String.eqb_spec (mt_tx tr) "") as [He|Hne]; [tauto|].
      destruct (mapGet (toLowerCase (mt_tx tr)) m) as [ex|] eqn:G.
      - assert (Hin : toLowerCase (mt_tx tr) ∈ mapKeys m).
        { apply mapGet_Some_elem in G. apply list_elem_of_fmap.
          exists (toLowerCase (mt_tx tr), ex). split; [reflexivity|exact G]. }
        destruct (mt_timestampMs tr <? mt_timestampMs ex).
        + rewrite mapKeys_mapSet_elem. split; [intros [->|H]; tauto|].
          intros [H|[_ ->]]; tauto.
        + split; [tauto|]. intros [H|[_ ->]]; assumption.
      - rewrite mapKeys_mapSet_elem. split; [intros [->|H]; tauto|].
        intros [H|[_ ->]]; tauto. }
    rewrite Hstep. split.
    + intros [[H|[Hne ->]]|(tr' & Hin & Hne & ->)].
      * left. exact H.
      * right. exists tr. split; [apply elem_of_cons; left; reflexivity|tauto].
      * right. exists tr'. split; [apply elem_of_cons; right; exact Hin|tauto].
    + intros [H|(tr' & Hin & Hne & ->)]; [tauto|].
      apply elem_of_cons in Hin as [->|Hin]; [tauto|].
      right. exists tr'. tauto.
Qed.

(** The keys after the second loop: those before plus the keys of the REST
    events that are not skipped. *)
Lemma mapKeys_foldl_applyRest_iff (R : list EventRecord) (m : TradeMap) k :
  k ∈ mapKeys (foldl applyRest m R) <->
  k ∈ mapKeys m \/ exists e, e ∈ R /\ eventKey e = Some k.
Proof.
  revert m. induction R as [|e R IH]; intros m; simpl.
  - split; [tauto|]. intros [H|(e & Hin & _)]; [exact H|].
    apply elem_of_nil in Hin. contradiction.
  - rewrite IH.
    assert (Hstep : k ∈ mapKeys (applyRest m e) <-> k ∈ mapKeys m \/ eventKey e = Some k).
    { unfold applyRest, eventKey. destruct (restTx e) as [tx|].
      - destruct (mapGet (toLowerCase tx) m); rewrite mapKeys_mapSet_elem;
          (split; [intros [->|H]; tauto|intros [H|[= ->]]; tauto]).
      - split; [tauto|]. intros [H|H]; [exact H|discriminate H]. }
    rewrite Hstep. split.
    + intros [[H|H]|(e' & Hin & He')].
      * left. exact H.
      * right. exists e. split; [apply elem_of_cons; left; reflexivity|exact H].
      * right. exists e'. split; [apply elem_of_cons; right; exact Hin|exact He'].
    + intros [H|(e' & Hin & He')]; [tauto|].
      apply elem_of_cons in Hin as [->|Hin]; [tauto|].
      right. exists e'. tauto.
Qed.

Lemma out_tradeKeys W R M E :
  tradeKey <$> mergeTradesW W R M E
  ≡ₚ mapKeys (foldl applyRest (foldl loadExisting [] E) R).
Proof.
  rewrite <- (out_keys W R M E). unfold mapKeys.
  rewrite <- list_fmap_compose. reflexivity.
Qed.

(** The output of [mergeTrades] is in ascending order of [timestampMs],
    every record has a hash, and no two records have the same hash up to
    the case of its letters. *)
Theorem output_sorted_one_record_per_hash (W : Z) (R M : list EventRecord)
    (E : list MergedTrade) :
  StronglySorted (keyLe mt_timestampMs) (mergeTradesW W R M E)
  /\ Forall (fun tr => mt_tx tr <> "") (mergeTradesW W R M E)
  /\ NoDup (tradeKey <$> mergeTradesW W R M E)
  /\ (forall a b, a ∈ mergeTradesW W R M E -> b ∈ mergeTradesW W R M E ->
                  tradeKey a = tradeKey b -> a = b).
Proof.
  assert (Hnd : NoDup (tradeKey <$> mergeTradesW W R M E)).
  { rewrite out_tradeKeys. apply (merged1_ok R E). }
  split; [apply sortBy_sorted|]. split; [apply out_nonempty_tx|]. split; [exact Hnd|].
  intros a b Ha Hb Hkey.
  apply list_elem_of_lookup in Ha as [i Hi]. apply list_elem_of_lookup in Hb as [j Hj].
  assert (i = j).
  { eapply (NoDup_lookup _ _ _ (tradeKey a) Hnd).
    - rewrite list_lookup_fmap, Hi. reflexivity.
    - rewrite list_lookup_fmap, Hj. simpl. rewrite Hkey. reflexivity. }
  subst j. congruence.
Qed.

(** Which records the output holds: one for every REST event that carries
    a hash and for every previously merged record with a hash, and no
    others. *)
Theorem output_covers_inputs (W : Z) (R M : list EventRecord) (E : list MergedTrade) :
  (forall e tx, e ∈ R -> restTx e = Some tx ->
     exists tr, tr ∈ mergeTradesW W R M E /\ tradeKey tr = toLowerCase tx)
  /\ (forall tr0, tr0 ∈ E -> mt_tx tr0 <> "" ->
        exists tr, tr ∈ mergeTradesW W R M E /\ tradeKey tr = tradeKey tr0)
  /\ (forall tr, tr ∈ mergeTradesW W R M E ->
        (exists tr0, tr0 ∈ E /\ mt_tx tr0 <> "" /\ tradeKey tr = tradeKey tr0)
        \/ (exists e, e ∈ R /\ eventKey e = Some (tradeKey tr))).
Proof.
  assert (Hkeys : forall k, k ∈ (tradeKey <$> mergeTradesW W R M E) <->
            (exists tr0, tr0 ∈ E /\ mt_tx tr0 <> "" /\ k = tradeKey tr0)
            \/ (exists e, e ∈ R /\ eventKey e = Some k)).
  { intros k. rewrite out_tradeKeys, mapKeys_foldl_applyRest_iff, mapKeys_foldl_loadExisting.
    split.
    - intros [[H|H]|H]; [apply elem_of_nil in H; contradiction|left; exact H|right; exact H].
    - intros [H|H]; [left; right; exact H|right; exact H]. }
  split; [|split].
  - intros e tx Hin Htx.
    assert (Hk : toLowerCase tx ∈ (tradeKey <$> mergeTradesW W R M E)).
    { apply Hkeys. right. exists e. split; [exact Hin|]. unfold eventKey. rewrite Htx. reflexivity. }
    apply list_elem_of_fmap in Hk as (tr & Hk & Htr). exists tr. split; [exact Htr|]. symmetry. exact Hk.
  - intros tr0 Hin Hne.
    assert (Hk : tradeKey tr0 ∈ (tradeKey <$> mergeTradesW W R M E)).
    { apply Hkeys. left. exists tr0. tauto. }
    apply list_elem_of_fmap in Hk as (tr & Hk & Htr). exists tr. split; [exact Htr|]. symmetry. exact Hk.
  - intros tr Hin.
    assert (Hk : tradeKey tr ∈ (tradeKey <$> mergeTradesW W R M E)).
    { apply list_elem_of_fmap. exists tr. split; [reflexivity|exact Hin]. }
    apply Hkeys in Hk. exact Hk.
Qed.

(** *** What a record holds *)

Lemma perKey_fold_noevents k (R : list EventRecord) entry :
  eventsFor k R = [] -> foldl (perKey k) entry R = entry.
Proof.
  unfold eventsFor. revert entry. induction R as [|e R IH]; intros entry Hnil; [reflexivity|].
  simpl. destruct (decide (eventKey e = Some k)) as [He|He].
  - rewrite filter_cons_True in Hnil by exact He. discriminate Hnil.
  - rewrite filter_cons_False in Hnil by exact He.
    assert (Hstep : perKey k entry e = entry).
    { unfold perKey, eventKey in *. destruct (restTx e) as [tx|]; [|reflexivity].
      destruct (String.eqb_spec (toLowerCase tx) k) as [Heq|]; [|reflexivity].
      exfalso. apply He. rewrite Heq. reflexivity. }
    rewrite Hstep. apply IH, Hnil.
Qed.

(** A record of the output and the REST events of its hash: [rest] is built
    from the last of them, [timestamp] is at most the time of each, and
    [receivedAtMs] at least the receive time of each.  A record without
    such an event is a previously merged record, changed by the
    market-context step only. *)
Theorem record_reflects_its_events (W : Z) (R M : list EventRecord)
    (E : list MergedTrade) (tr : MergedTrade) :
  tr ∈ mergeTradesW W R M E ->
  (forall e, last (eventsFor (tradeKey tr) R) = Some e -> mt_rest tr = Some (restOf e))
  /\ Forall (fun e => mt_timestamp tr <= ev_t e) (eventsFor (tradeKey tr) R)
  /\ Forall (fun e => ev_recv e <= mt_receivedAtMs tr) (eventsFor (tradeKey tr) R)
  /\ (eventsFor (tradeKey tr) R = [] ->
      exists tr0, tr0 ∈ E /\ tr = addMarketContext W M tr0).
Proof.
  intros Hin. apply elem_of_mergeTradesW in Hin as (tr0 & -> & Hin).
  unfold mapValues in Hin. apply list_elem_of_fmap in Hin as ([k v] & -> & Hin). simpl.
  destruct (merged1_ok R E) as [Hnd Hall].
  pose proof Hall as Hall'. rewrite Forall_forall in Hall'.
  destruct (Hall' _ Hin) as [Hk _]. simpl in Hk.
  assert (Hkey : tradeKey (addMarketContext W M v) = k).
  { unfold tradeKey. destruct (addMarketContext_core W M v) as (-> & _). symmetry. exact Hk. }
  rewrite Hkey.
  pose proof (elem_mapGet _ _ _ Hnd Hin) as G.
  rewrite mapGet_foldl_applyRest in G.
  pose proof (perKey_fold_settled _ _ _ _ G) as Hs.
  apply (settled_addMarketContext W M) in Hs. destruct Hs as (Hts & Hrecv & _ & Hrest).
  split; [exact Hrest|]. split; [exact Hts|]. split; [exact Hrecv|].
  intros Hnil. rewrite (perKey_fold_noevents _ _ _ Hnil) in G.
  apply mapGet_foldl_loadExisting in G as [G|G]; [discriminate G|].
  exists v. split; [exact G|reflexivity].
Qed.

Lemma record_reflects_its_events_witness :
  exists tr,
    tr ∈ mergeTradesW 3000 [restTradeAt "0xAbC" 1000; restTradeAt "0xabc" 900] [] []
    /\ mt_timestamp tr = 900
    /\ Forall (fun e => mt_timestamp tr <= ev_t e)
              (eventsFor (tradeKey tr) [restTradeAt "0xAbC" 1000; restTradeAt "0xabc" 900]).
Proof.
  pose (R := [restTradeAt "0xAbC" 1000; restTradeAt "0xabc" 900]).
  assert (Hout : exists tr, mergeTradesW 3000 R [] [] = [tr] /\ mt_timestamp tr = 900).
  { eexists. split; vm_compute; reflexivity. }
  destruct Hout as (tr & Hout & Hts).
  assert (Hin : tr ∈ mergeTradesW 3000 R [] []).
  { rewrite Hout. apply list_elem_of_singleton. reflexivity. }
  exists tr. split; [exact Hin|]. split; [exact Hts|].
  exact (proj1 (proj2 (record_reflects_its_events 3000 R [] [] tr Hin))).
Defined.

(** *** What the matcher ignores *)

Lemma foldl_applyRest_relevant (R : list EventRecord) (m : TradeMap) :
  foldl applyRest m (restRelevant R) = foldl applyRest m R.
Proof.
  unfold restRelevant. revert m. induction R as [|e R IH]; intros m; [reflexivity|].
  destruct (restTx e) as [tx|] eqn:Etx.
  - rewrite filter_cons_True by (rewrite Etx; eauto). simpl. apply IH.
  - rewrite filter_cons_False by (rewrite Etx; intros [? [=]]). simpl.
    assert (Hskip : applyRest m e = m) by (unfold applyRest; rewrite Etx; reflexivity).
    rewrite Hskip. apply IH.
Qed.

Lemma collect_relevant lo hi (M : list EventRecord) :
  collect lo hi (marketRelevant M) = collect lo hi M.
Proof.
  unfold collect, marketRelevant. rewrite list_filter_filter.
  apply list_filter_iff. intros e. unfold inWindow. tauto.
Qed.

Lemma closest_relevant T (M : list EventRecord) :
  closest T (marketRelevant M) = closest T M.
Proof.
  unfold closest, marketRelevant. generalize (@None (EventRecord * Z)).
  induction M as [|e M IH]; intros acc; [reflexivity|].
  destruct (decide (ev_src e = market_ws)) as [Hs|Hs].
  - rewrite filter_cons_True by exact Hs. simpl. apply IH.
  - rewrite filter_cons_False by exact Hs. simpl.
    assert (Hskip : closestStep T acc e = acc).
    { unfold closestStep. destruct (decide (ev_src e = market_ws)); [contradiction|reflexivity]. }
    rewrite Hskip. apply IH.
Qed.

Lemma closest_none_irrelevant T (M : list EventRecord) :
  marketRelevant M = [] -> closest T M = None.
Proof. intros H. rewrite <- closest_relevant, H. reflexivity. Qed.

Lemma windowEventsFor_relevant W T (M : list EventRecord) :
  windowEventsFor W (marketRelevant M) T = windowEventsFor W M T.
Proof.
  unfold windowEventsFor. rewrite collect_relevant.
  destruct (collect (T - W) (T + W) M) as [|e l]; [|reflexivity].
  destruct (marketRelevant M) as [|m0 M'] eqn:Erel.
  - rewrite (closest_none_irrelevant T M Erel). destruct M; reflexivity.
  - destruct M as [|x M'']; [discriminate Erel|].
    rewrite <- Erel, closest_relevant.
    destruct (closest T (x :: M'')) as [[c d]|]; [|reflexivity].
    rewrite collect_relevant. reflexivity.
Qed.

(** REST events that are not [rest_poll] trades with a hash, and market
    events that did not come from the market feed, have no influence on the
    output. *)
Theorem irrelevant_events_ignored (W : Z) (R M : list EventRecord) (E : list MergedTrade) :
  mergeTradesW W (restRelevant R) (marketRelevant M) E = mergeTradesW W R M E.
Proof.
  unfold mergeTradesW. rewrite foldl_applyRest_relevant. f_equal.
  apply Forall_fmap_ext_1, Forall_forall. intros tr _.
  unfold addMarketContext. rewrite windowEventsFor_relevant. reflexivity.
Qed.

(** *** Where market context comes from *)

(** Every event that enters the market context of a trade is a market-feed
    event of the log.  It lies in the primary window, or the primary window
    is empty and the event lies within 10 s of the trade and within the
    window width of the nearest event, which is at most 30 s away.  With
    the width of the source no context event is farther than 10 s from the
    trade. *)
Theorem context_events_are_near (W : Z) (M : list EventRecord) (T : Z) (e : EventRecord) :
  e ∈ windowEventsFor W M T ->
  e ∈ M /\ ev_src e = market_ws
  /\ ((T - W <= ev_t e <= T + W)
      \/ (collect (T - W) (T + W) M = []
          /\ T - 10000 <= ev_t e <= T + 10000
          /\ exists nearest minDiff,
               closest T M = Some (nearest, minDiff) /\ minDiff <= 30000
               /\ ev_t nearest - W <= ev_t e <= ev_t nearest + W))
  /\ (W = MARKET_WINDOW_MS -> Z.abs (ev_t e - T) <= 10000).
Proof.
  intros Hin.
  assert (Hcases :
    e ∈ M /\ ev_src e = market_ws
    /\ ((T - W <= ev_t e <= T + W)
        \/ (collect (T - W) (T + W) M = []
            /\ T - 10000 <= ev_t e <= T + 10000
            /\ exists nearest minDiff,
                 closest T M = Some (nearest, minDiff) /\ minDiff <= 30000
                 /\ ev_t nearest - W <= ev_t e <= ev_t nearest + W))).
  { unfold windowEventsFor in Hin.
    destruct (collect (T - W) (T + W) M) as [|x l] eqn:Eprim.
    - destruct M as [|m0 M']; [apply elem_of_nil in Hin; contradiction|].
      destruct (closest T (m0 :: M')) as [[c d]|] eqn:Ec;
        [|apply elem_of_nil in Hin; contradiction].
      destruct (Z.leb_spec d 30000) as [Hle|Hgt];
        [|apply elem_of_nil in Hin; contradiction].
      rewrite sortBy_perm in Hin. unfold collect in Hin.
      apply list_elem_of_filter in Hin as [(Hsrc & Hlo & Hhi) HinM].
      unfold extendedWindowStart, extendedWindowEnd in *.
      split; [exact HinM|]. split; [exact Hsrc|]. right.
      split; [reflexivity|]. split; [lia|]. exists c, d. repeat split; try assumption; lia.
    - rewrite <- Eprim in Hin. unfold collect in Hin.
      apply list_elem_of_filter in Hin as [(Hsrc & Hlo & Hhi) HinM].
      split; [exact HinM|]. split; [exact Hsrc|]. left. lia. }
  destruct Hcases as (H1 & H2 & H3).
  split; [exact H1|]. split; [exact H2|]. split; [exact H3|].
  intros ->. unfold MARKET_WINDOW_MS in *. destruct H3 as [H3|(_ & H3 & _)]; lia.
Qed.

Lemma context_events_are_near_witness :
  snapshotAt 10000 ∈ windowEventsFor 3000 [snapshotAt 10000; snapshotAt 50000] 1000
  /\ Z.abs (ev_t (snapshotAt 10000) - 1000) <= 10000.
Proof.
  assert (Hin : snapshotAt 10000
                ∈ windowEventsFor 3000 [snapshotAt 10000; snapshotAt 50000] 1000).
  { vm_compute. apply elem_of_cons. left. reflexivity. }
  split; [exact Hin|].
  exact (proj2 (proj2 (proj2 (context_events_are_near 3000 _ 1000 _ Hin))) eq_refl).
Defined.

(** *** The market summary *)

Lemma sorted_head_le {A} (key : A -> Z) (l : list A) :
  StronglySorted (keyLe key) l ->
  Forall (fun x => default 0 (key <$> head l) <= key x) l.
Proof.
  intros Hs. destruct Hs as [|a l Hs Hall]; [constructor|].
  simpl. constructor; [lia|]. exact Hall.
Qed.

Lemma sorted_last_ge {A} (key : A -> Z) (l : list A) :
  StronglySorted (keyLe key) l ->
  Forall (fun x => key x <= default 0 (key <$> last l)) l.
Proof.
  induction 1 as [|a l Hs IH Hall]; [constructor|].
  destruct l as [|b l]; [constructor; [simpl; lia|constructor]|].
  change (last (a :: b :: l)) with (last (b :: l)).
  constructor; [|exact IH].
  inversion IH as [|? ? Hb _]; subst.
  inversion Hall as [|? ? Hab _]; subst. unfold keyLe in Hab. lia.
Qed.

Lemma head_elem {A} (l : list A) x : head l = Some x -> x ∈ l.
Proof. destruct l; [discriminate|intros [= ->]; apply elem_of_cons; left; reflexivity]. Qed.

Lemma last_elem {A} (l : list A) x : last l = Some x -> x ∈ l.
Proof.
  induction l as [|a l IH]; [discriminate|].
  destruct l as [|b l]; [intros [= ->]; apply elem_of_cons; left; reflexivity|].
  intros H. apply elem_of_cons. right. apply IH, H.
Qed.

Lemma summaryOf_span (W T : Z) (ws : list EventRecord) :
  StronglySorted (keyLe ev_t) ws ->
  Forall (fun e => firstEventTime (rawDataRef (summaryOf W T ws)) <= ev_t e
                   <= lastEventTime (rawDataRef (summaryOf W T ws))) ws.
Proof.
  intros Hs. simpl.
  pose proof (sorted_head_le ev_t ws Hs) as H1.
  pose proof (sorted_last_ge ev_t ws Hs) as H2.
  rewrite Forall_forall in *. intros e He. split; [apply H1, He|apply H2, He].
Qed.

Lemma summaryOf_before (W T : Z) (ws : list EventRecord) :
  match beforeTrade (summaryOf W T ws) with
  | Some l =>
      l <> [] /\ length l = Nat.min 10 (length (filter (fun e => ev_t e < T) ws))
      /\ Forall (fun x => snap_t x < T) l
  | None => Forall (fun e => T <= ev_t e) ws
  end.
Proof.
  simpl. destruct (filter (fun e => ev_t e < T) ws) as [|e0 l0] eqn:Ef.
  - simpl. apply Forall_forall. intros e He.
    destruct (decide (ev_t e < T)) as [Hlt|]; [|lia].
    assert (Hin : e ∈ filter (fun e => ev_t e < T) ws) by (apply list_elem_of_filter; tauto).
    rewrite Ef in Hin. apply elem_of_nil in Hin. contradiction.
  - assert (Hall : Forall (fun x => snap_t x < T) (snapshotOf <$> (e0 :: l0))).
    { rewrite <- Ef. rewrite Forall_fmap. apply Forall_forall. intros e He.
      apply list_elem_of_filter in He as [He _]. exact He. }
    set (eb := snapshotOf <$> e0 :: l0) in *.
    assert (Hlen : length eb = length (e0 :: l0)) by (unfold eb; apply length_fmap).
    change (match eb with
            | [] => None
            | _ => Some (drop (length eb - SNAPSHOTS_BEFORE_TRADE) eb)
            end) with (Some (drop (length eb - SNAPSHOTS_BEFORE_TRADE) eb)).
    cbv beta iota.
    assert (Hd : length (drop (length eb - SNAPSHOTS_BEFORE_TRADE) eb)
                 = Nat.min 10 (length (e0 :: l0))).
    { rewrite length_drop, Hlen. unfold SNAPSHOTS_BEFORE_TRADE. simpl length. lia. }
    split; [|split].
    + intros Hnil. rewrite Hnil in Hd. simpl in Hd. lia.
    + exact Hd.
    + apply Forall_drop, Hall.
Qed.

Lemma summaryOf_after (W T : Z) (ws : list EventRecord) :
  match afterTrade (summaryOf W T ws) with
  | Some l =>
      l <> [] /\ length l = Nat.min 10 (length (filter (fun e => T < ev_t e) ws))
      /\ Forall (fun x => T < snap_t x) l
  | None => Forall (fun e => ev_t e <= T) ws
  end.
Proof.
  simpl. destruct (filter (fun e => T < ev_t e) ws) as [|e0 l0] eqn:Ef.
  - simpl. apply Forall_forall. intros e He.
    destruct (decide (T < ev_t e)) as [Hlt|]; [|lia].
    assert (Hin : e ∈ filter (fun e => T < ev_t e) ws) by (apply list_elem_of_filter; tauto).
    rewrite Ef in Hin. apply elem_of_nil in Hin. contradiction.
  - assert (Hall : Forall (fun x => T < snap_t x) (snapshotOf <$> (e0 :: l0))).
    { rewrite <- Ef. rewrite Forall_fmap. apply Forall_forall. intros e He.
      apply list_elem_of_filter in He as [He _]. exact He. }
    set (ea := snapshotOf <$> e0 :: l0) in *.
    assert (Hlen : length ea = length (e0 :: l0)) by (unfold ea; apply length_fmap).
    change (match ea with
            | [] => None
            | _ => Some (take SNAPSHOTS_AFTER_TRADE ea)
            end) with (Some (take SNAPSHOTS_AFTER_TRADE ea)).
    cbv beta iota.
    assert (Hd : length (take SNAPSHOTS_AFTER_TRADE ea) = Nat.min 10 (length (e0 :: l0))).
    { rewrite length_take, Hlen. unfold SNAPSHOTS_AFTER_TRADE. reflexivity. }
    split; [|split].
    + intros Hnil. rewrite Hnil in Hd. simpl in Hd. lia.
    + exact Hd.
    + apply Forall_take, Hall.
Qed.

Lemma summaryOf_at (W T : Z) (ws : list EventRecord) :
  match atTrade (summaryOf W T ws) with
  | Some a => snap_t a = T
  | None => Forall (fun e => ev_t e <> T) ws
  end.
Proof.
  simpl. destruct (last (snapshotOf <$> filter (fun e => ev_t e = T) ws)) as [a|] eqn:El.
  - apply last_elem in El. apply list_elem_of_fmap in El as (e & -> & He).
    apply list_elem_of_filter in He as [He _]. exact He.
  - apply last_None in El. apply fmap_nil_inv in El.
    apply Forall_forall. intros e He Ht.
    assert (Hin : e ∈ filter (fun e => ev_t e = T) ws) by (apply list_elem_of_filter; tauto).
    rewrite El in Hin. apply elem_of_nil in Hin. contradiction.
Qed.

Lemma addMarketContext_summary (W : Z) (M : list EventRecord) (tr : MergedTrade) :
  windowEventsFor W M (mt_timestampMs tr) <> [] ->
  mt_marketSummary (addMarketContext W M tr)
  = Some (summaryOf W (mt_timestampMs tr)
            (sortBy ev_t (windowEventsFor W M (mt_timestampMs tr)))).
Proof.
  intros Hne. unfold addMarketContext.
  destruct (windowEventsFor W M (mt_timestampMs tr)); [contradiction|reflexivity].
Qed.

(** A trade with context events gets a summary that counts them, spans
    their times, and splits them around the trade time: at most ten
    snapshots before it, at most ten after it, one at it; a part is left
    out exactly when no event falls into it. *)
Theorem market_summary_shape (W : Z) (M : list EventRecord) (tr : MergedTrade) :
  windowEventsFor W M (mt_timestampMs tr) <> [] ->
  exists s,
    mt_marketSummary (addMarketContext W M tr) = Some s
    /\ windowMs s = W
    /\ eventCount s = length (windowEventsFor W M (mt_timestampMs tr))
    /\ Forall (fun e => firstEventTime (rawDataRef s) <= ev_t e
                        <= lastEventTime (rawDataRef s))
              (windowEventsFor W M (mt_timestampMs tr))
    /\ match beforeTrade s with
       | Some l =>
           l <> []
           /\ length l
              = Nat.min 10 (length (filter (fun e => ev_t e < mt_timestampMs tr)
                                      (windowEventsFor W M (mt_timestampMs tr))))
           /\ Forall (fun x => snap_t x < mt_timestampMs tr) l
       | None => Forall (fun e => mt_timestampMs tr <= ev_t e)
                   (windowEventsFor W M (mt_timestampMs tr))
       end
    /\ match afterTrade s with
       | Some l =>
           l <> []
           /\ length l
              = Nat.min 10 (length (filter (fun e => mt_timestampMs tr < ev_t e)
                                      (windowEventsFor W M (mt_timestampMs tr))))
           /\ Forall (fun x => mt_timestampMs tr < snap_t x) l
       | None => Forall (fun e => ev_t e <= mt_timestampMs tr)
                   (windowEventsFor W M (mt_timestampMs tr))
       end
    /\ match atTrade s with
       | Some a => snap_t a = mt_timestampMs tr
       | None => Forall (fun e => ev_t e <> mt_timestampMs tr)
                   (windowEventsFor W M (mt_timestampMs tr))
       end.
Proof.
  intros Hne. eexists. split; [apply addMarketContext_summary, Hne|].
  set (T := mt_timestampMs tr). set (ws := windowEventsFor W M T).
  pose proof (sortBy_perm ev_t ws) as Hperm.
  split; [reflexivity|].
  split; [apply (length_sortBy ev_t)|].
  split.
  { rewrite <- Hperm. apply summaryOf_span, sortBy_sorted. }
  split.
  { pose proof (summaryOf_before W T (sortBy ev_t ws)) as H.
    destruct (beforeTrade (summaryOf W T (sortBy ev_t ws))).
    - rewrite Hperm in H. exact H.
    - rewrite Hperm in H. exact H. }
  split.
  { pose proof (summaryOf_after W T (sortBy ev_t ws)) as H.
    destruct (afterTrade (summaryOf W T (sortBy ev_t ws))).
    - rewrite Hperm in H. exact H.
    - rewrite Hperm in H. exact H. }
  pose proof (summaryOf_at W T (sortBy ev_t ws)) as H.
  destruct (atTrade (summaryOf W T (sortBy ev_t ws))).
  - exact H.
  - rewrite Hperm in H. exact H.
Qed.

Lemma market_summary_shape_witness :
  exists s,
    mt_marketSummary (addMarketContext 3000 [snapshotAt 900; snapshotAt 1000; snapshotAt 1200]
                        (createNew "0xabc" (restTradeAt "0xabc" 1000))) = Some s
    /\ eventCount s = 3%nat.
Proof.
  assert (Hne : windowEventsFor 3000 [snapshotAt 900; snapshotAt 1000; snapshotAt 1200]
                  (mt_timestampMs (createNew "0xabc" (restTradeAt "0xabc" 1000))) <> []).
  { vm_compute. discriminate. }
  destruct (market_summary_shape 3000 _ _ Hne) as (s & Hs & _ & Hc & _).
  exists s. split; [exact Hs|]. rewrite Hc. vm_compute. reflexivity.
Defined.

Lemma qmin_cases a b : (qmin a b <= a)%Q /\ (qmin a b <= b)%Q /\ (qmin a b = a \/ qmin a b = b).
Proof.
  unfold qmin. destruct (Qle_bool a b) eqn:E.
  - apply Qle_bool_iff in E. repeat split; [apply Qle_refl|exact E|left; reflexivity].
  - assert (Hlt : (b < a)%Q).
    { apply Qnot_le_lt. intros H. apply Qle_bool_iff in H. congruence. }
    repeat split; [apply Qlt_le_weak, Hlt|apply Qle_refl|right; reflexivity].
Qed.

Lemma qmax_cases a b : (a <= qmax a b)%Q /\ (b <= qmax a b)%Q /\ (qmax a b = a \/ qmax a b = b).
Proof.
  unfold qmax. destruct (Qle_bool a b) eqn:E.
  - apply Qle_bool_iff in E. repeat split; [exact E|apply Qle_refl|right; reflexivity].
  - assert (Hlt : (b < a)%Q).
    { apply Qnot_le_lt. intros H. apply Qle_bool_iff in H. congruence. }
    repeat split; [apply Qle_refl|apply Qlt_le_weak, Hlt|left; reflexivity].
Qed.

Lemma foldl_qmin_spec (r : list num) (x : num) :
  (foldl qmin x r <= x)%Q
  /\ Forall (fun y => (foldl qmin x r <= y)%Q) r
  /\ foldl qmin x r ∈ x :: r.
Proof.
  revert x. induction r as [|y r IH]; intros x; simpl.
  - split; [apply Qle_refl|]. split; [constructor|apply elem_of_cons; left; reflexivity].
  - destruct (IH (qmin x y)) as (H1 & H2 & H3).
    destruct (qmin_cases x y) as (Hx & Hy & Hc).
    split; [eapply Qle_trans; eassumption|].
    split; [constructor; [eapply Qle_trans; eassumption|exact H2]|].
    apply elem_of_cons in H3 as [H3|H3].
    + rewrite H3. destruct Hc as [->| ->].
      * apply elem_of_cons; left; reflexivity.
      * apply elem_of_cons; right. apply elem_of_cons; left; reflexivity.
    + apply elem_of_cons; right. apply elem_of_cons; right. exact H3.
Qed.

Lemma foldl_qmax_spec (r : list num) (x : num) :
  (x <= foldl qmax x r)%Q
  /\ Forall (fun y => (y <= foldl qmax x r)%Q) r
  /\ foldl qmax x r ∈ x :: r.
Proof.
  revert x. induction r as [|y r IH]; intros x; simpl.
  - split; [apply Qle_refl|]. split; [constructor|apply elem_of_cons; left; reflexivity].
  - destruct (IH (qmax x y)) as (H1 & H2 & H3).
    destruct (qmax_cases x y) as (Hx & Hy & Hc).
    split; [eapply Qle_trans; eassumption|].
    split; [constructor; [eapply Qle_trans; eassumption|exact H2]|].
    apply elem_of_cons in H3 as [H3|H3].
    + rewrite H3. destruct Hc as [->| ->].
      * apply elem_of_cons; left; reflexivity.
      * apply elem_of_cons; right. apply elem_of_cons; left; reflexivity.
    + apply elem_of_cons; right. apply elem_of_cons; right. exact H3.
Qed.

Lemma calcStats_bounds (arr : list num) : boundsOf arr (calcStats arr).
Proof.
  destruct arr as [|x r]; [reflexivity|]. simpl.
  destruct (foldl_qmin_spec r x) as (A1 & A2 & A3).
  destruct (foldl_qmax_spec r x) as (B1 & B2 & B3).
  split; [|split; assumption].
  constructor; [split; assumption|].
  rewrite Forall_forall in *. intros y Hy. split; [apply A2, Hy|apply B2, Hy].
Qed.

Lemma stats_cover (field : EventRecord -> option num) (ws : list EventRecord)
    (e : EventRecord) (b : num) :
  e ∈ ws -> field e = Some b ->
  exists lo hi,
    statMin (calcStats (omap field ws)) = Some lo
    /\ statMax (calcStats (omap field ws)) = Some hi
    /\ (lo <= b)%Q /\ (b <= hi)%Q
    /\ lo ∈ omap field ws /\ hi ∈ omap field ws.
Proof.
  intros He Hb.
  assert (Hin : b ∈ omap field ws) by (apply list_elem_of_omap; eauto).
  pose proof (calcStats_bounds (omap field ws)) as Hbd.
  destruct (calcStats (omap field ws)) as [[[lo hi] avg]|]; simpl in Hbd.
  - destruct Hbd as (Hall & Hlo & Hhi). rewrite Forall_forall in Hall.
    destruct (Hall _ Hin) as [H1 H2].
    exists lo, hi. simpl. repeat split; assumption.
  - rewrite Hbd in Hin. apply elem_of_nil in Hin. contradiction.
Qed.

(** The statistics of a summary bound the numbers they summarise: each
    best bid, best ask, spread and mid price of a context event lies
    between the reported minimum and maximum of its kind.  The two event
    counters together never exceed the event count. *)
Theorem market_summary_stats (W : Z) (M : list EventRecord) (tr : MergedTrade)
    (e : EventRecord) :
  e ∈ windowEventsFor W M (mt_timestampMs tr) ->
  exists s,
    mt_marketSummary (addMarketContext W M tr) = Some s
    /\ (forall b, ev_bestBid e = Some b ->
        exists lo hi, bidMin (stats s) = Some lo /\ bidMax (stats s) = Some hi
                      /\ (lo <= b)%Q /\ (b <= hi)%Q)
    /\ (forall b, ev_bestAsk e = Some b ->
        exists lo hi, askMin (stats s) = Some lo /\ askMax (stats s) = Some hi
                      /\ (lo <= b)%Q /\ (b <= hi)%Q)
    /\ (forall b, ev_spread e = Some b ->
        exists lo hi, spreadMin (stats s) = Some lo /\ spreadMax (stats s) = Some hi
                      /\ (lo <= b)%Q /\ (b <= hi)%Q)
    /\ (forall b, ev_mid e = Some b ->
        exists lo hi, midMin (stats s) = Some lo /\ midMax (stats s) = Some hi
                      /\ (lo <= b)%Q /\ (b <= hi)%Q)
    /\ (priceChangeCount (stats s) + lastTradePriceCount (stats s) <= eventCount s)%nat.
Proof.
  intros He.
  assert (Hne : windowEventsFor W M (mt_timestampMs tr) <> []).
  { intros Hnil. rewrite Hnil in He. apply elem_of_nil in He. contradiction. }
  eexists. split; [apply addMarketContext_summary, Hne|].
  set (ws := sortBy ev_t (windowEventsFor W M (mt_timestampMs tr))).
  assert (He' : e ∈ ws) by (unfold ws; rewrite sortBy_perm; exact He).
  assert (Hcover : forall field b, field e = Some b ->
            exists lo hi, statMin (calcStats (omap field ws)) = Some lo
                          /\ statMax (calcStats (omap field ws)) = Some hi
                          /\ (lo <= b)%Q /\ (b <= hi)%Q).
  { intros field b Hb. destruct (stats_cover field ws e b He' Hb) as (lo & hi & H).
    exists lo, hi. tauto. }
  split; [exact (Hcover ev_bestBid)|].
  split; [exact (Hcover ev_bestAsk)|].
  split; [exact (Hcover ev_spread)|].
  split; [exact (Hcover ev_mid)|].
  cbn [stats summaryOf priceChangeCount lastTradePriceCount eventCount].
  unfold countType. generalize ws. clear. intros ws.
  induction ws as [|x ws IH]; [simpl; lia|].
  destruct (decide (ev_type x = "price_change")) as [H1|H1];
    destruct (decide (ev_type x = "last_trade_price")) as [H2|H2].
  - rewrite H1 in H2. discriminate H2.
  - rewrite filter_cons_True by exact H1. rewrite filter_cons_False by exact H2.
    simpl length. lia.
  - rewrite filter_cons_False by exact H1. rewrite filter_cons_True by exact H2.
    simpl length. lia.
  - rewrite filter_cons_False by exact H1. rewrite filter_cons_False by exact H2.
    simpl length. lia.
Qed.

Lemma market_summary_stats_witness :
  exists s,
    mt_marketSummary (addMarketContext 3000 [snapshotAt 1000]
                        (createNew "0xabc" (restTradeAt "0xabc" 1000))) = Some s
    /\ (priceChangeCount (stats s) + lastTradePriceCount (stats s) <= eventCount s)%nat.
Proof.
  assert (He : snapshotAt 1000
               ∈ windowEventsFor 3000 [snapshotAt 1000]
                   (mt_timestampMs (createNew "0xabc" (restTradeAt "0xabc" 1000)))).
  { vm_compute. apply elem_of_cons. left. reflexivity. }
  destruct (market_summary_stats 3000 _ _ _ He) as (s & Hs & _ & _ & _ & _ & Hc).
  exists s. split; [exact Hs|exact Hc].
Defined.

(** *** How far the fallback reaches *)

Lemma collect_none lo hi (M : list EventRecord) :
  (forall e, e ∈ M -> ev_src e = market_ws -> ~ (lo <= ev_t e <= hi)) ->
  collect lo hi M = [].
Proof.
  intros Hnone. unfold collect. induction M as [|e M IH]; [reflexivity|].
  rewrite filter_cons_False.
  - apply IH. intros e' He'. apply Hnone. apply elem_of_cons. right. exact He'.
  - unfold inWindow. intros (Hsrc & Hlo & Hhi).
    apply (Hnone e); [apply elem_of_cons; left; reflexivity|exact Hsrc|lia].
Qed.

(** A trade whose nearest market-feed event is more than 10 s away gets no
    context events, also when that event is within the 30 s of the
    fallback: the window around the nearest event is cut at the trade time
    plus or minus 10 s, where no event lies.  The step then leaves the
    trade as it is. *)
Theorem fallback_stops_at_ten_seconds (W : Z) (M : list EventRecord) (T : Z)
    (nearest : EventRecord) (minDiff : Z) :
  W <= 10000 ->
  closest T M = Some (nearest, minDiff) ->
  10000 < minDiff ->
  collect (T - W) (T + W) M = []
  /\ windowEventsFor W M T = []
  /\ forall trade, mt_timestampMs trade = T -> addMarketContext W M trade = trade.
Proof.
  intros HW Hclosest Hfar.
  pose proof (closest_inv T M) as Hinv. rewrite Hclosest in Hinv. simpl in Hinv.
  destruct Hinv as (_ & _ & _ & Hmin).
  assert (Hout : forall lo hi, T - 10000 <= lo -> hi <= T + 10000 -> collect lo hi M = []).
  { intros lo hi Hlo Hhi. apply collect_none. intros e He Hsrc Hin.
    specialize (Hmin e He Hsrc). lia. }
  assert (Hprimary : collect (T - W) (T + W) M = []) by (apply Hout; lia).
  assert (Hwin : windowEventsFor W M T = []).
  { unfold windowEventsFor. rewrite Hprimary, Hclosest.
    destruct M as [|m0 M']; [reflexivity|].
    destruct (minDiff <=? 30000); [|reflexivity].
    rewrite Hout; [reflexivity| |].
    - unfold extendedWindowStart. lia.
    - unfold extendedWindowEnd. lia. }
  split; [exact Hprimary|]. split; [exact Hwin|].
  intros trade <-. apply addMarketContext_none. exact Hwin.
Qed.

(** A trade at 1,000 s whose only snapshot lies at 1,020 s. *)
Lemma fallback_stops_at_ten_seconds_witness :
  closest 1000000 [snapshotAt 1020000] = Some (snapshotAt 1020000, 20000)
  /\ windowEventsFor MARKET_WINDOW_MS [snapshotAt 1020000] 1000000 = []
  /\ rawTimes <$> mergeTrades [restTradeAt "0xabc" 1000000] [snapshotAt 1020000] [] = [None].
Proof.
  assert (Hc : closest 1000000 [snapshotAt 1020000] = Some (snapshotAt 1020000, 20000))
    by reflexivity.
  split; [exact Hc|]. split; [|vm_compute; reflexivity].
  refine (proj1 (proj2 (fallback_stops_at_ten_seconds MARKET_WINDOW_MS _ _ _ _ _ Hc _))).
  - unfold MARKET_WINDOW_MS. lia.
  - lia.
Defined.

End MergeViewsSpec.

(** ** The collector: buffers, files and uploads *)

Module PromotionViewsSpec.
Import JsArray JsArraySpec Sanitize Promotion PromotionSpec PromotionViews.

Lemma activityGet_activitySet slug t m : activityGet slug (activitySet slug t m) = Some t.
Proof.
  induction m as [|[s t'] m IH]; simpl.
  - destruct (decide (slug = slug)); [reflexivity|contradiction].
  - destruct (decide (slug = s)) as [Heq|Hne]; simpl.
    + destruct (decide (slug = slug)); [reflexivity|contradiction].
    + destruct (decide (slug = s)); [contradiction|exact IH].
Qed.

Lemma activityGet_activitySet_ne slug slug' t m :
  slug' <> slug -> activityGet slug' (activitySet slug t m) = activityGet slug' m.
Proof.
  intros Hne. induction m as [|[s t'] m IH]; simpl.
  - destruct (decide (slug' = slug)); [contradiction|reflexivity].
  - destruct (decide (slug = s)) as [Heq|Hns]; simpl.
    + subst s. destruct (decide (slug' = slug)); [contradiction|reflexivity].
    + destruct (decide (slug' = s)); [reflexivity|exact IH].
Qed.

(** [flushSlugBuffer] with events in the buffer.  If the write throws, the
    call is rejected and nothing has changed.  Otherwise the file holds
    the buffered events, together with its old events if the file could
    be read and alone if reading it threw: the old events are then lost.
    The file is sorted by receive time, the buffer is empty, the counter
    has advanced by the number of buffered events, and no other file, no
    object of the bucket and no activity time has changed.  Without
    buffered events nothing changes and nothing is read or written. *)
Theorem flush_merges_buffer_sorted (env : Env) (st : State) (slug : jsstring) :
  match slugEventBuffers st !! slug with
  | Some (e :: b) =>
      if flushWriteThrows env (fileNameOf slug) then flushSlugBuffer env st slug = None
      else
        exists st' l,
          flushSlugBuffer env st slug = Some st'
          /\ files st' !! fileNameOf slug = Some l
          /\ l ≡ₚ (if flushReadThrows env (fileNameOf slug) then []
                   else default [] (files st !! fileNameOf slug)) ++ e :: b
          /\ StronglySorted (keyLe receivedAtMs) l
          /\ slugEventBuffers st' !! slug = Some []
          /\ slugEventCounts st' !! slug
             = Some (default 0 (slugEventCounts st !! slug) + Z.of_nat (length (e :: b)))
          /\ (forall f, f <> fileNameOf slug -> files st' !! f = files st !! f)
          /\ remote st' = remote st
          /\ slugLastActivity st' = slugLastActivity st
  | _ => flushSlugBuffer env st slug = Some st
  end.
Proof.
  unfold flushSlugBuffer.
  destruct (slugEventBuffers st !! slug) as [[|e b]|]; [reflexivity| |reflexivity].
  destruct (flushWriteThrows env (fileNameOf slug)); [reflexivity|].
  eexists. eexists. split; [reflexivity|].
  cbn [files slugEventBuffers slugEventCounts remote slugLastActivity].
  split; [apply lookup_insert_eq|].
  split; [apply sortBy_perm|].
  split; [apply sortBy_sorted|].
  split; [apply lookup_insert_eq|].
  split; [apply lookup_insert_eq|].
  split; [|split; reflexivity].
  intros f Hne. apply lookup_insert_ne. congruence.
Qed.

Lemma afterFlush_read (env : Env) (st : State) (slug : jsstring) :
  flushReadThrows env (fileNameOf slug) = false \/ default [] (slugEventBuffers st !! slug) = [] ->
  afterFlush env st slug = stored st slug.
Proof.
  unfold afterFlush, stored.
  destruct (slugEventBuffers st !! slug) as [[|e b]|]; simpl;
    try (intros _; rewrite app_nil_r; reflexivity).
  intros [->|Hnil]; [reflexivity|discriminate Hnil].
Qed.

Lemma afterFlush_unread (env : Env) (st : State) (slug : jsstring) :
  flushReadThrows env (fileNameOf slug) = true ->
  default [] (slugEventBuffers st !! slug) <> [] ->
  afterFlush env st slug = default [] (slugEventBuffers st !! slug).
Proof.
  unfold afterFlush. intros Hread Hne.
  destruct (slugEventBuffers st !! slug) as [[|e b]|]; simpl in *;
    [contradiction|rewrite Hread; reflexivity|contradiction].
Qed.

Lemma flush_stored (env : Env) (st st' : State) (slug : jsstring) :
  flushSlugBuffer env st slug = Some st' ->
  stored st' slug ≡ₚ afterFlush env st slug
  /\ default [] (files st' !! fileNameOf slug) ≡ₚ afterFlush env st slug
  /\ default [] (slugEventBuffers st' !! slug) = []
  /\ (is_Some (files st !! fileNameOf slug) -> is_Some (files st' !! fileNameOf slug))
  /\ remote st' = remote st
  /\ slugFileStreams st' = slugFileStreams st.
Proof.
  unfold stored, afterFlush, flushSlugBuffer.
  destruct (slugEventBuffers st !! slug) as [[|e b]|] eqn:Eb.
  - intros [= <-]. rewrite Eb. simpl. rewrite app_nil_r.
    repeat split; try reflexivity; tauto.
  - destruct (flushWriteThrows env (fileNameOf slug)); [discriminate|].
    intros [= <-]. cbn [files slugEventBuffers remote slugFileStreams].
    rewrite !lookup_insert_eq. simpl default. rewrite app_nil_r.
    split; [apply sortBy_perm|]. split; [apply sortBy_perm|].
    split; [reflexivity|]. split; [eauto|]. split; reflexivity.
  - intros [= <-]. rewrite Eb. simpl. rewrite app_nil_r.
    repeat split; try reflexivity; tauto.
Qed.

Lemma flush_stored_other (env : Env) (st st' : State) (slug slug' : jsstring) :
  flushSlugBuffer env st slug = Some st' ->
  fileNameOf slug' <> fileNameOf slug ->
  stored st' slug' = stored st slug'.
Proof.
  intros Hflush Hne. assert (Hs : slug' <> slug) by congruence.
  unfold stored. unfold flushSlugBuffer in Hflush.
  destruct (slugEventBuffers st !! slug) as [[|e b]|];
    try (injection Hflush as <-; reflexivity).
  destruct (flushWriteThrows env (fileNameOf slug)); [discriminate|].
  injection Hflush as <-. cbn [files slugEventBuffers].
  rewrite lookup_insert_ne by congruence. rewrite lookup_insert_ne by congruence.
  reflexivity.
Qed.

(** [addEventToBuffer] never loses the new event, sets the slug's last
    activity to the time of the call, leaves other slugs' activity and
    the events of markets with another file alone, and uploads nothing.
    The old events of the slug are kept too, unless the buffer has reached
    [BUFFER_MAX_SIZE], reading the file throws and the write succeeds:
    then the events of the buffer are all that is left.  No buffer stays
    at [BUFFER_MAX_SIZE] if none was there before, unless the write of the
    flush throws. *)
Theorem addEventToBuffer_keeps_event (now : Z) (env : Env) (st : State) (slug : jsstring)
    (event : EventRecord) :
  event ∈ stored (addEventToBuffer now env st slug event) slug
  /\ (flushReadThrows env (fileNameOf slug) = false
      \/ flushWriteThrows env (fileNameOf slug) = true
      \/ (length (default [] (slugEventBuffers st !! slug)) + 1 < BUFFER_MAX_SIZE)%nat ->
      stored (addEventToBuffer now env st slug event) slug ≡ₚ stored st slug ++ [event])
  /\ (flushReadThrows env (fileNameOf slug) = true ->
      flushWriteThrows env (fileNameOf slug) = false ->
      (BUFFER_MAX_SIZE <= length (default [] (slugEventBuffers st !! slug)) + 1)%nat ->
      stored (addEventToBuffer now env st slug event) slug
      ≡ₚ default [] (slugEventBuffers st !! slug) ++ [event])
  /\ activityGet slug (slugLastActivity (addEventToBuffer now env st slug event)) = Some now
  /\ (forall slug', slug' <> slug ->
        activityGet slug' (slugLastActivity (addEventToBuffer now env st slug event))
        = activityGet slug' (slugLastActivity st))
  /\ (forall slug', fileNameOf slug' <> fileNameOf slug ->
        stored (addEventToBuffer now env st slug event) slug' = stored st slug')
  /\ remote (addEventToBuffer now env st slug event) = remote st
  /\ (buffersBounded st -> flushWriteThrows env (fileNameOf slug) = false ->
      buffersBounded (addEventToBuffer now env st slug event)).
Proof.
  unfold addEventToBuffer.
  set (old := default [] (slugEventBuffers st !! slug)).
  set (buffer := old ++ [event]).
  set (st1 := {| files := files st; remote := remote st;
                 slugFileStreams := slugFileStreams st;
                 slugLastActivity := activitySet slug now (slugLastActivity st);
                 slugEventCounts := slugEventCounts st;
                 slugEventBuffers := <[slug := buffer]> (slugEventBuffers st) |}).
  assert (Hbuf1 : slugEventBuffers st1 !! slug = Some buffer) by apply lookup_insert_eq.
  assert (Hlenb : length buffer = (length old + 1)%nat).
  { unfold buffer. rewrite length_app. reflexivity. }
  assert (Hst1 : stored st1 slug = stored st slug ++ [event]).
  { unfold stored. rewrite Hbuf1. cbn [files st1]. simpl default. unfold buffer, old.
    rewrite app_assoc. reflexivity. }
  assert (Hother1 : forall slug', slug' <> slug -> stored st1 slug' = stored st slug').
  { intros slug' Hne. unfold stored, st1. cbn [files slugEventBuffers].
    rewrite lookup_insert_ne by congruence. reflexivity. }
  assert (Hbound1 : buffersBounded st -> (length buffer < BUFFER_MAX_SIZE)%nat ->
                    buffersBounded st1).
  { intros Hb Hlt slug' b' Hlook. unfold st1 in Hlook. cbn [slugEventBuffers] in Hlook.
    destruct (decide (slug' = slug)) as [->|Hne].
    - rewrite lookup_insert_eq in Hlook. injection Hlook as <-. exact Hlt.
    - rewrite lookup_insert_ne in Hlook by congruence. exact (Hb _ _ Hlook). }
  assert (Hunchanged :
    event ∈ stored st1 slug
    /\ stored st1 slug ≡ₚ stored st slug ++ [event]
    /\ activityGet slug (slugLastActivity st1) = Some now
    /\ (forall slug', slug' <> slug ->
          activityGet slug' (slugLastActivity st1) = activityGet slug' (slugLastActivity st))
    /\ (forall slug', fileNameOf slug' <> fileNameOf slug -> stored st1 slug' = stored st slug')
    /\ remote st1 = remote st).
  { split; [rewrite Hst1; apply elem_of_app; right; apply list_elem_of_singleton; reflexivity|].
    split; [rewrite Hst1; reflexivity|].
    split; [apply activityGet_activitySet|].
    split; [intros slug' Hne; apply activityGet_activitySet_ne, Hne|].
    split; [intros slug' Hne; apply Hother1; congruence|reflexivity]. }
  destruct Hunchanged as (U1 & U2 & U3 & U4 & U5 & U6).
  destruct (Nat.leb_spec BUFFER_MAX_SIZE (length buffer)) as [Hfull|Hroom].
  2:{ split; [exact U1|]. split; [intros _; exact U2|].
      split; [intros _ _ Hge; lia|].
      split; [exact U3|]. split; [exact U4|]. split; [exact U5|]. split; [exact U6|].
      intros Hb _. apply Hbound1; assumption. }
  destruct (flushSlugBuffer env st1 slug) as [st2|] eqn:Eflush; cbn [from_option id].
  2:{ pose proof (flushSlugBuffer_None _ _ _ Eflush) as Hw.
      split; [exact U1|]. split; [intros _; exact U2|].
      split; [intros _ Hnw; congruence|].
      split; [exact U3|]. split; [exact U4|]. split; [exact U5|]. split; [exact U6|].
      intros _ Hnw. congruence. }
  destruct (flush_stored env st1 st2 slug Eflush) as (F1 & _ & F3 & _ & F5 & _).
  pose proof (flushSlugBuffer_activity env st1 slug st2 Eflush) as Fact.
  assert (Hne : default [] (slugEventBuffers st1 !! slug) <> []).
  { rewrite Hbuf1. simpl. unfold buffer. destruct old; discriminate. }
  assert (Hafter_read : flushReadThrows env (fileNameOf slug) = false ->
                        stored st2 slug ≡ₚ stored st slug ++ [event]).
  { intros Hread. rewrite F1, afterFlush_read by (left; exact Hread). rewrite Hst1. reflexivity. }
  assert (Hafter_unread : flushReadThrows env (fileNameOf slug) = true ->
                          stored st2 slug ≡ₚ old ++ [event]).
  { intros Hread. rewrite F1, (afterFlush_unread env st1 slug Hread Hne), Hbuf1. reflexivity. }
  assert (Hnowrite : flushWriteThrows env (fileNameOf slug) = false).
  { unfold flushSlugBuffer in Eflush. rewrite Hbuf1 in Eflush. unfold buffer in Eflush.
    destruct (old ++ [event]) as [|e b] eqn:Eapp; [destruct old; discriminate Eapp|].
    destruct (flushWriteThrows env (fileNameOf slug)); [discriminate Eflush|reflexivity]. }
  split.
  { destruct (flushReadThrows env (fileNameOf slug)) eqn:Eread.
    - rewrite (Hafter_unread eq_refl). apply elem_of_app. right.
      apply list_elem_of_singleton. reflexivity.
    - rewrite (Hafter_read eq_refl). apply elem_of_app. right.
      apply list_elem_of_singleton. reflexivity. }
  split.
  { intros [Hread|[Hw|Hlt]]; [exact (Hafter_read Hread)|congruence|lia]. }
  split; [intros Hread _ _; exact (Hafter_unread Hread)|].
  split; [rewrite Fact; exact U3|].
  split; [intros slug' Hne'; rewrite Fact; exact (U4 _ Hne')|].
  split.
  { intros slug' Hne'. rewrite (flush_stored_other env st1 st2 slug slug' Eflush Hne').
    exact (U5 _ Hne'). }
  split; [rewrite F5; exact U6|].
  intros Hb _ slug' b' Hlook.
  assert (Hcase : b' = [] \/ slugEventBuffers st !! slug' = Some b').
  { unfold flushSlugBuffer in Eflush. rewrite Hbuf1 in Eflush. unfold buffer in Eflush.
    destruct (old ++ [event]) as [|e b] eqn:Eapp; [destruct old; discriminate Eapp|].
    destruct (flushWriteThrows env (fileNameOf slug)); [discriminate Eflush|].
    injection Eflush as <-. cbn [slugEventBuffers] in Hlook.
    destruct (decide (slug' = slug)) as [->|Hne'].
    - rewrite lookup_insert_eq in Hlook. injection Hlook as <-. left. reflexivity.
    - rewrite lookup_insert_ne in Hlook by congruence.
      unfold st1 in Hlook. cbn [slugEventBuffers] in Hlook.
      rewrite lookup_insert_ne in Hlook by congruence. right. exact Hlook. }
  destruct Hcase as [->|Hold]; [unfold BUFFER_MAX_SIZE; simpl; lia|].
  exact (Hb _ _ Hold).
Qed.

Lemma addEventToBuffer_keeps_event_witness :
  buffersBounded scene
  /\ buffersBounded (addEventToBuffer 1 uploadsSucceed scene busySlug (mkEvent 1 "{}"))
  /\ stored (addEventToBuffer 1 uploadsSucceed scene busySlug (mkEvent 1 "{}")) busySlug
     ≡ₚ stored scene busySlug ++ [mkEvent 1 "{}"].
Proof.
  assert (Hb : buffersBounded scene).
  { intros slug b H. unfold scene in H. cbn [slugEventBuffers] in H.
    rewrite lookup_empty in H. discriminate H. }
  destruct (addEventToBuffer_keeps_event 1 uploadsSucceed scene busySlug (mkEvent 1 "{}"))
    as (_ & H2 & _ & _ & _ & _ & _ & H8).
  split; [exact Hb|]. split; [apply H8; [exact Hb|reflexivity]|].
  apply H2. left. reflexivity.
Defined.

(** [uploadSlugFileToR2], taken as one step: no other handler runs while
    it awaits the upload.  When it answers [true], the object written to
    the bucket holds the events of the file after the flush: all events
    the collector held for the slug, in its file or its buffer, if the
    flush read the file, and the events of the buffer alone if reading the
    file threw in the flush.  The object is not empty, no other object has
    changed, and the slug has left the stream, activity and counter maps.
    When it answers [false], the bucket, the activity times and the
    streams are as before and the collector holds the events of the file
    after the flush.  When the write of the flush throws, the call is
    rejected, nothing has changed and nothing was attempted. *)
Theorem upload_carries_all_events (env : Env) (st : State) (slug : jsstring) :
  let result := uploadSlugFileToR2 env st slug in
  let st' := snd (fst result) in
  match fst (fst result) with
  | Some true =>
      exists content,
        remote st' !! r2KeyOf slug = Some content
        /\ content ≡ₚ afterFlush env st slug
        /\ content <> []
        /\ (slug ∉ slugFileStreams st')
        /\ activityGet slug (slugLastActivity st') = None
        /\ slugEventCounts st' !! slug = None
        /\ (forall key, key <> r2KeyOf slug -> remote st' !! key = remote st !! key)
  | Some false =>
      remote st' = remote st
      /\ stored st' slug ≡ₚ afterFlush env st slug
      /\ slugLastActivity st' = slugLastActivity st
      /\ slugFileStreams st' = slugFileStreams st
  | None =>
      flushWriteThrows env (fileNameOf slug) = true /\ st' = st /\ snd result = []
  end
  /\ (flushReadThrows env (fileNameOf slug) = false
      \/ default [] (slugEventBuffers st !! slug) = [] ->
      afterFlush env st slug = stored st slug)
  /\ (flushReadThrows env (fileNameOf slug) = true ->
      default [] (slugEventBuffers st !! slug) <> [] ->
      afterFlush env st slug = default [] (slugEventBuffers st !! slug)).
Proof.
  cbv zeta. split; [|split; [apply afterFlush_read|apply afterFlush_unread]].
  unfold uploadSlugFileToR2.
  destruct (flushSlugBuffer env st slug) as [st0|] eqn:Eflush.
  2:{ cbn [fst snd]. split; [eapply flushSlugBuffer_None, Eflush|]. split; reflexivity. }
  destruct (flush_stored env st st0 slug Eflush) as (Hperm & Hfile & Hbuf & _ & Hrem & Hstr).
  pose proof (flushSlugBuffer_activity env st slug st0 Eflush) as Hact.
  assert (Hfail : remote st0 = remote st /\ stored st0 slug ≡ₚ afterFlush env st slug
                  /\ slugLastActivity st0 = slugLastActivity st
                  /\ slugFileStreams st0 = slugFileStreams st) by tauto.
  destruct (files st0 !! fileNameOf slug) as [content|] eqn:Ef; [|exact Hfail].
  destruct (uploadReadThrows env (fileNameOf slug)); [exact Hfail|].
  destruct (length content =? 0)%nat eqn:Elen; [exact Hfail|].
  destruct (isR2Configured env); [|exact Hfail].
  destruct (uploadToR2 env (r2KeyOf slug) content); [|exact Hfail].
  cbn [fst snd remote slugFileStreams slugLastActivity slugEventCounts].
  exists content. split; [apply lookup_insert_eq|].
  split; [rewrite <- Hfile; reflexivity|].
  split; [intros ->; discriminate Elen|].
  split; [apply not_elem_of_difference; right; apply elem_of_singleton; reflexivity|].
  split.
  { clear. induction (slugLastActivity st0) as [|[s t] m IH]; [reflexivity|].
    unfold activityDelete in *. destruct (decide (s = slug)) as [->|Hne].
    - rewrite filter_cons_False by (simpl; tauto). exact IH.
    - rewrite filter_cons_True by (simpl; exact Hne). simpl.
      destruct (decide (slug = s)); [congruence|exact IH]. }
  split; [apply lookup_delete_eq|].
  intros key Hne. rewrite lookup_insert_ne by congruence. rewrite Hrem. reflexivity.
Qed.

Lemma filter_shorter {A} (P : A -> Prop) `{!forall x, Decision (P x)} (l : list A) :
  (length (filter P l) < length l)%nat -> exists x, x ∈ l /\ ~ P x.
Proof.
  induction l as [|a l IH]; [simpl; lia|].
  destruct (decide (P a)) as [Ha|Ha].
  - rewrite filter_cons_True by exact Ha. simpl. intros Hlt.
    destruct IH as (x & Hx & Hnx); [lia|]. exists x. split; [apply elem_of_cons; tauto|exact Hnx].
  - intros _. exists a. split; [apply elem_of_cons; tauto|exact Ha].
Qed.

Lemma elem_of_promoted (acts : list Action) (slug : jsstring) :
  slug ∈ promoted acts <-> Promote slug ∈ acts.
Proof.
  unfold promoted. rewrite list_elem_of_omap. split.
  - intros (a & Ha & Hs). destruct a; try discriminate Hs. injection Hs as ->. exact Ha.
  - intros Ha. exists (Promote slug). split; [exact Ha|reflexivity].
Qed.

Lemma promoted_upload env st slug : promoted (snd (uploadSlugFileToR2 env st slug)) = [].
Proof.
  pose proof (uploadSlugFileToR2_outcome env st slug) as Hout.
  destruct (uploadSlugFileToR2 env st slug) as [[ok st1] acts]. cbn [snd].
  inversion Hout; reflexivity.
Qed.

Lemma promoted_uploadEach env slugs st :
  promoted (snd (uploadEach env st slugs)) `sublist_of` slugs.
Proof.
  revert st. induction slugs as [|slug rest IH]; intros st; [constructor|].
  rewrite uploadEach_cons. cbn [snd]. unfold promoted in *. simpl.
  rewrite omap_app. fold (promoted (snd (uploadSlugFileToR2 env st slug))).
  rewrite promoted_upload. simpl. apply sublist_skip.
  destruct (fst (fst (uploadSlugFileToR2 env st slug))); [apply IH|apply sublist_nil_l].
Qed.

Lemma uploadEach_attempt_promoted env slugs st slug ok :
  UploadAttempt slug ok ∈ snd (uploadEach env st slugs) ->
  Promote slug ∈ snd (uploadEach env st slugs).
Proof.
  revert st. induction slugs as [|s r IH]; intros st.
  - simpl. intros H. apply elem_of_nil in H. contradiction.
  - rewrite uploadEach_cons. cbn [snd].
    pose proof (uploadSlugFileToR2_outcome env st s) as Hout.
    destruct (uploadSlugFileToR2 env st s) as [[returned st1] a1]. cbn [fst snd].
    rewrite !elem_of_cons, !elem_of_app. intros [Hd|[Hin|Hin]]; [discriminate Hd| |].
    + left. destruct (upload_actions _ _ _ _ _ _ _ Hout Hin) as [[ok' Hd]|Hd];
        [injection Hd as -> _; reflexivity|discriminate Hd].
    + destruct returned as [ok'|]; [right; right; exact (IH _ Hin)|].
      apply list_elem_of_singleton in Hin. discriminate Hin.
Qed.

(** The periodic check promotes a slug only if it has been silent for the
    threshold while some other tracked slug has not; slugs are promoted in
    the order in which they were first seen, and every upload belongs to a
    promoted slug.  If no tracked slug is active, or none is silent, the
    check does nothing. *)
Theorem check_promotes_only_silent (now : Z) (env : Env) (st : State) :
  (forall slug,
     slug ∈ promoted (snd (checkAndUploadInactiveSlugs now env st)) ->
     slug ∈ (fst <$> slugLastActivity st)
     /\ SLUG_INACTIVITY_THRESHOLD_MS
        <= now - default 0 (activityGet slug (slugLastActivity st))
     /\ exists other, activeAt now st other)
  /\ (forall slug ok,
        UploadAttempt slug ok ∈ snd (checkAndUploadInactiveSlugs now env st) ->
        slug ∈ promoted (snd (checkAndUploadInactiveSlugs now env st)))
  /\ promoted (snd (checkAndUploadInactiveSlugs now env st))
     `sublist_of` (fst <$> slugLastActivity st)
  /\ ((forall slug, ~ activeAt now st slug) \/ inactiveSlugs now st = [] ->
      checkAndUploadInactiveSlugs now env st = (st, [])).
Proof.
  rewrite check_unfold. destruct (gateOpen now st) eqn:Egate.
  - unfold gateOpen in Egate. apply andb_prop in Egate as [Hpos Hlt].
    apply Nat.ltb_lt in Hpos, Hlt.
    split.
    { intros slug Hin. apply elem_of_promoted, uploadEach_promote in Hin.
      unfold inactiveSlugs in Hin.
      apply list_elem_of_filter in Hin as [Hold Hkey].
      split; [exact Hkey|]. split; [exact Hold|].
      unfold inactiveSlugs in Hlt. apply filter_shorter in Hlt as (other & Hk & Hact).
      exists other. split; [exact Hk|lia]. }
    split.
    { intros slug ok Hin. apply elem_of_promoted. eapply uploadEach_attempt_promoted, Hin. }
    split.
    { etransitivity; [apply promoted_uploadEach|]. apply sublist_filter. }
    intros [Hnone|Hnil].
    + exfalso. unfold inactiveSlugs in Hlt.
      apply filter_shorter in Hlt as (other & Hk & Hact).
      apply (Hnone other). split; [exact Hk|lia].
    + rewrite Hnil in Hpos. simpl in Hpos. lia.
  - cbn [snd]. split; [intros slug Hin; apply elem_of_nil in Hin; contradiction|].
    split; [intros slug ok Hin; apply elem_of_nil in Hin; contradiction|].
    split; [apply sublist_nil_l|]. intros _. reflexivity.
Qed.

End PromotionViewsSpec.

(** ** Sets of seen keys *)

Module SeenSetSpec.
Import SeenSet.

Lemma has_true seen key : has seen key = true <-> key ∈ seen.
Proof. unfold has. apply bool_decide_eq_true. Qed.

Lemma has_false seen key : has seen key = false <-> key ∉ seen.
Proof. unfold has. apply bool_decide_eq_false. Qed.

Lemma add_fresh seen key : key ∉ seen -> add seen key = seen ++ [key].
Proof. intros H. unfold add. apply has_false in H. rewrite H. reflexivity. Qed.

Lemma NoDup_snoc_fresh (seen : list string) key :
  NoDup seen -> key ∉ seen -> NoDup (seen ++ [key]).
Proof.
  intros Hnd Hfresh. apply NoDup_app. split; [exact Hnd|]. split.
  - intros x Hx Hin. apply list_elem_of_singleton in Hin. subst x. contradiction.
  - apply NoDup_singleton.
Qed.

Lemma NoDup_sliceLast {A} n (l : list A) : NoDup l -> NoDup (sliceLast n l).
Proof. intros H. unfold sliceLast. exact (sublist_NoDup _ _ H (sublist_drop _ _)). Qed.

Lemma length_sliceLast {A} n (l : list A) :
  0 <= n <= Z.of_nat (length l) -> Z.of_nat (length (sliceLast n l)) = n.
Proof. intros H. unfold sliceLast. rewrite length_drop. lia. Qed.

Lemma StronglySorted_lt_NoDup {A} (key : A -> Z) (l : list A) :
  StronglySorted (fun a b => key a < key b) l -> NoDup l.
Proof.
  induction 1 as [|a l Hs IH Hall]; constructor; [|exact IH].
  intros Hin. rewrite Forall_forall in Hall. specialize (Hall _ Hin). lia.
Qed.

End SeenSetSpec.

(** ** The market-feed monitor *)

Module MarketFeedDedupSpec.
Import SeenSet SeenSetSpec MarketFeedDedup.

(** A message with a new key goes on as a trade and its key becomes the
    newest member.  Below 10,000 members nothing else changes; at 10,000 or
    more the set is cut to its newest 5,000 in one step, so the older keys
    are all forgotten together.  After a new key the set never holds more
    than 10,000 keys, whatever its size before. *)
Theorem ws_new_key_bulk_eviction (seenTrades : list string) (key : string) :
  NoDup seenTrades ->
  key ∉ seenTrades ->
  fst (noteWsTrade seenTrades key) = true
  /\ NoDup (snd (noteWsTrade seenTrades key))
  /\ last (snd (noteWsTrade seenTrades key)) = Some key
  /\ Z.of_nat (length (snd (noteWsTrade seenTrades key))) <= 10000
  /\ (Z.of_nat (length seenTrades) < 10000 ->
      snd (noteWsTrade seenTrades key) = seenTrades ++ [key])
  /\ (10000 <= Z.of_nat (length seenTrades) ->
      snd (noteWsTrade seenTrades key)
      = drop (Z.to_nat (Z.of_nat (length seenTrades) - 4999)) seenTrades ++ [key]
      /\ Z.of_nat (length (snd (noteWsTrade seenTrades key))) = 5000
      /\ forall old, old ∈ take (Z.to_nat (Z.of_nat (length seenTrades) - 4999)) seenTrades ->
           old ∉ snd (noteWsTrade seenTrades key)).
Proof.
  intros Hnd Hfresh. unfold noteWsTrade.
  pose proof Hfresh as Hhas. apply has_false in Hhas. rewrite Hhas.
  rewrite (add_fresh _ _ Hfresh). cbn [fst snd].
  pose proof (NoDup_snoc_fresh _ _ Hnd Hfresh) as Hnd1.
  assert (Hlen1 : Z.of_nat (length (seenTrades ++ [key])) = Z.of_nat (length seenTrades) + 1).
  { rewrite length_app. simpl. lia. }
  split; [reflexivity|].
  destruct (Z.ltb_spec 10000 (Z.of_nat (length (seenTrades ++ [key])))) as [Hbig|Hsmall].
  - assert (Hcut : sliceLast 5000 (seenTrades ++ [key])
                   = drop (Z.to_nat (Z.of_nat (length seenTrades) - 4999)) seenTrades ++ [key]).
    { unfold sliceLast.
      replace (Z.of_nat (length (seenTrades ++ [key])) - 5000)
        with (Z.of_nat (length seenTrades) - 4999) by lia.
      apply drop_app_le. lia. }
    split; [apply NoDup_sliceLast, Hnd1|].
    split; [rewrite Hcut; apply last_snoc|].
    split; [rewrite length_sliceLast; lia|].
    split; [intros Hlt; lia|].
    intros _. split; [exact Hcut|].
    split; [rewrite length_sliceLast; lia|].
    intros old Hold. rewrite Hcut. intros Hin.
    apply elem_of_app in Hin as [Hin|Hin].
    + rewrite <- (take_drop (Z.to_nat (Z.of_nat (length seenTrades) - 4999)) seenTrades) in Hnd.
      apply NoDup_app in Hnd as (_ & Hdisj & _). exact (Hdisj _ Hold Hin).
    + apply list_elem_of_singleton in Hin. subst old.
      apply Hfresh. eapply subseteq_take, Hold.
  - split; [exact Hnd1|].
    split; [apply last_snoc|].
    split; [lia|].
    split; [intros _; reflexivity|].
    intros Hfull. lia.
Qed.

Lemma ws_new_key_bulk_eviction_witness :
  snd (noteWsTrade ["0xa:1"; "0xb:2"] "0xc:3") = ["0xa:1"; "0xb:2"] ++ ["0xc:3"].
Proof.
  assert (Hnd : NoDup ["0xa:1"; "0xb:2"]) by (apply NoDup_ListNoDup; repeat constructor; simpl; intuition discriminate).
  assert (Hfresh : "0xc:3" ∉ ["0xa:1"; "0xb:2"]).
  { intros H. apply list_elem_of_In in H. simpl in H. intuition discriminate. }
  destruct (ws_new_key_bulk_eviction _ _ Hnd Hfresh) as (_ & _ & _ & _ & Hsmall & _).
  apply Hsmall. vm_compute. reflexivity.
Defined.

Lemma noteWsTrade_keeps key n seen k :
  keptBehind key n seen ->
  (n + (if fst (noteWsTrade seen k) then 1 else 0) < 5000)%nat ->
  keptBehind key (n + (if fst (noteWsTrade seen k) then 1 else 0)) (snd (noteWsTrade seen k)).
Proof.
  intros (pre & post & -> & Hlen) Hcap. unfold noteWsTrade in *.
  destruct (has (pre ++ key :: post) k) eqn:Ehas; cbn [fst snd] in *.
  - exists pre, post. split; [reflexivity|lia].
  - apply has_false in Ehas. rewrite (add_fresh _ _ Ehas).
    assert (Heq : (pre ++ key :: post) ++ [k] = pre ++ key :: (post ++ [k])).
    { rewrite <- app_assoc. reflexivity. }
    rewrite Heq.
    assert (Hpost : (length (post ++ [k]) <= n + 1)%nat) by (rewrite length_app; simpl; lia).
    destruct (Z.ltb_spec 10000 (Z.of_nat (length (pre ++ key :: post ++ [k])))) as [Hbig|Hsmall].
    + unfold sliceLast.
      exists (drop (Z.to_nat (Z.of_nat (length (pre ++ key :: post ++ [k])) - 5000)) pre),
             (post ++ [k]).
      split; [|exact Hpost].
      apply drop_app_le. rewrite length_app. simpl length. lia.
    + exists pre, (post ++ [k]). split; [reflexivity|exact Hpost].
Qed.

Lemma wsRun_keeps key keys : forall n seen,
  keptBehind key n seen ->
  (n + wsAccepted seen keys < 5000)%nat ->
  keptBehind key (n + wsAccepted seen keys) (wsRun seen keys).
Proof.
  induction keys as [|k keys IH]; intros n seen Hk Hcap.
  - simpl in *. rewrite Nat.add_0_r. exact Hk.
  - simpl in *. rewrite Nat.add_assoc.
    apply IH; [|lia]. apply noteWsTrade_keeps; [exact Hk|lia].
Qed.

(** A key that went on as a trade is refused on every later message for as
    long as fewer than 5,000 other keys have gone on since. *)
Theorem ws_duplicate_refused_within_half (seenTrades : list string) (key : string)
    (later : list string) :
  key ∉ seenTrades ->
  (wsAccepted (snd (noteWsTrade seenTrades key)) later < 5000)%nat ->
  key ∈ wsRun (snd (noteWsTrade seenTrades key)) later
  /\ fst (noteWsTrade (wsRun (snd (noteWsTrade seenTrades key)) later) key) = false.
Proof.
  intros Hfresh Hcap.
  assert (H0 : keptBehind key 0 (snd (noteWsTrade seenTrades key))).
  { unfold noteWsTrade. pose proof Hfresh as Hhas. apply has_false in Hhas. rewrite Hhas.
    rewrite (add_fresh _ _ Hfresh). cbn [snd].
    destruct (Z.ltb_spec 10000 (Z.of_nat (length (seenTrades ++ [key])))) as [Hbig|Hsmall].
    - unfold sliceLast.
      exists (drop (Z.to_nat (Z.of_nat (length (seenTrades ++ [key])) - 5000)) seenTrades), [].
      split; [|simpl; lia]. apply drop_app_le. rewrite length_app. simpl length. lia.
    - exists seenTrades, []. split; [reflexivity|simpl; lia]. }
  destruct (wsRun_keeps key later 0 _ H0 Hcap) as (pre & post & Heq & _).
  assert (Hin : key ∈ wsRun (snd (noteWsTrade seenTrades key)) later).
  { rewrite Heq. apply elem_of_app. right. apply elem_of_cons. left. reflexivity. }
  split; [exact Hin|].
  unfold noteWsTrade at 1. apply has_true in Hin. rewrite Hin. reflexivity.
Qed.

Lemma ws_duplicate_refused_within_half_witness :
  fst (noteWsTrade (wsRun (snd (noteWsTrade [] "0xa:1")) ["0xb:2"; "0xa:1"; "0xc:3"]) "0xa:1")
  = false.
Proof.
  refine (proj2 (ws_duplicate_refused_within_half [] "0xa:1" ["0xb:2"; "0xa:1"; "0xc:3"] _ _)).
  - intros H. apply elem_of_nil in H. exact H.
  - vm_compute. lia.
Defined.

Lemma restLoop_spec (data : list RestTrade) : forall seen lastTs,
  let '(seen', lastTs', written) := restLoop seen lastTs data in
  written `sublist_of` data
  /\ Forall (fun t => lastTs < tradeTimestamp t) written
  /\ StronglySorted (fun a b => tradeTimestamp a < tradeTimestamp b) written
  /\ lastTs' = default lastTs (tradeTimestamp <$> last written)
  /\ seen' = seen ++ (dedupKey <$> written)
  /\ (NoDup seen -> NoDup seen')
  /\ Forall (fun t => dedupKey t ∉ seen) written.
Proof.
  induction data as [|t rest IH]; intros seen lastTs.
  - simpl. split; [constructor|]. split; [constructor|]. split; [constructor|].
    split; [reflexivity|]. split; [rewrite app_nil_r; reflexivity|].
    split; [tauto|constructor].
  - cbn [restLoop].
    destruct (Z.ltb_spec lastTs (tradeTimestamp t)) as [Hnew|Hold].
    + destruct (has seen (dedupKey t)) eqn:Ehas.
      * specialize (IH seen lastTs). destruct (restLoop seen lastTs rest) as [[s' l'] w].
        destruct IH as (H1 & H2). split; [apply sublist_cons, H1|exact H2].
      * apply has_false in Ehas. rewrite (add_fresh _ _ Ehas).
        specialize (IH (seen ++ [dedupKey t]) (Z.max lastTs (tradeTimestamp t))).
        destruct (restLoop (seen ++ [dedupKey t]) (Z.max lastTs (tradeTimestamp t)) rest)
          as [[s' l'] w].
        destruct IH as (H1 & H2 & H3 & H4 & H5 & H6 & H7).
        rewrite Z.max_r in H2, H4 by lia.
        split; [apply sublist_skip, H1|].
        split.
        { constructor; [exact Hnew|]. eapply Forall_impl; [exact H2|]. simpl. intros; lia. }
        split; [constructor; [exact H3|exact H2]|].
        split.
        { rewrite H4. destruct w as [|t' w]; [reflexivity|].
          rewrite last_cons_cons. destruct (last (t' :: w)) eqn:El; [reflexivity|].
          apply last_None in El. discriminate El. }
        split; [rewrite H5, <- app_assoc; reflexivity|].
        split; [intros Hnd; apply H6, NoDup_snoc_fresh; assumption|].
        constructor; [exact Ehas|].
        eapply Forall_impl; [exact H7|]. simpl. intros x Hx Hin. apply Hx.
        apply elem_of_app. left. exact Hin.
    + specialize (IH seen lastTs). destruct (restLoop seen lastTs rest) as [[s' l'] w].
      destruct IH as (H1 & H2). split; [apply sublist_cons, H1|exact H2].
Qed.

Lemma increasing_in_descending (data written : list RestTrade) :
  written `sublist_of` data ->
  StronglySorted (fun a b => tradeTimestamp b <= tradeTimestamp a) data ->
  StronglySorted (fun a b => tradeTimestamp a < tradeTimestamp b) written ->
  (length written <= 1)%nat.
Proof.
  intros Hsub Hdesc Hinc.
  destruct written as [|a [|b w]]; [simpl; lia|simpl; lia|]. exfalso.
  assert (Hab : tradeTimestamp a < tradeTimestamp b).
  { apply StronglySorted_inv in Hinc as [_ Hall].
    apply Forall_cons in Hall as [Hlt _]. exact Hlt. }
  assert (Hba : tradeTimestamp b <= tradeTimestamp a).
  { clear Hinc Hab. revert Hsub. induction Hdesc as [|x l Hs IH Hall]; intros Hsub.
    - apply sublist_nil_r in Hsub. discriminate Hsub.
    - apply sublist_cons_r in Hsub as [Hsub|(w' & Heq & Hsub)].
      + exact (IH Hsub).
      + injection Heq as Ha Hw. subst x w'. rewrite Forall_forall in Hall. apply Hall.
        eapply elem_of_sublist; [|exact Hsub]. apply elem_of_cons. left. reflexivity. }
  lia.
Qed.

(** The polling fallback writes, from one response, trades with strictly
    increasing times, all later than [lastRestTimestamp], which becomes the
    time of the last trade written.  The keys of the written trades were
    not in the set and are appended to it; nothing is removed on this
    path.  From a response in descending order of time at most one trade
    is written. *)
Theorem rest_fallback_writes_increasing (seenTrades : list string)
    (lastRestTimestamp : Z) (data : list RestTrade) :
  (restLoop seenTrades lastRestTimestamp data).2 `sublist_of` data
  /\ Forall (fun t => lastRestTimestamp < tradeTimestamp t)
            (restLoop seenTrades lastRestTimestamp data).2
  /\ StronglySorted (fun a b => tradeTimestamp a < tradeTimestamp b)
                    (restLoop seenTrades lastRestTimestamp data).2
  /\ (restLoop seenTrades lastRestTimestamp data).1.2
     = default lastRestTimestamp
         (tradeTimestamp <$> last (restLoop seenTrades lastRestTimestamp data).2)
  /\ (restLoop seenTrades lastRestTimestamp data).1.1
     = seenTrades ++ (dedupKey <$> (restLoop seenTrades lastRestTimestamp data).2)
  /\ Forall (fun t => dedupKey t ∉ seenTrades) (restLoop seenTrades lastRestTimestamp data).2
  /\ (NoDup seenTrades -> NoDup (restLoop seenTrades lastRestTimestamp data).1.1)
  /\ (StronglySorted (fun a b => tradeTimestamp b <= tradeTimestamp a) data ->
      (length (restLoop seenTrades lastRestTimestamp data).2 <= 1)%nat).
Proof.
  pose proof (restLoop_spec data seenTrades lastRestTimestamp) as H.
  destruct (restLoop seenTrades lastRestTimestamp data) as [[seen' last'] written].
  destruct H as (H1 & H2 & H3 & H4 & H5 & H6 & H7). cbn [fst snd].
  split; [exact H1|]. split; [exact H2|]. split; [exact H3|]. split; [exact H4|].
  split; [exact H5|]. split; [exact H7|]. split; [exact H6|].
  intros Hdesc. exact (increasing_in_descending data written H1 Hdesc H3).
Qed.

End MarketFeedDedupSpec.

(** ** The fast monitor *)

Module FastMonitorSpec.
Import SeenSet SeenSetSpec FastMonitor.

Lemma filterNew_spec (trades : list Trade) : forall seen lastTs,
  let '(seen', lastTs', newTrades) := filterNew seen lastTs trades in
  newTrades `sublist_of` trades
  /\ Forall (fun t => lastTs < timestamp t <= lastTs') newTrades
  /\ StronglySorted (fun a b => timestamp a < timestamp b) newTrades
  /\ lastTs' = default lastTs (timestamp <$> last newTrades)
  /\ seen' = seen ++ (keyOfTrade <$> newTrades)
  /\ (NoDup seen -> NoDup seen')
  /\ Forall (fun t => keyOfTrade t ∉ seen) newTrades
  /\ lastTs <= lastTs'.
Proof.
  induction trades as [|t rest IH]; intros seen lastTs.
  - simpl. split; [constructor|]. split; [constructor|]. split; [constructor|].
    split; [reflexivity|]. split; [rewrite app_nil_r; reflexivity|].
    split; [tauto|]. split; [constructor|lia].
  - cbn [filterNew].
    destruct (has seen (keyOfTrade t)) eqn:Ehas.
    { specialize (IH seen lastTs). destruct (filterNew seen lastTs rest) as [[s' l'] w].
      destruct IH as (H1 & H2). split; [apply sublist_cons, H1|exact H2]. }
    destruct (Z.leb_spec (timestamp t) lastTs) as [Hold|Hnew].
    { specialize (IH seen lastTs). destruct (filterNew seen lastTs rest) as [[s' l'] w].
      destruct IH as (H1 & H2). split; [apply sublist_cons, H1|exact H2]. }
    apply has_false in Ehas. rewrite (add_fresh _ _ Ehas).
    specialize (IH (seen ++ [keyOfTrade t]) (Z.max lastTs (timestamp t))).
    destruct (filterNew (seen ++ [keyOfTrade t]) (Z.max lastTs (timestamp t)) rest)
      as [[s' l'] w].
    destruct IH as (H1 & H2 & H3 & H4 & H5 & H6 & H7 & H8).
    rewrite Z.max_r in H2, H4, H8 by lia.
    split; [apply sublist_skip, H1|].
    split.
    { constructor; [lia|]. eapply Forall_impl; [exact H2|]. simpl. intros; lia. }
    split.
    { constructor; [exact H3|]. eapply Forall_impl; [exact H2|]. simpl. intros; lia. }
    split.
    { rewrite H4. destruct w as [|t' w]; [reflexivity|].
      rewrite last_cons_cons. destruct (last (t' :: w)) eqn:El; [reflexivity|].
      apply last_None in El. discriminate El. }
    split; [rewrite H5, <- app_assoc; reflexivity|].
    split; [intros Hnd; apply H6, NoDup_snoc_fresh; assumption|].
    split; [|lia].
    constructor; [exact Ehas|].
    eapply Forall_impl; [exact H7|]. simpl. intros x Hx Hin. apply Hx.
    apply elem_of_app. left. exact Hin.
Qed.

(** One poll hands on trades of the response with strictly increasing
    times, all later than the time of the newest trade handed on before;
    that time is then the time of the last trade of the poll.  Their keys
    were not in the set.  After the poll the set holds at most 1,000 keys:
    above that it is cut to its newest 500. *)
Theorem poll_hands_on_increasing (lastSeenIds : list string) (lastTimestamp : Z)
    (trades : list Trade) :
  (poll lastSeenIds lastTimestamp trades).2 `sublist_of` trades
  /\ Forall (fun t => lastTimestamp < timestamp t) (poll lastSeenIds lastTimestamp trades).2
  /\ StronglySorted (fun a b => timestamp a < timestamp b)
                    (poll lastSeenIds lastTimestamp trades).2
  /\ (poll lastSeenIds lastTimestamp trades).1.2
     = default lastTimestamp (timestamp <$> last (poll lastSeenIds lastTimestamp trades).2)
  /\ Forall (fun t => keyOfTrade t ∉ lastSeenIds) (poll lastSeenIds lastTimestamp trades).2
  /\ Z.of_nat (length (poll lastSeenIds lastTimestamp trades).1.1) <= 1000
  /\ (poll lastSeenIds lastTimestamp trades).1.1
     `suffix_of` (lastSeenIds ++ (keyOfTrade <$> (poll lastSeenIds lastTimestamp trades).2))
  /\ (NoDup lastSeenIds -> NoDup (poll lastSeenIds lastTimestamp trades).1.1).
Proof.
  unfold poll. pose proof (filterNew_spec trades lastSeenIds lastTimestamp) as H.
  destruct (filterNew lastSeenIds lastTimestamp trades) as [[seen' last'] w].
  destruct H as (H1 & H2 & H3 & H4 & H5 & H6 & H7 & H8). cbn [fst snd].
  split; [exact H1|].
  split; [eapply Forall_impl; [exact H2|]; simpl; intros; lia|].
  split; [exact H3|]. split; [exact H4|]. split; [exact H7|].
  destruct (Z.ltb_spec 1000 (Z.of_nat (length seen'))) as [Hbig|Hsmall].
  - split; [rewrite length_sliceLast; lia|].
    split; [rewrite <- H5; apply suffix_drop|].
    intros Hnd. apply NoDup_sliceLast, H6, Hnd.
  - split; [exact Hsmall|]. split; [rewrite <- H5; reflexivity|exact H6].
Qed.

Lemma pollRun_spec (responses : list (list Trade)) : forall seen lastTs,
  Forall (fun t => lastTs < timestamp t) (pollRun seen lastTs responses)
  /\ StronglySorted (fun a b => timestamp a < timestamp b) (pollRun seen lastTs responses).
Proof.
  induction responses as [|trades rest IH]; intros seen lastTs.
  - simpl. split; constructor.
  - cbn [pollRun]. unfold poll.
    pose proof (filterNew_spec trades seen lastTs) as H.
    destruct (filterNew seen lastTs trades) as [[seen' last'] w].
    destruct H as (H1 & H2 & H3 & H4 & H5 & H6 & H7 & H8).
    set (seen'' := if 1000 <? Z.of_nat (length seen') then sliceLast 500 seen' else seen').
    destruct (IH seen'' last') as [A1 A2].
    split.
    + apply Forall_app. split.
      * eapply Forall_impl; [exact H2|]. simpl. intros; lia.
      * eapply Forall_impl; [exact A1|]. simpl. intros; lia.
    + apply StronglySorted_app_2; [|exact H3|exact A2].
      intros x1 x2 Hx1 Hx2. rewrite Forall_forall in H2, A1.
      specialize (H2 _ Hx1). specialize (A1 _ Hx2). lia.
Qed.

(** Along any sequence of polls the trades handed on have strictly
    increasing times, so no trade is handed on twice, and a trade that is
    not later than one handed on before is never handed on. *)
Theorem polls_never_go_back (lastSeenIds : list string) (lastTimestamp : Z)
    (responses : list (list Trade)) :
  StronglySorted (fun a b => timestamp a < timestamp b)
                 (pollRun lastSeenIds lastTimestamp responses)
  /\ Forall (fun t => lastTimestamp < timestamp t)
            (pollRun lastSeenIds lastTimestamp responses)
  /\ NoDup (pollRun lastSeenIds lastTimestamp responses).
Proof.
  destruct (pollRun_spec responses lastSeenIds lastTimestamp) as [H1 H2].
  split; [exact H2|]. split; [exact H1|].
  exact (StronglySorted_lt_NoDup timestamp _ H2).
Qed.

Lemma onRestTrades_spec (trades : list Trade) : forall seen,
  NoDup seen ->
  (onRestTrades seen trades).1 `sublist_of` trades
  /\ (onRestTrades seen trades).2 = seen ++ (keyOfTrade <$> (onRestTrades seen trades).1)
  /\ NoDup (onRestTrades seen trades).2
  /\ (forall t, t ∈ trades -> keyOfTrade t ∈ (onRestTrades seen trades).2).
Proof.
  induction trades as [|t rest IH]; intros seen Hnd.
  - simpl. split; [constructor|]. split; [rewrite app_nil_r; reflexivity|].
    split; [exact Hnd|]. intros t Ht. apply elem_of_nil in Ht. contradiction.
  - cbn [onRestTrades]. destruct (has seen (keyOfTrade t)) eqn:Ehas.
    + destruct (IH seen Hnd) as (H1 & H2 & H3 & H4).
      split; [apply sublist_cons, H1|]. split; [exact H2|]. split; [exact H3|].
      intros t' Ht'. apply elem_of_cons in Ht' as [->|Ht']; [|exact (H4 _ Ht')].
      rewrite H2. apply elem_of_app. left. apply has_true, Ehas.
    + apply has_false in Ehas. rewrite (add_fresh _ _ Ehas).
      destruct (IH (seen ++ [keyOfTrade t]) (NoDup_snoc_fresh _ _ Hnd Ehas))
        as (H1 & H2 & H3 & H4).
      destruct (onRestTrades (seen ++ [keyOfTrade t]) rest) as [f s']. cbn [fst snd] in *.
      split; [apply sublist_skip, H1|].
      split; [rewrite H2, <- app_assoc; reflexivity|]. split; [exact H3|].
      intros t' Ht'. apply elem_of_cons in Ht' as [->|Ht']; [|exact (H4 _ Ht')].
      rewrite H2. apply elem_of_app. left. apply elem_of_app. right.
      apply list_elem_of_singleton. reflexivity.
Qed.

Lemma onWsTrade_onRestTrades seen trade : onWsTrade seen trade = onRestTrades seen [trade].
Proof. unfold onWsTrade. simpl. destruct (has seen (keyOfTrade trade)); reflexivity. Qed.

Lemma onRestTrades_app (l1 l2 : list Trade) : forall seen,
  onRestTrades seen (l1 ++ l2)
  = ((onRestTrades seen l1).1 ++ (onRestTrades (onRestTrades seen l1).2 l2).1,
     (onRestTrades (onRestTrades seen l1).2 l2).2).
Proof.
  induction l1 as [|t l1 IH]; intros seen.
  - simpl. destruct (onRestTrades seen l2); reflexivity.
  - cbn [app onRestTrades]. destruct (has seen (keyOfTrade t)); [apply IH|].
    rewrite IH. destruct (onRestTrades (add seen (keyOfTrade t)) l1) as [f s']. reflexivity.
Qed.

Lemma hybridRun_offered (deliveries : list Delivery) : forall seen,
  hybridRun seen deliveries = onRestTrades seen (offered deliveries).
Proof.
  induction deliveries as [|d rest IH]; intros seen; [reflexivity|].
  cbn [hybridRun offered]. destruct d as [trades|trade].
  - rewrite onRestTrades_app. destruct (onRestTrades seen trades) as [f s'].
    rewrite IH. cbn [fst snd]. destruct (onRestTrades s' (offered rest)); reflexivity.
  - rewrite onWsTrade_onRestTrades.
    change (trade :: offered rest) with ([trade] ++ offered rest).
    rewrite onRestTrades_app. destruct (onRestTrades seen [trade]) as [f s'].
    rewrite IH. cbn [fst snd]. destruct (onRestTrades s' (offered rest)); reflexivity.
Qed.

(** The hybrid monitor forwards every key once: whatever the poller and
    the socket deliver, and in whatever order, the trades forwarded are
    trades that were offered, no two of them have the same key, none has a
    key seen before, and every offered trade's key is in the set
    afterwards, which has grown by exactly the forwarded keys. *)
Theorem hybrid_forwards_each_key_once (seenTrades : list string)
    (deliveries : list Delivery) :
  NoDup seenTrades ->
  (hybridRun seenTrades deliveries).1 `sublist_of` offered deliveries
  /\ NoDup (keyOfTrade <$> (hybridRun seenTrades deliveries).1)
  /\ Forall (fun t => keyOfTrade t ∉ seenTrades) (hybridRun seenTrades deliveries).1
  /\ (hybridRun seenTrades deliveries).2
     = seenTrades ++ (keyOfTrade <$> (hybridRun seenTrades deliveries).1)
  /\ (forall t, t ∈ offered deliveries ->
        keyOfTrade t ∈ seenTrades
        \/ keyOfTrade t ∈ (keyOfTrade <$> (hybridRun seenTrades deliveries).1)).
Proof.
  intros Hnd. rewrite hybridRun_offered.
  destruct (onRestTrades_spec (offered deliveries) seenTrades Hnd) as (H1 & H2 & H3 & H4).
  rewrite H2 in H3. apply NoDup_app in H3 as (_ & Hdisj & Hnd').
  split; [exact H1|]. split; [exact Hnd'|].
  split.
  { apply Forall_forall. intros t Ht Hin. apply (Hdisj _ Hin).
    apply list_elem_of_fmap. exists t. split; [reflexivity|exact Ht]. }
  split; [exact H2|].
  intros t Ht. specialize (H4 _ Ht). rewrite H2 in H4.
  apply elem_of_app in H4. exact H4.
Qed.

Lemma hybrid_forwards_each_key_once_witness :
  NoDup (keyOfTrade <$> (hybridRun []
           [RestBatch [mkTrade (Some "t1") 10 (Some "0xa"); mkTrade None 11 (Some "0xb")];
            WsTrade (mkTrade None 11 (Some "0xb"));
            RestBatch [mkTrade (Some "t1") 10 (Some "0xa")]]).1).
Proof.
  refine (proj1 (proj2 (hybrid_forwards_each_key_once [] _ _))). apply NoDup_nil_2.
Defined.

End FastMonitorSpec.

(** ** The price file of a market *)

Module PriceFileSpec.
Import JsArray JsArraySpec Merge PriceFile.

Lemma keyOfPrice_priceOf showNum e : keyOfPrice showNum (priceOf e) = keyOfEvent showNum e.
Proof. reflexivity. Qed.

Lemma newPrices_spec showNum (M : list EventRecord) : forall K : gset string,
  Forall (fun p => exists e, e ∈ M /\ ev_src e = market_ws /\ p = priceOf e
                             /\ keyOfPrice showNum p ∉ K)
         (newPrices showNum K M)
  /\ NoDup (keyOfPrice showNum <$> newPrices showNum K M)
  /\ (forall e, e ∈ M -> ev_src e = market_ws ->
        keyOfEvent showNum e ∈ K
        \/ keyOfEvent showNum e ∈ (keyOfPrice showNum <$> newPrices showNum K M)).
Proof.
  induction M as [|e M IH]; intros K.
  - simpl. split; [constructor|]. split; [constructor|].
    intros e He. apply elem_of_nil in He. contradiction.
  - cbn [newPrices].
    assert (Hlift : forall K' l,
      Forall (fun p => exists e0, e0 ∈ M /\ ev_src e0 = market_ws /\ p = priceOf e0
                                  /\ keyOfPrice showNum p ∉ K') l ->
      K ⊆ K' ->
      Forall (fun p => exists e0, e0 ∈ e :: M /\ ev_src e0 = market_ws /\ p = priceOf e0
                                  /\ keyOfPrice showNum p ∉ K) l).
    { intros K' l Hl Hsub. eapply Forall_impl; [exact Hl|]. simpl.
      intros p (e0 & H1 & H2 & H3 & H4). exists e0.
      split; [apply elem_of_cons; right; exact H1|]. split; [exact H2|].
      split; [exact H3|]. intros Hin. apply H4. apply Hsub, Hin. }
    destruct (decide (ev_src e = market_ws)) as [Hws|Hws].
    + destruct (decide (keyOfEvent showNum e ∈ K)) as [Hin|Hfresh].
      * destruct (IH K) as (H1 & H2 & H3).
        split; [apply (Hlift K); [exact H1|reflexivity]|]. split; [exact H2|].
        intros e' He' Hsrc. apply elem_of_cons in He' as [->|He'];
          [left; exact Hin|exact (H3 _ He' Hsrc)].
      * destruct (IH ({[keyOfEvent showNum e]} ∪ K)) as (H1 & H2 & H3).
        split.
        { constructor.
          - exists e. split; [apply elem_of_cons; left; reflexivity|].
            split; [exact Hws|]. split; [reflexivity|exact Hfresh].
          - apply (Hlift ({[keyOfEvent showNum e]} ∪ K)); [exact H1|].
            apply union_subseteq_r. }
        split.
        { cbn [fmap list_fmap]. constructor; [|exact H2].
          intros Hin. apply list_elem_of_fmap in Hin as (p & Hp & Hpin).
          rewrite Forall_forall in H1. destruct (H1 _ Hpin) as (e0 & _ & _ & _ & Hno).
          apply Hno. rewrite <- Hp, keyOfPrice_priceOf.
          apply elem_of_union. left. apply elem_of_singleton. reflexivity. }
        intros e' He' Hsrc. apply elem_of_cons in He' as [->|He'].
        { right. cbn [fmap list_fmap]. apply elem_of_cons. left. reflexivity. }
        destruct (H3 _ He' Hsrc) as [Hk|Hk].
        { apply elem_of_union in Hk as [Hk|Hk].
          - apply elem_of_singleton in Hk. right. cbn [fmap list_fmap].
            apply elem_of_cons. left. rewrite keyOfPrice_priceOf. exact Hk.
          - left. exact Hk. }
        right. cbn [fmap list_fmap]. apply elem_of_cons. right. exact Hk.
    + destruct (IH K) as (H1 & H2 & H3).
      split; [apply (Hlift K); [exact H1|reflexivity]|]. split; [exact H2|].
      intros e' He' Hsrc. apply elem_of_cons in He' as [->|He'];
        [contradiction|exact (H3 _ He' Hsrc)].
Qed.

Lemma newPrices_nil showNum (M : list EventRecord) (K : gset string) :
  (forall e, e ∈ M -> ev_src e = market_ws -> keyOfEvent showNum e ∈ K) ->
  newPrices showNum K M = [].
Proof.
  induction M as [|e M IH]; intros Hall; [reflexivity|].
  cbn [newPrices].
  assert (Hrest : newPrices showNum K M = []).
  { apply IH. intros e' He'. apply Hall. apply elem_of_cons. right. exact He'. }
  destruct (decide (ev_src e = market_ws)) as [Hws|Hws]; [|exact Hrest].
  destruct (decide (keyOfEvent showNum e ∈ K)) as [Hin|Hfresh]; [exact Hrest|].
  exfalso. apply Hfresh. apply Hall; [apply elem_of_cons; left; reflexivity|exact Hws].
Qed.

Lemma built_keys_cover showNum now (M : list EventRecord) slugId existingPrices e :
  e ∈ M -> ev_src e = market_ws ->
  keyOfEvent showNum e
  ∈ (keyOfPrice showNum
       <$> pf_prices (buildMarketPricesFromEvents showNum now M slugId existingPrices)).
Proof.
  intros He Hsrc. unfold buildMarketPricesFromEvents. cbn [pf_prices].
  set (existing := default [] (pf_prices <$> existingPrices)).
  set (K := list_to_set (keyOfPrice showNum <$> existing) : gset string).
  destruct (newPrices_spec showNum M K) as (_ & _ & H3).
  rewrite (sortBy_perm p_t), fmap_app. apply elem_of_app.
  destruct (H3 _ He Hsrc) as [Hk|Hk]; [left|right; exact Hk].
  unfold K in Hk. apply elem_of_list_to_set in Hk. exact Hk.
Qed.

Lemma sorted_head_first {A} (key : A -> Z) (l : list A) (x : A) :
  StronglySorted (keyLe key) l -> head l = Some x -> Forall (fun y => key x <= key y) l.
Proof.
  intros Hs Hh. destruct Hs as [|a l Hs Hall]; [constructor|].
  injection Hh as <-. constructor; [lia|exact Hall].
Qed.

Lemma sorted_last_final {A} (key : A -> Z) (l : list A) (x : A) :
  StronglySorted (keyLe key) l -> last l = Some x -> Forall (fun y => key y <= key x) l.
Proof.
  induction 1 as [|a l Hs IH Hall]; intros Hl; [constructor|].
  destruct l as [|b l].
  - injection Hl as <-. constructor; [lia|constructor].
  - rewrite last_cons_cons in Hl. specialize (IH Hl). constructor; [|exact IH].
    apply Forall_cons in IH as [Hb _]. apply Forall_cons in Hall as [Hab _].
    unfold keyLe in Hab. lia.
Qed.

(** What the price file holds: the old records and the new ones in
    ascending order of time; every old record is kept; every new record
    is the copy of a market-feed event whose key no old record has, and
    no two new records have the same key; every market-feed event has its
    key in the file; the count is the number of records; the first and
    the last event time are undefined for an empty file and otherwise are
    the times of the first and the last record, which bound the times of
    all records. *)
Theorem price_file_contents (showNum : num -> string) (now : string)
    (marketEvents : list EventRecord) (slugId : string)
    (existingPrices : option MarketPricesFile) :
  let existing := default [] (pf_prices <$> existingPrices) in
  let out := buildMarketPricesFromEvents showNum now marketEvents slugId existingPrices in
  StronglySorted (keyLe p_t) (pf_prices out)
  /\ (exists added,
        pf_prices out ≡ₚ existing ++ added
        /\ NoDup (keyOfPrice showNum <$> added)
        /\ Forall (fun p => exists e, e ∈ marketEvents /\ ev_src e = market_ws
                                     /\ p = priceOf e
                                     /\ (keyOfPrice showNum p
                                         ∉ (keyOfPrice showNum <$> existing))) added)
  /\ (forall e, e ∈ marketEvents -> ev_src e = market_ws ->
        keyOfEvent showNum e ∈ (keyOfPrice showNum <$> pf_prices out))
  /\ pf_totalEvents out = length (pf_prices out)
  /\ match pf_prices out with
     | [] => pf_firstEventTime out = None /\ pf_lastEventTime out = None
     | _ :: _ =>
         exists first final,
           head (pf_prices out) = Some first /\ last (pf_prices out) = Some final
           /\ pf_firstEventTime out = Some (p_t first)
           /\ pf_lastEventTime out = Some (p_t final)
           /\ Forall (fun p => p_t first <= p_t p <= p_t final) (pf_prices out)
     end
  /\ pf_slug out = slugId.
Proof.
  cbv zeta.
  split; [apply sortBy_sorted|].
  split.
  { unfold buildMarketPricesFromEvents. cbn [pf_prices].
    set (existing := default [] (pf_prices <$> existingPrices)).
    set (K := list_to_set (keyOfPrice showNum <$> existing) : gset string).
    destruct (newPrices_spec showNum marketEvents K) as (H1 & H2 & _).
    exists (newPrices showNum K marketEvents).
    split; [apply sortBy_perm|]. split; [exact H2|].
    eapply Forall_impl; [exact H1|]. simpl.
    intros p (e & A1 & A2 & A3 & A4). exists e. repeat split; try assumption.
    intros Hin. apply A4. unfold K. apply elem_of_list_to_set. exact Hin. }
  split; [intros e; apply built_keys_cover|].
  split; [reflexivity|].
  unfold buildMarketPricesFromEvents.
  cbn [pf_prices pf_firstEventTime pf_lastEventTime pf_slug].
  set (all := sortBy p_t _).
  assert (Hsorted : StronglySorted (keyLe p_t) all) by apply sortBy_sorted.
  split; [|reflexivity].
  destruct all as [|x l] eqn:Eall; [split; reflexivity|].
  destruct (last (x :: l)) as [y|] eqn:El; [|apply last_None in El; discriminate El].
  exists x, y. split; [reflexivity|]. split; [reflexivity|].
  split; [reflexivity|]. split; [reflexivity|].
  pose proof (sorted_head_first p_t (x :: l) x Hsorted eq_refl) as H1.
  pose proof (sorted_last_final p_t (x :: l) y Hsorted El) as H2.
  rewrite Forall_forall in *. intros p Hp. split; [apply H1, Hp|apply H2, Hp].
Qed.

(** Building the file again from the same events, with the file just built
    as the existing one, adds nothing: apart from the time of the update
    the result is the same file. *)
Theorem price_file_rebuild_same (showNum : num -> string) (now now' : string)
    (marketEvents : list EventRecord) (slugId : string)
    (existingPrices : option MarketPricesFile) :
  buildMarketPricesFromEvents showNum now' marketEvents slugId
    (Some (buildMarketPricesFromEvents showNum now marketEvents slugId existingPrices))
  = buildMarketPricesFromEvents showNum now' marketEvents slugId existingPrices.
Proof.
  unfold buildMarketPricesFromEvents at 1.
  set (out := buildMarketPricesFromEvents showNum now marketEvents slugId existingPrices).
  assert (Hex : default [] (pf_prices <$> Some out) = pf_prices out) by reflexivity.
  rewrite Hex.
  assert (Hnil : newPrices showNum (list_to_set (keyOfPrice showNum <$> pf_prices out))
                   marketEvents = []).
  { apply newPrices_nil. intros e He Hsrc. apply elem_of_list_to_set.
    exact (built_keys_cover showNum now marketEvents slugId existingPrices e He Hsrc). }
  rewrite Hnil, app_nil_r.
  assert (Hid : sortBy p_t (pf_prices out) = pf_prices out).
  { unfold out, buildMarketPricesFromEvents. cbn [pf_prices]. apply sortBy_idem. }
  rewrite Hid. reflexivity.
Qed.

Lemma lower_spec (field : MarketPriceRecord -> option num) (l : list MarketPriceRecord) :
  match lowest field l with
  | None => Forall (fun p => field p = None) l
  | Some m =>
      (exists p, p ∈ l /\ field p = Some m)
      /\ Forall (fun p => forall v, field p = Some v -> (m <= v)%Q) l
  end.
Proof.
  unfold lowest. induction l as [|x l IH] using rev_ind; [constructor|].
  rewrite foldl_app. cbn [foldl].
  destruct (foldl (fun acc p => lower acc (field p)) None l) as [m|];
    destruct (field x) as [v|] eqn:Ex; cbn [lower].
  - destruct IH as [(p & Hp & Hf) Hall].
    destruct (Qle_bool m v) eqn:Ele; cbn [negb].
    + apply Qle_bool_iff in Ele. split.
      * exists p. split; [apply elem_of_app; left; exact Hp|exact Hf].
      * apply Forall_app. split; [exact Hall|].
        constructor; [|constructor]. intros v' Hv'. rewrite Ex in Hv'.
        injection Hv' as <-. exact Ele.
    + assert (Hlt : (v < m)%Q).
      { apply Qnot_le_lt. intros H. apply Qle_bool_iff in H. congruence. }
      split.
      * exists x. split; [apply elem_of_app; right; apply elem_of_cons; left; reflexivity
                         |exact Ex].
      * apply Forall_app. split.
        -- eapply Forall_impl; [exact Hall|]. simpl. intros q Hq v' Hv'.
           eapply Qle_trans; [apply Qlt_le_weak, Hlt|apply Hq, Hv'].
        -- constructor; [|constructor]. intros v' Hv'. rewrite Ex in Hv'.
           injection Hv' as <-. apply Qle_refl.
  - destruct IH as [(p & Hp & Hf) Hall]. split.
    + exists p. split; [apply elem_of_app; left; exact Hp|exact Hf].
    + apply Forall_app. split; [exact Hall|].
      constructor; [|constructor]. intros v' Hv'. rewrite Ex in Hv'. discriminate Hv'.
  - split.
    + exists x. split; [apply elem_of_app; right; apply elem_of_cons; left; reflexivity
                       |exact Ex].
    + apply Forall_app. split.
      * eapply Forall_impl; [exact IH|]. simpl. intros q Hq v' Hv'.
        rewrite Hq in Hv'. discriminate Hv'.
      * constructor; [|constructor]. intros v' Hv'. rewrite Ex in Hv'.
        injection Hv' as <-. apply Qle_refl.
  - apply Forall_app. split; [exact IH|]. constructor; [exact Ex|constructor].
Qed.

Lemma higher_spec (field : MarketPriceRecord -> option num) (l : list MarketPriceRecord) :
  match highest field l with
  | None => Forall (fun p => field p = None) l
  | Some m =>
      (exists p, p ∈ l /\ field p = Some m)
      /\ Forall (fun p => forall v, field p = Some v -> (v <= m)%Q) l
  end.
Proof.
  unfold highest. induction l as [|x l IH] using rev_ind; [constructor|].
  rewrite foldl_app. cbn [foldl].
  destruct (foldl (fun acc p => higher acc (field p)) None l) as [m|];
    destruct (field x) as [v|] eqn:Ex; cbn [higher].
  - destruct IH as [(p & Hp & Hf) Hall].
    destruct (Qle_bool v m) eqn:Ele; cbn [negb].
    + apply Qle_bool_iff in Ele. split.
      * exists p. split; [apply elem_of_app; left; exact Hp|exact Hf].
      * apply Forall_app. split; [exact Hall|].
        constructor; [|constructor]. intros v' Hv'. rewrite Ex in Hv'.
        injection Hv' as <-. exact Ele.
    + assert (Hlt : (m < v)%Q).
      { apply Qnot_le_lt. intros H. apply Qle_bool_iff in H. congruence. }
      split.
      * exists x. split; [apply elem_of_app; right; apply elem_of_cons; left; reflexivity
                         |exact Ex].
      * apply Forall_app. split.
        -- eapply Forall_impl; [exact Hall|]. simpl. intros q Hq v' Hv'.
           eapply Qle_trans; [apply Hq, Hv'|apply Qlt_le_weak, Hlt].
        -- constructor; [|constructor]. intros v' Hv'. rewrite Ex in Hv'.
           injection Hv' as <-. apply Qle_refl.
  - destruct IH as [(p & Hp & Hf) Hall]. split.
    + exists p. split; [apply elem_of_app; left; exact Hp|exact Hf].
    + apply Forall_app. split; [exact Hall|].
      constructor; [|constructor]. intros v' Hv'. rewrite Ex in Hv'. discriminate Hv'.
  - split.
    + exists x. split; [apply elem_of_app; right; apply elem_of_cons; left; reflexivity
                       |exact Ex].
    + apply Forall_app. split.
      * eapply Forall_impl; [exact IH|]. simpl. intros q Hq v' Hv'.
        rewrite Hq in Hv'. discriminate Hv'.
      * constructor; [|constructor]. intros v' Hv'. rewrite Ex in Hv'.
        injection Hv' as <-. apply Qle_refl.
  - apply Forall_app. split; [exact IH|]. constructor; [exact Ex|constructor].
Qed.

Lemma range_spec (field : MarketPriceRecord -> option num) (l : list MarketPriceRecord) :
  Forall (fun p => forall v, field p = Some v ->
            exists lo hi, lowest field l = Some lo /\ highest field l = Some hi
                          /\ (lo <= v)%Q /\ (v <= hi)%Q) l
  /\ (lowest field l = None <-> Forall (fun p => field p = None) l)
  /\ (highest field l = None <-> Forall (fun p => field p = None) l).
Proof.
  pose proof (lower_spec field l) as Hlo. pose proof (higher_spec field l) as Hhi.
  assert (Hnone : forall o : option num,
            match o with
            | None => Forall (fun p => field p = None) l
            | Some m => exists p, p ∈ l /\ field p = Some m
            end ->
            (o = None <-> Forall (fun p => field p = None) l)).
  { intros [m|] H; split; intros H'; try congruence; try assumption.
    destruct H as (p & Hp & Hf). rewrite Forall_forall in H'. rewrite (H' _ Hp) in Hf.
    discriminate Hf. }
  split; [|split].
  - apply Forall_forall. intros p Hp v Hv.
    destruct (lowest field l) as [lo|].
    + destruct (highest field l) as [hi|].
      * destruct Hlo as [_ Hlo]. destruct Hhi as [_ Hhi]. rewrite Forall_forall in Hlo, Hhi.
        exists lo, hi. repeat split; [apply (Hlo _ Hp), Hv|apply (Hhi _ Hp), Hv].
      * rewrite Forall_forall in Hhi. rewrite (Hhi _ Hp) in Hv. discriminate Hv.
    + rewrite Forall_forall in Hlo. rewrite (Hlo _ Hp) in Hv. discriminate Hv.
  - apply Hnone. destruct (lowest field l); [tauto|exact Hlo].
  - apply Hnone. destruct (highest field l); [tauto|exact Hhi].
Qed.

(** The statistics of a price file bound its records: each best bid, best
    ask, spread and price of a record lies between the reported minimum
    and maximum of its kind, and a kind is reported as undefined exactly
    when no record has a value of it. *)
Theorem price_file_stats_bound (showNum : num -> string) (now : string)
    (marketEvents : list EventRecord) (slugId : string)
    (existingPrices : option MarketPricesFile) :
  let out := buildMarketPricesFromEvents showNum now marketEvents slugId existingPrices in
  Forall (fun p =>
            (forall v, p_bestBid p = Some v ->
               exists lo hi, ps_bidMin (pf_stats out) = Some lo
                             /\ ps_bidMax (pf_stats out) = Some hi
                             /\ (lo <= v)%Q /\ (v <= hi)%Q)
            /\ (forall v, p_bestAsk p = Some v ->
                  exists lo hi, ps_askMin (pf_stats out) = Some lo
                                /\ ps_askMax (pf_stats out) = Some hi
                                /\ (lo <= v)%Q /\ (v <= hi)%Q)
            /\ (forall v, p_spread p = Some v ->
                  exists lo hi, ps_spreadMin (pf_stats out) = Some lo
                                /\ ps_spreadMax (pf_stats out) = Some hi
                                /\ (lo <= v)%Q /\ (v <= hi)%Q)
            /\ (forall v, p_price p = Some v ->
                  exists lo hi, ps_priceMin (pf_stats out) = Some lo
                                /\ ps_priceMax (pf_stats out) = Some hi
                                /\ (lo <= v)%Q /\ (v <= hi)%Q))
         (pf_prices out)
  /\ (ps_bidMin (pf_stats out) = None
      <-> Forall (fun p => p_bestBid p = None) (pf_prices out))
  /\ (ps_askMin (pf_stats out) = None
      <-> Forall (fun p => p_bestAsk p = None) (pf_prices out))
  /\ (ps_spreadMin (pf_stats out) = None
      <-> Forall (fun p => p_spread p = None) (pf_prices out))
  /\ (ps_priceMin (pf_stats out) = None
      <-> Forall (fun p => p_price p = None) (pf_prices out)).
Proof.
  cbv zeta. unfold buildMarketPricesFromEvents. cbn [pf_stats pf_prices].
  set (all := sortBy p_t _). unfold statsOf.
  cbn [ps_bidMin ps_bidMax ps_askMin ps_askMax ps_spreadMin ps_spreadMax
       ps_priceMin ps_priceMax].
  destruct (range_spec p_bestBid all) as (B1 & B2 & _).
  destruct (range_spec p_bestAsk all) as (A1 & A2 & _).
  destruct (range_spec p_spread all) as (S1 & S2 & _).
  destruct (range_spec p_price all) as (P1 & P2 & _).
  split; [|tauto].
  rewrite Forall_forall in *. intros p Hp.
  split; [exact (B1 _ Hp)|]. split; [exact (A1 _ Hp)|].
  split; [exact (S1 _ Hp)|exact (P1 _ Hp)].
Qed.

End PriceFileSpec.

(** ** The collector: reconnecting the market socket *)

Module CollectorReconnectSpec.
Import CollectorReconnect.

Lemma socketDelays_no_close (events : list SocketEvent) : forall attempts,
  filter (fun e => e = Closed) events = [] -> socketDelays attempts events = [].
Proof.
  induction events as [|e events IH]; intros attempts Hnone; [reflexivity|].
  destruct e.
  - rewrite filter_cons_False in Hnone by discriminate. simpl. apply IH, Hnone.
  - rewrite filter_cons_True in Hnone by reflexivity. discriminate Hnone.
Qed.

Lemma socketDelays_once (events : list SocketEvent) :
  closesOnce events -> Forall (fun d => d = 1000) (socketDelays 0 events).
Proof.
  unfold closesOnce. induction events as [|e events IH]; intros Hone; [constructor|].
  destruct e.
  - rewrite filter_cons_False in Hone by discriminate. simpl. apply IH, Hone.
  - rewrite filter_cons_True in Hone by reflexivity. simpl in Hone.
    assert (Hnone : filter (fun e => e = Closed) events = []).
    { destruct (filter (fun e => e = Closed) events); [reflexivity|simpl in Hone; lia]. }
    cbn [socketDelays handle]. rewrite (socketDelays_no_close events _ Hnone).
    constructor; [reflexivity|constructor].
Qed.

(** The counter of reconnect attempts belongs to the socket, and a socket
    closes once: however many closes a run has seen, and whether or not
    the socket had opened, every reconnect is scheduled 1 s after the
    close, one for each socket that closed. *)
Theorem collector_reconnects_after_one_second (sockets : list (list SocketEvent)) :
  Forall closesOnce sockets ->
  Forall (fun delay => delay = 1000) (runDelays sockets)
  /\ length (runDelays sockets)
     = length (filter (fun events => Closed ∈ events) sockets).
Proof.
  induction 1 as [|events sockets Hone Hall IH]; [split; [constructor|reflexivity]|].
  destruct IH as [IH1 IH2]. cbn [runDelays]. split.
  - apply Forall_app. split; [apply socketDelays_once, Hone|exact IH1].
  - rewrite length_app, IH2. clear IH1 IH2 Hall.
    assert (Hlen : length (socketDelays 0 events) = if decide (Closed ∈ events) then 1%nat else 0%nat).
    { unfold closesOnce in Hone. generalize 0 at 1. intros a. revert a.
      induction events as [|e events IHe]; intros a.
      - simpl. destruct (decide (Closed ∈ [])) as [Hin|]; [|reflexivity].
        apply elem_of_nil in Hin. contradiction.
      - destruct e.
        + rewrite filter_cons_False in Hone by discriminate. cbn [socketDelays handle].
          rewrite (IHe Hone). destruct (decide (Closed ∈ events)) as [Hin|Hno];
            destruct (decide (Closed ∈ Opened :: events)) as [Hin'|Hno']; try reflexivity.
          * exfalso. apply Hno'. apply elem_of_cons. right. exact Hin.
          * exfalso. apply elem_of_cons in Hin' as [Heq|Hin']; [discriminate Heq|contradiction].
        + rewrite filter_cons_True in Hone by reflexivity. simpl in Hone.
          assert (Hnone : filter (fun e => e = Closed) events = []).
          { destruct (filter (fun e => e = Closed) events); [reflexivity|simpl in Hone; lia]. }
          cbn [socketDelays handle]. rewrite (socketDelays_no_close events _ Hnone).
          destruct (decide (Closed ∈ Closed :: events)) as [|Hno]; [reflexivity|].
          exfalso. apply Hno. apply elem_of_cons. left. reflexivity. }
    rewrite Hlen. destruct (decide (Closed ∈ events)) as [Hin|Hno].
    + rewrite filter_cons_True by exact Hin. reflexivity.
    + rewrite filter_cons_False by exact Hno. reflexivity.
Qed.

Lemma collector_reconnects_after_one_second_witness :
  runDelays [[Closed]; [Closed]; [Opened; Closed]; [Closed]; [Opened]] = [1000; 1000; 1000; 1000]
  /\ Forall (fun delay => delay = 1000)
            (runDelays [[Closed]; [Closed]; [Opened; Closed]; [Closed]; [Opened]]).
Proof.
  split; [reflexivity|].
  refine (proj1 (collector_reconnects_after_one_second _ _)).
  repeat constructor.
Defined.

End CollectorReconnectSpec.
